(** * selfosc: delay lines, tubes and tube assemblies

    A shallow embedding of [selfosc/delay_lines.py] and
    [selfosc/simple_delay_tubes.py].

    Samples are modelled as exact rationals ([Qc]); Python integers
    (delays, pointers, indices) as [Z]; numpy 1-D arrays and Python
    lists as [list].  A Python exception is an [outcome] carrying the
    exception class; a method that mutates [self] is a computation in
    the monad [Py S], which keeps the state reached when the exception
    was raised (Python does not roll back mutations). *)

From Stdlib Require Import ZArith QArith Qcanon Lia.
From stdpp Require Import base tactics option numbers list.

Local Open Scope Z_scope.

(** ** Exceptions and the state monad of a mutable object *)

Inductive exn : Type :=
  | ValueError
  | IndexError
  | ZeroDivisionError
  | TypeError.

Inductive outcome (A : Type) : Type :=
  | Return (a : A)
  | Raise (e : exn).
Arguments Return {A} a.
Arguments Raise {A} e.

Definition outcome_bind {A B} (f : A -> outcome B) (o : outcome A) : outcome B :=
  match o with
  | Return a => f a
  | Raise e => Raise e
  end.

#[global] Instance outcome_ret : MRet outcome := fun A a => Return a.
#[global] Instance outcome_mbind : MBind outcome := fun A B f o => outcome_bind f o.

Definition Py (S A : Type) : Type := S -> outcome A * S.

Definition py_bind {S A B} (f : A -> Py S B) (m : Py S A) : Py S B :=
  fun s =>
    match m s with
    | (Return a, s') => f a s'
    | (Raise e, s') => (Raise e, s')
    end.

#[global] Instance py_ret {S} : MRet (Py S) := fun A a s => (Return a, s).
#[global] Instance py_mbind {S} : MBind (Py S) := fun A B f m => py_bind f m.

(** Read an attribute, replace the whole object, evaluate a pure
    fallible expression on [self]. *)
Definition gets {S A} (f : S -> A) : Py S A := fun s => (Return (f s), s).
Definition modify {S} (f : S -> S) : Py S unit := fun s => (Return tt, f s).
Definition reading {S A} (f : S -> outcome A) : Py S A := fun s => (f s, s).

(** ** Python and numpy primitives *)

(** [len(l)] *)
Definition len {A} (l : list A) : Z := Z.of_nat (length l).

(** [l[i]] on a list or a 1-D array: a negative index counts from the
    end, anything outside raises IndexError. *)
Definition norm_index {A} (l : list A) (i : Z) : Z :=
  if i <? 0 then i + len l else i.

Definition getitem {A} (l : list A) (i : Z) : outcome A :=
  let j := norm_index l i in
  if j <? 0 then Raise IndexError
  else match l !! Z.to_nat j with
       | Some a => Return a
       | None => Raise IndexError
       end.

(** [l[i] = x] *)
Definition setitem {A} (l : list A) (i : Z) (x : A) : outcome (list A) :=
  let j := norm_index l i in
  if (j <? 0) || (len l <=? j) then Raise IndexError
  else Return (<[Z.to_nat j := x]> l).

(** [l[:stop]] *)
Definition slice_to {A} (l : list A) (stop : Z) : list A :=
  let s := if stop <? 0 then Z.max 0 (stop + len l) else stop in
  take (Z.to_nat s) l.

(** [np.zeros(n)] *)
Definition np_zeros (n : Z) : outcome (list Qc) :=
  if n <? 0 then Raise ValueError else Return (replicate (Z.to_nat n) 0%Qc).

(** [np.flipud(a)] on a 1-D array *)
Definition np_flipud {A} (a : list A) : list A := reverse a.

(** [np.roll(a, shift)] on a 1-D array: the element at [j] moves to
    [(j + shift) mod n]. *)
Definition np_roll {A} (a : list A) (shift : Z) : list A :=
  if len a =? 0 then a
  else let k := Z.to_nat (len a - shift mod len a) in
       drop k a ++ take k a.

(** [np.arange(n)] *)
Definition np_arange (n : Z) : list Z := Z.of_nat <$> seq 0 (Z.to_nat n).

(** [x ** n] for a float [x] and an integer [n]; Python raises
    ZeroDivisionError for [0.0 ** negative]. *)
Definition pow_pos (x : Qc) (n : Z) : Qc := Qcpower x (Z.to_nat n).

Definition py_pow (x : Qc) (n : Z) : outcome Qc :=
  if 0 <=? n then Return (pow_pos x n)
  else if decide (x = 0%Qc) then Raise ZeroDivisionError
       else Return (/ pow_pos x (- n))%Qc.

(** [x ** arr] for a float [x] and an array of non-negative integers
    (the exponents come from [np.arange]). *)
Definition np_pow (x : Qc) (ns : list Z) : list Qc := pow_pos x <$> ns.

(** [x / y] on Python floats *)
Definition py_div (x y : Qc) : outcome Qc :=
  if decide (y = 0%Qc) then Raise ZeroDivisionError else Return (x / y)%Qc.

(** Elementwise binary operation on 1-D arrays with numpy's
    broadcasting: equal lengths, or one operand of length 1; any other
    pair of shapes raises ValueError. *)
Definition np_broadcast (op : Qc -> Qc -> Qc) (a b : list Qc) : outcome (list Qc) :=
  if decide (length a = length b) then Return (zip_with op a b)
  else match a, b with
       | [x], _ => Return (op x <$> b)
       | _, [y] => Return ((fun x => op x y) <$> a)
       | _, _ => Raise ValueError
       end.

Definition np_mul := np_broadcast Qcmult.
Definition np_add := np_broadcast Qcplus.

(** A bound of the slice [a[start:stop]] on an array of length [n]: a
    negative bound counts from the end, and both are clipped to the
    array. *)
Definition slice_bound (n i : Z) : Z :=
  if i <? 0 then Z.max 0 (i + n) else Z.min i n.

(** [a[start:stop] += b] on 1-D arrays: [b] is added in place to the
    view; it must have the length of the view or length 1, any other
    shape raises ValueError. *)
Definition np_iadd_slice (a : list Qc) (start stop : Z) (b : list Qc)
  : outcome (list Qc) :=
  let lo := Z.to_nat (slice_bound (len a) start) in
  let hi := Z.to_nat (slice_bound (len a) stop) in
  let n := (hi - lo)%nat in
  let view := take n (drop lo a) in
  if decide (length b = n)
  then Return (take lo a ++ zip_with Qcplus view b ++ drop (lo + n) a)
  else match b with
       | [y] => Return (take lo a ++ ((fun x => x + y)%Qc <$> view) ++ drop (lo + n) a)
       | _ => Raise ValueError
       end.

(** ** delay_lines.py *)

Module DelayLine.

Record t : Type := mk {
  line : list Qc;
  ptr : Z;
  n_samp : Z;
  delay : Z;
  nticks : Z
}.

(** [DelayLine(delay, extra)] *)
Definition init (delay extra : Z) : outcome t :=
  let n_samp := delay + extra in
  line ← np_zeros n_samp;
  mret {| line := line; ptr := 0; n_samp := n_samp; delay := delay; nticks := 0 |}.

Definition set_ptr (p : Z) (dl : t) : t :=
  {| line := line dl; ptr := p; n_samp := n_samp dl; delay := delay dl; nticks := nticks dl |}.
Definition set_nticks (k : Z) (dl : t) : t :=
  {| line := line dl; ptr := ptr dl; n_samp := n_samp dl; delay := delay dl; nticks := k |}.
Definition set_line (l : list Qc) (dl : t) : t :=
  {| line := l; ptr := ptr dl; n_samp := n_samp dl; delay := delay dl; nticks := nticks dl |}.

Definition increase_ptr : Py t unit :=
  modify (fun dl => set_ptr (ptr dl + 1) dl);;
  p ← gets ptr;
  l ← gets line;
  (if len l - 1 <? p then modify (set_ptr 0) else mret tt);;
  modify (fun dl => set_nticks (nticks dl + 1) dl).

Definition insert_sample (sin : Qc) : Py t unit :=
  increase_ptr;;
  p ← gets ptr;
  l ← reading (fun dl => setitem (line dl) p sin);
  modify (set_line l).

(** [read_delay(delay)]; [None] stands for the default argument. *)
Definition read_delay (d : option Z) (dl : t) : outcome Qc :=
  let d := default (delay dl) d in
  if n_samp dl =? 0 then Raise ZeroDivisionError
  else getitem (line dl) ((ptr dl - d) mod n_samp dl).

Definition dump_line (dl : t) : list Qc :=
  let rolled_line := np_roll (np_flipud (line dl)) (ptr dl + 1) in
  slice_to rolled_line (delay dl).

(** [dl[index]] *)
Definition getitem_ (dl : t) (index : Z) : outcome Qc := getitem (line dl) index.

End DelayLine.

(** Run a method of a sub-object held in an attribute: the attribute
    keeps whatever mutation the method performed, also when it raised. *)
Definition zoom {S T A} (get : S -> T) (set : T -> S -> S) (m : Py T A) : Py S A :=
  fun s => let '(o, t') := m (get s) in (o, set t' s).

(** [for b in l: a = body(b, a)] *)
Fixpoint for_each {S A B} (body : B -> A -> Py S A) (l : list B) (a : A) : Py S A :=
  match l with
  | [] => mret a
  | b :: l' => a' ← body b a; for_each body l' a'
  end.

(** ** simple_delay_tubes.py: Tube *)

Module Tube.

(** The attributes [scat], [tube_l] and [tube_r] are set to [None] by
    the constructor and never used again; they are left out. *)
Record t : Type := mk {
  extra : Z;
  dlin : DelayLine.t;
  dlout : DelayLine.t;
  delay : Z;
  prop_mult : Qc;
  smpl_prop_mult : Qc
}.

(** [Tube(delay, losses)] *)
Definition init (delay : Z) (losses : Qc) : outcome t :=
  let extra := 5 in
  dlin ← DelayLine.init delay extra;
  dlout ← DelayLine.init delay extra;
  prop_mult ← py_pow (1 - losses)%Qc delay;
  mret {| extra := extra; dlin := dlin; dlout := dlout; delay := delay;
          prop_mult := prop_mult; smpl_prop_mult := (1 - losses)%Qc |}.

Definition set_dlin (dl : DelayLine.t) (tb : t) : t :=
  {| extra := extra tb; dlin := dl; dlout := dlout tb; delay := delay tb;
     prop_mult := prop_mult tb; smpl_prop_mult := smpl_prop_mult tb |}.
Definition set_dlout (dl : DelayLine.t) (tb : t) : t :=
  {| extra := extra tb; dlin := dlin tb; dlout := dl; delay := delay tb;
     prop_mult := prop_mult tb; smpl_prop_mult := smpl_prop_mult tb |}.

Definition insert_incoming_sample (sin : Qc) : Py t unit :=
  zoom dlin set_dlin (DelayLine.insert_sample sin).

Definition insert_outgoing_sample (sin : Qc) : Py t unit :=
  zoom dlout set_dlout (DelayLine.insert_sample sin).

Definition read_outgoing (tb : t) : outcome Qc :=
  x ← DelayLine.read_delay (Some (DelayLine.delay (dlout tb) - 2)) (dlout tb);
  mret (x * prop_mult tb)%Qc.

Definition read_incoming (tb : t) : outcome Qc :=
  x ← DelayLine.read_delay (Some (DelayLine.delay (dlin tb) - 2)) (dlin tb);
  mret (x * prop_mult tb)%Qc.

Definition read_samples (tb : t) : outcome (Qc * Qc) :=
  o ← read_outgoing tb;
  i ← read_incoming tb;
  mret (o, i).

Definition read_incoming_at_pos (index : Z) (tb : t) : outcome Qc :=
  x ← DelayLine.read_delay (Some (delay tb - index)) (dlin tb);
  m ← py_pow (smpl_prop_mult tb) (delay tb - index);
  mret (x * m)%Qc.

Definition read_outgoing_at_pos (index : Z) (tb : t) : outcome Qc :=
  x ← DelayLine.read_delay (Some index) (dlout tb);
  m ← py_pow (smpl_prop_mult tb) index;
  mret (x * m)%Qc.

Definition get_sum_at_pos (index : Z) (tb : t) : outcome Qc :=
  pini ← read_incoming_at_pos index tb;
  pouti ← read_outgoing_at_pos index tb;
  mret (pini + pouti)%Qc.

Definition get_diff_at_pos (index : Z) (tb : t) : outcome Qc :=
  pini ← DelayLine.read_delay (Some (delay tb - index)) (dlin tb);
  pouti ← DelayLine.read_delay (Some index) (dlout tb);
  mret (- pini + pouti)%Qc.

Definition get_sum_distribution (tb : t) : outcome (list Qc) :=
  let pmults := np_pow (smpl_prop_mult tb) (np_arange (delay tb + 1)) in
  pout ← np_mul (DelayLine.dump_line (dlout tb)) pmults;
  pin ← np_mul (DelayLine.dump_line (dlin tb)) pmults;
  np_add pout (np_flipud pin).

End Tube.

(** ** simple_delay_tubes.py: TubeAssembly *)

(** A 2x2 scattering matrix, [mIJ] being [scat[I, J]]. *)
Record matrix : Type := Matrix {
  m00 : Qc; m01 : Qc;
  m10 : Qc; m11 : Qc
}.

(** [np.array([[0, 1], [-1, 0]])]: perfect open pipe *)
Definition open_end : matrix :=
  {| m00 := 0%Qc; m01 := 1%Qc; m10 := (- 1)%Qc; m11 := 0%Qc |}.

(** [np.array([[2*scr, scl-scr], [scr-scl, 2*scl]])/(scr+scl)] *)
Definition junction (scl scr : Qc) : matrix :=
  {| m00 := (2 * scr / (scr + scl))%Qc;   m01 := ((scl - scr) / (scr + scl))%Qc;
     m10 := ((scr - scl) / (scr + scl))%Qc; m11 := (2 * scl / (scr + scl))%Qc |}.

Module TubeAssembly.

Record t : Type := mk {
  tubes : list Tube.t;
  scats : list matrix;
  radii : list Qc
}.

(** [TubeAssembly()] *)
Definition init : t := {| tubes := []; scats := []; radii := [] |}.

Definition set_tubes (l : list Tube.t) (ta : t) : t :=
  {| tubes := l; scats := scats ta; radii := radii ta |}.
Definition set_scats (l : list matrix) (ta : t) : t :=
  {| tubes := tubes ta; scats := l; radii := radii ta |}.
Definition set_radii (l : list Qc) (ta : t) : t :=
  {| tubes := tubes ta; scats := scats ta; radii := l |}.

Definition connect_tubes (index : Z) : Py t unit :=
  n ← gets (fun ta => len (tubes ta));
  let index := if index <? 0 then n + index else index in
  if index =? 0 then mret tt
  else
    rr ← reading (fun ta => getitem (radii ta) index);
    scr ← reading (fun _ => py_div 1 (pow_pos rr 2));
    rl ← reading (fun ta => getitem (radii ta) (index - 1));
    scl ← reading (fun _ => py_div 1 (pow_pos rl 2));
    let newscat := junction scl scr in
    l ← reading (fun ta => setitem (scats ta) (index - 1) newscat);
    modify (set_scats l).

Definition append_tube (delay : Z) (radius losses : Qc) : Py t unit :=
  tube ← reading (fun _ => Tube.init delay losses);
  modify (fun ta => set_tubes (tubes ta ++ [tube]) ta);;
  modify (fun ta => set_scats (scats ta ++ [open_end]) ta);;
  modify (fun ta => set_radii (radii ta ++ [radius]) ta);;
  connect_tubes (-1).

Definition scatter (index : Z) (outgoing_val incoming_val : Qc) (ta : t)
  : outcome (Qc * Qc) :=
  scat ← getitem (scats ta) index;
  let plout_refl := (outgoing_val * m10 scat)%Qc in
  let plout_trans := (outgoing_val * m00 scat)%Qc in
  let prin_trans := (incoming_val * m11 scat)%Qc in
  let prin_refl := (incoming_val * m01 scat)%Qc in
  mret ((prin_refl + plout_trans)%Qc, (prin_trans + plout_refl)%Qc).

(** [self.tubes[ii].method(...)] for a method that mutates the tube:
    the tube object in the list is the one mutated. *)
Definition on_tube {A} (ii : Z) (m : Py Tube.t A) : Py t A :=
  fun ta =>
    match getitem (tubes ta) ii with
    | Raise e => (Raise e, ta)
    | Return tb =>
        let '(o, tb') := m tb in
        (o, set_tubes (<[Z.to_nat (norm_index (tubes ta) ii) := tb']> (tubes ta)) ta)
    end.

(** [self.tubes[ii].method(...)] for a method that only reads. *)
Definition read_tube {A} (ii : Z) (f : Tube.t -> outcome A) : Py t A :=
  reading (fun ta => tb ← getitem (tubes ta) ii; f tb).

(** The body of the loop of [insert_values], for the tube [ii] and
    its right neighbour; the value is the new [prev_prout]. *)
Definition propagate (ii : Z) (prev_prout : Qc) : Py t Qc :=
  plout ← read_tube ii Tube.read_outgoing;
  prin ← read_tube (ii + 1) Tube.read_incoming;
  '(prout, plin) ← reading (scatter ii plout prin);
  on_tube ii (Tube.insert_incoming_sample plin);;
  on_tube ii (Tube.insert_outgoing_sample prev_prout);;
  mret prout.

Definition insert_values (val ret_val : Qc) : Py t Qc :=
  inner ← gets (fun ta => slice_to (tubes ta) (-1));
  prev_prout ← for_each propagate (np_arange (len inner)) val;
  plout ← read_tube (-1) Tube.read_outgoing;
  let prin := ret_val in
  n ← gets (fun ta => len (scats ta));
  '(prout, plin) ← reading (scatter (n - 1) plout prin);
  on_tube (-1) (Tube.insert_incoming_sample plin);;
  on_tube (-1) (Tube.insert_outgoing_sample prev_prout);;
  mret prout.

Definition get_incoming_pressure_at_start (ta : t) : outcome Qc :=
  tb ← getitem (tubes ta) 0;
  Tube.read_incoming_at_pos 0 tb.

(** The loop of [get_tube_at_pos], started at position [pos]; [None]
    is Python's [None], returned when the loop runs out. *)
Fixpoint get_tube_at_pos_from (pos : Z) (l : list Tube.t) (index : Z)
  : option (Tube.t * Z) :=
  match l with
  | [] => None
  | tb :: l' =>
      let prev_pos := pos in
      let pos := pos + Tube.delay tb in
      if pos >=? index then Some (tb, index - prev_pos)
      else get_tube_at_pos_from pos l' index
  end.

Definition get_tube_at_pos (index : Z) (ta : t) : option (Tube.t * Z) :=
  get_tube_at_pos_from 0 (tubes ta) index.

(** Unpacking [None] into two names raises TypeError. *)
Definition get_sum_at_pos (index : Z) (ta : t) : outcome Qc :=
  match get_tube_at_pos index ta with
  | None => Raise TypeError
  | Some (tube, tube_pos) => Tube.get_sum_at_pos tube_pos tube
  end.

(** The loop of [get_sum_distribution], from position [pos] on the
    array [ps]. *)
Fixpoint get_sum_distribution_from (pos : Z) (ps : list Qc) (l : list Tube.t)
  : outcome (list Qc) :=
  match l with
  | [] => Return ps
  | tb :: l' =>
      d ← Tube.get_sum_distribution tb;
      ps' ← np_iadd_slice ps pos (pos + Tube.delay tb + 1) d;
      get_sum_distribution_from (pos + Tube.delay tb) ps' l'
  end.

Definition get_sum_distribution (ta : t) : outcome (list Qc) :=
  ps ← np_zeros (foldr (fun tb acc => Tube.delay tb + acc) 0 (tubes ta) + 1);
  get_sum_distribution_from 0 ps (tubes ta).

End TubeAssembly.

(** ** Call sequences

    The claims speak of states reached by sequences of calls; these
    are the sequences. *)

(** [for s in samples: dl.insert_sample(s)] *)
Definition insert_samples (samples : list Qc) : Py DelayLine.t unit :=
  for_each (fun s _ => DelayLine.insert_sample s) samples tt.

(** A delay line created by [DelayLine(delay, extra)] and then fed any
    number of samples. *)
Inductive dl_reachable (delay extra : Z) : DelayLine.t -> Prop :=
  | dl_reach_init dl :
      DelayLine.init delay extra = Return dl ->
      dl_reachable delay extra dl
  | dl_reach_insert dl sin dl' :
      dl_reachable delay extra dl ->
      DelayLine.insert_sample sin dl = (Return tt, dl') ->
      dl_reachable delay extra dl'.

(** A tube created by [Tube(delay, losses)] and then fed any number of
    samples on either line. *)
Inductive tube_reachable (delay : Z) (losses : Qc) : Tube.t -> Prop :=
  | tube_reach_init tb :
      Tube.init delay losses = Return tb ->
      tube_reachable delay losses tb
  | tube_reach_in tb sin tb' :
      tube_reachable delay losses tb ->
      Tube.insert_incoming_sample sin tb = (Return tt, tb') ->
      tube_reachable delay losses tb'
  | tube_reach_out tb sin tb' :
      tube_reachable delay losses tb ->
      Tube.insert_outgoing_sample sin tb = (Return tt, tb') ->
      tube_reachable delay losses tb'.

(** An assembly after any sequence of [append_tube] calls, whether
    they returned or raised. *)
Inductive appended : TubeAssembly.t -> Prop :=
  | appended_init : appended TubeAssembly.init
  | appended_step ta delay radius losses o ta' :
      appended ta ->
      TubeAssembly.append_tube delay radius losses ta = (o, ta') ->
      appended ta'.

(** The arguments of one [append_tube] call. *)
Record segment : Type := Segment {
  seg_delay : Z;
  seg_radius : Qc;
  seg_losses : Qc
}.

(** [ta = TubeAssembly(); for s in segs: ta.append_tube(...)] *)
Definition build (segs : list segment) : outcome unit * TubeAssembly.t :=
  for_each (fun s _ =>
              TubeAssembly.append_tube (seg_delay s) (seg_radius s) (seg_losses s))
           segs tt TubeAssembly.init.

(** [outs = [ta.insert_values(v, ret_val) for v in vals]] *)
Fixpoint run (vals : list Qc) (ret_val : Qc) : Py TubeAssembly.t (list Qc) :=
  match vals with
  | [] => mret []
  | v :: vals' =>
      o ← TubeAssembly.insert_values v ret_val;
      os ← run vals' ret_val;
      mret (o :: os)
  end.

(** An impulse of value [v] followed by zeros, [ticks] samples in all. *)
Definition impulse (v : Qc) (ticks : nat) : list Qc :=
  match ticks with
  | O => []
  | S k => v :: replicate k 0%Qc
  end.

(** The scenario of [test_single_tube_delay]: one tube, the impulse,
    [ticks - 1] zeros, then a read of the incoming pressure at the
    start. *)
Definition single_tube_reading (delay : Z) (radius v : Qc) (ticks : nat) : outcome Qc :=
  match build [Segment delay radius 0%Qc] with
  | (Return _, ta) =>
      match run (impulse v ticks) 0%Qc ta with
      | (Return _, ta') => TubeAssembly.get_incoming_pressure_at_start ta'
      | (Raise e, _) => Raise e
      end
  | (Raise e, _) => Raise e
  end.

(** Sum of the delays of the tubes: the total delay of the assembly. *)
Definition total_delay (l : list Tube.t) : Z :=
  foldr (fun tb acc => Tube.delay tb + acc) 0 l.

(** ** Representation predicates used by the proofs *)

(** The shape every constructed delay line of positive capacity has. *)
Definition dl_wf (dl : DelayLine.t) : Prop :=
  0 < DelayLine.n_samp dl /\
  len (DelayLine.line dl) = DelayLine.n_samp dl /\
  0 <= DelayLine.ptr dl < DelayLine.n_samp dl.

(** The slot [increase_ptr] moves to. *)
Definition next_ptr (dl : DelayLine.t) : Z :=
  if len (DelayLine.line dl) - 1 <? DelayLine.ptr dl + 1
  then 0 else DelayLine.ptr dl + 1.

(** The state [insert_sample] leaves behind when it returns. *)
Definition dl_insert (sin : Qc) (dl : DelayLine.t) : DelayLine.t :=
  {| DelayLine.line := <[Z.to_nat (next_ptr dl) := sin]> (DelayLine.line dl);
     DelayLine.ptr := next_ptr dl;
     DelayLine.n_samp := DelayLine.n_samp dl;
     DelayLine.delay := DelayLine.delay dl;
     DelayLine.nticks := DelayLine.nticks dl + 1 |}.

(** [past h k]: the sample inserted [k] ticks before the latest one in
    the history [h] (latest first), the initial zero when there was
    none. *)
Definition past (h : list Qc) (k : Z) : Qc := nth (Z.to_nat k) h 0%Qc.

(** The line holds the history [h]: offset [k] from the pointer stores
    the sample inserted [k] ticks ago. *)
Definition dl_hist (dl : DelayLine.t) (h : list Qc) : Prop :=
  forall k, 0 <= k < DelayLine.n_samp dl ->
    DelayLine.line dl !! Z.to_nat ((DelayLine.ptr dl - k) mod DelayLine.n_samp dl)
    = Some (past h k).

(** The rational [n/d] as a sample. *)
Definition qc (n : Z) (d : positive) : Qc := Q2Qc (n # d).

(** The shape of a tube of delay [d] whose lines have positive
    capacity. *)
Definition tube_wf (d : Z) (tb : Tube.t) : Prop :=
  Tube.delay tb = d /\
  dl_wf (Tube.dlin tb) /\ dl_wf (Tube.dlout tb) /\
  DelayLine.delay (Tube.dlin tb) = d /\ DelayLine.delay (Tube.dlout tb) = d /\
  DelayLine.n_samp (Tube.dlin tb) = d + 5 /\ DelayLine.n_samp (Tube.dlout tb) = d + 5.

(** The scaler [1/r**2] that [connect_tubes] computes from a radius. *)
Definition scaler (r : Qc) : Qc := (1 / pow_pos r 2)%Qc.

(** The state of the three lists after any sequence of [append_tube]
    calls: equal lengths, the open end in the last slot, and in slot
    [i] the junction of the radii [i] and [i + 1] (what
    [connect_tubes(i + 1)] stores) whenever it can be computed. *)
Definition ta_inv (ta : TubeAssembly.t) : Prop :=
  length (TubeAssembly.tubes ta) = length (TubeAssembly.scats ta) /\
  length (TubeAssembly.scats ta) = length (TubeAssembly.radii ta) /\
  (TubeAssembly.scats ta = [] \/ last (TubeAssembly.scats ta) = Some open_end) /\
  forall (i : nat) rl rr,
    TubeAssembly.radii ta !! i = Some rl ->
    TubeAssembly.radii ta !! S i = Some rr ->
    rl <> 0%Qc -> rr <> 0%Qc ->
    TubeAssembly.scats ta !! i = Some (junction (scaler rl) (scaler rr)).

(** The three [append] statements of [append_tube]. *)
Definition ta_push (tb : Tube.t) (radius : Qc) (ta : TubeAssembly.t) : TubeAssembly.t :=
  {| TubeAssembly.tubes := TubeAssembly.tubes ta ++ [tb];
     TubeAssembly.scats := TubeAssembly.scats ta ++ [open_end];
     TubeAssembly.radii := TubeAssembly.radii ta ++ [radius] |}.

(** Two tubes of delays 2 and 3 and radii 1 and 2, lossless: the
    running example. *)
Definition two_tubes : TubeAssembly.t :=
  snd (build [Segment 2 (qc 1 1) 0%Qc; Segment 3 (qc 2 1) 0%Qc]).

(** Global positions of the two ends of segment [k]: the sums of the
    delays before it and up to it. *)
Definition cum_start (l : list Tube.t) (k : nat) : Z := total_delay (take k l).
Definition cum_end (l : list Tube.t) (k : nat) : Z := total_delay (take (S k) l).

(** An assembly [insert_values] can run on: at least one tube, a
    junction slot per tube with the open end in the last one, and
    delay lines of positive capacity. *)
Definition ta_ready (ta : TubeAssembly.t) : Prop :=
  TubeAssembly.tubes ta <> [] /\
  length (TubeAssembly.scats ta) = length (TubeAssembly.tubes ta) /\
  last (TubeAssembly.scats ta) = Some open_end /\
  Forall (fun tb => dl_wf (Tube.dlin tb) /\ dl_wf (Tube.dlout tb)) (TubeAssembly.tubes ta).

(** The tube after one tick: [plin] pushed on the incoming line, then
    [prev_prout] on the outgoing line. *)
Definition tube_tick (plin prev_prout : Qc) (tb : Tube.t) : Tube.t :=
  let tb' := Tube.set_dlin (dl_insert plin (Tube.dlin tb)) tb in
  Tube.set_dlout (dl_insert prev_prout (Tube.dlout tb')) tb'.

(** Two lossless tubes of delays 2 and 3 with the same radius: every
    internal junction is transparent, the total delay is 5. *)
Definition matched_tubes : list segment :=
  [Segment 2 1%Qc 0%Qc; Segment 3 1%Qc 0%Qc].

(** A lossless single tube of delay [d] whose lines hold the histories
    [h_in] and [h_out]: what entered the incoming line is the negated
    outgoing sample of [d - 1] ticks before. *)
Definition echo_inv (d : Z) (tb : Tube.t) (h_in h_out : list Qc) : Prop :=
  tube_wf d tb /\
  dl_hist (Tube.dlin tb) h_in /\ dl_hist (Tube.dlout tb) h_out /\
  Tube.prop_mult tb = 1%Qc /\ Tube.smpl_prop_mult tb = 1%Qc /\
  forall k, 0 <= k -> past h_in k = (- past h_out (k + d - 1))%Qc.

(** The assembly made of the single tube [tb]. *)
Definition single (tb : Tube.t) (radius : Qc) : TubeAssembly.t :=
  {| TubeAssembly.tubes := [tb];
     TubeAssembly.scats := [open_end];
     TubeAssembly.radii := [radius] |}.

(** [for s in samples: tube.insert_incoming_sample(s)], and the same
    on the outgoing line. *)
Definition feed_incoming (samples : list Qc) : Py Tube.t unit :=
  for_each (fun s _ => Tube.insert_incoming_sample s) samples tt.
Definition feed_outgoing (samples : list Qc) : Py Tube.t unit :=
  for_each (fun s _ => Tube.insert_outgoing_sample s) samples tt.

(** A tube built by [Tube(delay, losses)] and fed [ins] on the incoming
    line, then [outs] on the outgoing line. *)
Definition fed_tube (delay : Z) (losses : Qc) (ins outs : list Qc) (tb : Tube.t) : Prop :=
  exists tb0 tb1,
    Tube.init delay losses = Return tb0 /\
    feed_incoming ins tb0 = (Return tt, tb1) /\
    feed_outgoing outs tb1 = (Return tt, tb).

(** [tb'] is [tb] after [m] more ticks: the constants are the same and
    both lines have counted [m] more samples. *)
Definition ticked (m : Z) (tb tb' : Tube.t) : Prop :=
  Tube.delay tb' = Tube.delay tb /\
  Tube.prop_mult tb' = Tube.prop_mult tb /\
  Tube.smpl_prop_mult tb' = Tube.smpl_prop_mult tb /\
  DelayLine.nticks (Tube.dlin tb') = DelayLine.nticks (Tube.dlin tb) + m /\
  DelayLine.nticks (Tube.dlout tb') = DelayLine.nticks (Tube.dlout tb) + m.

(** A single tube of delay [d] and full-traversal multiplier [a] whose
    lines hold the histories [h_in] and [h_out]: what entered the
    incoming line is the outgoing sample of [d - 1] ticks before,
    attenuated by [a] and negated. *)
Definition echo_att (d : Z) (a : Qc) (tb : Tube.t) (h_in h_out : list Qc) : Prop :=
  tube_wf d tb /\
  dl_hist (Tube.dlin tb) h_in /\ dl_hist (Tube.dlout tb) h_out /\
  Tube.prop_mult tb = a /\ pow_pos (Tube.smpl_prop_mult tb) d = a /\
  forall k, 0 <= k -> past h_in k = (- (past h_out (k + d - 1) * a))%Qc.

(** The assembly made of two tubes joined by the junction [m]. *)
Definition pair_assembly (tb0 tb1 : Tube.t) (m : matrix) (r0 r1 : Qc) : TubeAssembly.t :=
  {| TubeAssembly.tubes := [tb0; tb1];
     TubeAssembly.scats := [m; open_end];
     TubeAssembly.radii := [r0; r1] |}.

(** The junction between two segments of the same radius. *)
Definition transparent : matrix :=
  {| m00 := 1%Qc; m01 := 0%Qc; m10 := 0%Qc; m11 := 1%Qc |}.

(** Two tubes of delays [d0], [d1] and full-traversal multipliers [a0],
    [a1] behind a transparent junction, with the histories of their
    four lines: the second tube's outgoing line repeats the first
    one's, the second tube's incoming line is its own outgoing line
    reflected, and the first tube's incoming line repeats the second
    one's, each with the lag and attenuation of one exit read. *)
Definition echo_pair (d0 d1 : Z) (a0 a1 : Qc) (tb0 tb1 : Tube.t)
    (h0i h0o h1i h1o : list Qc) : Prop :=
  tube_wf d0 tb0 /\ tube_wf d1 tb1 /\
  dl_hist (Tube.dlin tb0) h0i /\ dl_hist (Tube.dlout tb0) h0o /\
  dl_hist (Tube.dlin tb1) h1i /\ dl_hist (Tube.dlout tb1) h1o /\
  Tube.prop_mult tb0 = a0 /\ Tube.prop_mult tb1 = a1 /\
  pow_pos (Tube.smpl_prop_mult tb0) d0 = a0 /\
  (forall k, 0 <= k -> past h1o k = (past h0o (k + d0 - 1) * a0)%Qc) /\
  (forall k, 0 <= k -> past h1i k = (- (past h1o (k + d1 - 1) * a1))%Qc) /\
  (forall k, 0 <= k -> past h0i k = (past h1i (k + d1 - 1) * a1)%Qc).

(** * Properties *)

(** ** Python primitives *)

Lemma mod_wrap (a n : Z) :
  0 < n -> - n <= a < n -> a mod n = if a <? 0 then a + n else a.
Proof.
  intros Hn Ha. destruct (Z.ltb_spec a 0).
  - symmetry. apply (Z.mod_unique_pos a n (-1)); lia.
  - apply Z.mod_small; lia.
Qed.

Lemma getitem_nonneg {A} (l : list A) (i : Z) (a : A) :
  0 <= i -> l !! Z.to_nat i = Some a -> getitem l i = Return a.
Proof.
  intros Hi Hl. unfold getitem, norm_index.
  destruct (Z.ltb_spec i 0); [lia|].
  destruct (Z.ltb_spec i 0); [lia|]. now rewrite Hl.
Qed.

Lemma setitem_nonneg {A} (l : list A) (i : Z) (x : A) :
  0 <= i < len l -> setitem l i x = Return (<[Z.to_nat i := x]> l).
Proof.
  intros Hi. unfold setitem, norm_index.
  destruct (Z.ltb_spec i 0); [lia|].
  destruct (Z.ltb_spec i 0); [lia|].
  destruct (Z.leb_spec (len l) i); [lia|]. reflexivity.
Qed.

Lemma len_insert {A} (l : list A) (i : nat) (x : A) : len (<[i := x]> l) = len l.
Proof. unfold len. now rewrite length_insert. Qed.

(** ** DelayLine *)

Lemma next_ptr_range dl : dl_wf dl -> 0 <= next_ptr dl < DelayLine.n_samp dl.
Proof.
  intros (Hn & Hl & Hp). unfold next_ptr.
  destruct (Z.ltb_spec (len (DelayLine.line dl) - 1) (DelayLine.ptr dl + 1)); lia.
Qed.

Lemma insert_sample_wf sin dl :
  dl_wf dl -> DelayLine.insert_sample sin dl = (Return tt, dl_insert sin dl).
Proof.
  intros Hwf. pose proof (next_ptr_range dl Hwf) as Hr.
  destruct Hwf as (Hn & Hl & Hp).
  unfold DelayLine.insert_sample, DelayLine.increase_ptr, dl_insert.
  unfold mbind, py_mbind, py_bind, gets, modify, reading, mret, py_ret. cbn.
  unfold next_ptr in *.
  destruct (len (DelayLine.line dl) - 1 <? DelayLine.ptr dl + 1); cbn;
    rewrite setitem_nonneg by lia; reflexivity.
Qed.

Lemma dl_insert_wf sin dl : dl_wf dl -> dl_wf (dl_insert sin dl).
Proof.
  intros Hwf. pose proof (next_ptr_range dl Hwf) as Hr.
  destruct Hwf as (Hn & Hl & Hp).
  unfold dl_wf, dl_insert; cbn. rewrite len_insert. lia.
Qed.

Lemma read_delay_wf dl k x :
  dl_wf dl ->
  DelayLine.line dl !! Z.to_nat ((DelayLine.ptr dl - k) mod DelayLine.n_samp dl) = Some x ->
  DelayLine.read_delay (Some k) dl = Return x.
Proof.
  intros (Hn & Hl & Hp) Hx. unfold DelayLine.read_delay; cbn.
  destruct (Z.eqb_spec (DelayLine.n_samp dl) 0); [lia|].
  apply getitem_nonneg; [|assumption].
  apply Z.mod_pos_bound; lia.
Qed.

Lemma read_delay_hist dl h k :
  dl_wf dl -> dl_hist dl h -> 0 <= k < DelayLine.n_samp dl ->
  DelayLine.read_delay (Some k) dl = Return (past h k).
Proof. intros Hwf Hh Hk. apply read_delay_wf; auto. Qed.

Lemma past_cons s h k : 0 < k -> past (s :: h) k = past h (k - 1).
Proof.
  intros Hk. unfold past.
  replace (Z.to_nat k) with (S (Z.to_nat (k - 1))) by lia. reflexivity.
Qed.

Lemma dl_hist_insert sin dl h :
  dl_wf dl -> dl_hist dl h -> dl_hist (dl_insert sin dl) (sin :: h).
Proof.
  intros Hwf Hh k Hk. pose proof (next_ptr_range dl Hwf) as Hr.
  destruct Hwf as (Hn & Hl & Hp).
  unfold dl_insert in *; cbn [DelayLine.line DelayLine.ptr DelayLine.n_samp] in *.
  destruct (Z.eq_dec k 0) as [->|Hk0].
  - rewrite Z.sub_0_r, Z.mod_small by lia.
    apply list_lookup_insert_eq. unfold len in Hl. lia.
  - rewrite past_cons by lia.
    assert ((next_ptr dl - k) mod DelayLine.n_samp dl
            = (DelayLine.ptr dl - (k - 1)) mod DelayLine.n_samp dl) as Heq.
    { unfold next_ptr.
      destruct (Z.ltb_spec (len (DelayLine.line dl) - 1) (DelayLine.ptr dl + 1)).
      - replace (0 - k) with (DelayLine.ptr dl - (k - 1) + (-1) * DelayLine.n_samp dl) by lia.
        apply Z.mod_add; lia.
      - f_equal; lia. }
    assert ((next_ptr dl - k) mod DelayLine.n_samp dl <> next_ptr dl) as Hne.
    { rewrite mod_wrap by lia.
      destruct (Z.ltb_spec (next_ptr dl - k) 0); lia. }
    rewrite list_lookup_insert_ne.
    + rewrite Heq. apply Hh. lia.
    + intros E. apply Hne. apply Z2Nat.inj in E; try lia.
      apply Z.mod_pos_bound; lia.
Qed.

Lemma init_wf delay extra :
  0 < delay + extra ->
  exists dl, DelayLine.init delay extra = Return dl /\ dl_wf dl /\ dl_hist dl []
             /\ DelayLine.delay dl = delay /\ DelayLine.n_samp dl = delay + extra.
Proof.
  intros Hn. unfold DelayLine.init, np_zeros.
  destruct (Z.ltb_spec (delay + extra) 0); [lia|]. cbn.
  eexists; split; [reflexivity|]. repeat split; cbn; try lia.
  - unfold len. rewrite length_replicate. lia.
  - intros k Hk.
    assert (past [] k = 0%Qc) as -> by (unfold past; destruct (Z.to_nat k); reflexivity).
    cbn in *. apply lookup_replicate_2.
    pose proof (Z.mod_pos_bound (0 - k) (delay + extra)). lia.
Qed.

Lemma insert_samples_hist samples : forall dl h,
  dl_wf dl -> dl_hist dl h ->
  exists dl', insert_samples samples dl = (Return tt, dl') /\
              dl_wf dl' /\ dl_hist dl' (reverse samples ++ h) /\
              DelayLine.delay dl' = DelayLine.delay dl /\
              DelayLine.n_samp dl' = DelayLine.n_samp dl.
Proof.
  induction samples as [|s samples IH]; intros dl h Hwf Hh.
  - exists dl. cbn. auto.
  - destruct (IH (dl_insert s dl) (s :: h)) as (dl' & Hrun & Hwf' & Hh' & Hd & Hn).
    { now apply dl_insert_wf. }
    { now apply dl_hist_insert. }
    exists dl'. split; [|split; [assumption|split]].
    + unfold insert_samples in *. cbn [for_each].
      unfold mbind at 1, py_mbind, py_bind.
      rewrite insert_sample_wf by assumption. exact Hrun.
    + rewrite reverse_cons, <- app_assoc. exact Hh'.
    + now rewrite Hd, Hn.
Qed.

Lemma dl_reachable_wf delay extra dl :
  0 < delay + extra -> dl_reachable delay extra dl ->
  dl_wf dl /\ DelayLine.delay dl = delay /\ DelayLine.n_samp dl = delay + extra.
Proof.
  intros Hn Hr. induction Hr as [dl Hinit | dl sin dl' Hr IH Hins].
  - destruct (init_wf delay extra Hn) as (dl0 & E & Hwf & _ & Hd & Hns).
    rewrite E in Hinit. injection Hinit as <-. auto.
  - destruct IH as (Hwf & Hd & Hns).
    rewrite insert_sample_wf in Hins by assumption.
    injection Hins as <-. split; [now apply dl_insert_wf | auto].
Qed.

(** [np.roll] moves the element at [(k - shift) mod n] to [k]. *)
Lemma np_roll_lookup {A} (a : list A) (shift k : Z) :
  0 <= k < len a ->
  np_roll a shift !! Z.to_nat k = a !! Z.to_nat ((k - shift) mod len a).
Proof.
  intros Hk. unfold np_roll.
  destruct (Z.eqb_spec (len a) 0) as [E|E]; [lia|].
  pose proof (Z.mod_pos_bound shift (len a) ltac:(lia)) as Hs.
  rewrite <- Zminus_mod_idemp_r.
  set (s := shift mod len a) in *.
  destruct (Z_lt_le_dec k s) as [Hlt|Hge].
  - rewrite lookup_app_l by (rewrite length_drop; unfold len in *; lia).
    rewrite lookup_drop, mod_wrap by lia.
    destruct (Z.ltb_spec (k - s) 0); [|lia]. f_equal. lia.
  - rewrite lookup_app_r by (rewrite length_drop; unfold len in *; lia).
    rewrite length_drop, lookup_take_lt by (unfold len in *; lia).
    rewrite Z.mod_small by lia. f_equal. unfold len in *. lia.
Qed.

Lemma rolled_line_lookup dl k :
  dl_wf dl -> 0 <= k < DelayLine.n_samp dl ->
  np_roll (np_flipud (DelayLine.line dl)) (DelayLine.ptr dl + 1) !! Z.to_nat k
  = DelayLine.line dl !! Z.to_nat ((DelayLine.ptr dl - k) mod DelayLine.n_samp dl).
Proof.
  intros (Hn & Hl & Hp) Hk. unfold np_flipud.
  assert (len (reverse (DelayLine.line dl)) = DelayLine.n_samp dl) as Hlr.
  { unfold len in *. now rewrite length_reverse. }
  rewrite np_roll_lookup by lia. rewrite Hlr.
  pose proof (Z.mod_pos_bound (k - (DelayLine.ptr dl + 1)) (DelayLine.n_samp dl) Hn) as Hb.
  rewrite reverse_lookup by (unfold len in *; lia).
  f_equal. revert Hb. rewrite !mod_wrap by lia.
  destruct (Z.ltb_spec (k - (DelayLine.ptr dl + 1)) 0),
           (Z.ltb_spec (DelayLine.ptr dl - k) 0); unfold len in *; lia.
Qed.

Lemma dump_line_lookup dl k :
  dl_wf dl -> DelayLine.delay dl <= DelayLine.n_samp dl ->
  0 <= k < DelayLine.delay dl ->
  DelayLine.dump_line dl !! Z.to_nat k
  = DelayLine.line dl !! Z.to_nat ((DelayLine.ptr dl - k) mod DelayLine.n_samp dl).
Proof.
  intros Hwf Hd Hk. unfold DelayLine.dump_line, slice_to.
  destruct (Z.ltb_spec (DelayLine.delay dl) 0); [lia|].
  rewrite lookup_take_lt by lia. apply rolled_line_lookup; [assumption | lia].
Qed.

Lemma len_np_roll {A} (a : list A) shift : len (np_roll a shift) = len a.
Proof.
  unfold np_roll. destruct (len a =? 0); [reflexivity|].
  unfold len. rewrite length_app, length_drop, length_take.
  pose proof (Z.mod_pos_bound shift (Z.of_nat (length a))). lia.
Qed.

Lemma len_dump_line dl :
  len (DelayLine.line dl) = DelayLine.n_samp dl ->
  0 <= DelayLine.delay dl <= DelayLine.n_samp dl ->
  len (DelayLine.dump_line dl) = DelayLine.delay dl.
Proof.
  intros Hl Hd. unfold DelayLine.dump_line, slice_to.
  destruct (Z.ltb_spec (DelayLine.delay dl) 0); [lia|].
  pose proof (len_np_roll (np_flipud (DelayLine.line dl)) (DelayLine.ptr dl + 1)) as Hr.
  unfold np_flipud, len in *. rewrite length_reverse in Hr.
  rewrite length_take. lia.
Qed.

Lemma wf_line_lookup dl i :
  dl_wf dl -> 0 <= i < DelayLine.n_samp dl ->
  exists x, DelayLine.line dl !! Z.to_nat i = Some x.
Proof.
  intros (Hn & Hl & Hp) Hi.
  destruct (lookup_lt_is_Some_2 (DelayLine.line dl) (Z.to_nat i)) as [x Hx];
    [unfold len in *; lia | eauto].
Qed.

(** Closed goals on rationals: evaluate both sides and compare the
    canonical fractions. *)
Ltac qc_eval :=
  vm_compute;
  repeat match goal with
         | |- @eq Qc _ _ => apply Qc_is_canon; reflexivity
         | |- _ => reflexivity
         | |- _ => progress f_equal
         end.

(** C5. Delay correctness: a line of capacity [delay + extra] that was
    fed [samples] returns at offset [k] below the capacity the sample
    inserted [k] ticks before the latest one, and the initial zero when
    fewer than [k + 1] samples were ever inserted; in particular offset
    0 returns the latest sample.  This holds for every number of
    inserted samples. *)
Theorem delay_correctness (delay extra : Z) (samples : list Qc) :
  0 < delay + extra ->
  exists dl0 dl,
    DelayLine.init delay extra = Return dl0 /\
    insert_samples samples dl0 = (Return tt, dl) /\
    (forall k s, 0 <= k < delay + extra ->
       reverse samples !! Z.to_nat k = Some s ->
       DelayLine.read_delay (Some k) dl = Return s) /\
    (forall k, len samples <= k < delay + extra ->
       DelayLine.read_delay (Some k) dl = Return 0%Qc) /\
    (forall earlier s, samples = earlier ++ [s] ->
       DelayLine.read_delay (Some 0) dl = Return s).
Proof.
  intros Hn.
  destruct (init_wf delay extra Hn) as (dl0 & Hinit & Hwf0 & Hh0 & Hd0 & Hn0).
  destruct (insert_samples_hist samples dl0 [] Hwf0 Hh0)
    as (dl & Hrun & Hwf & Hh & Hd & Hns).
  rewrite app_nil_r in Hh.
  assert (forall k, 0 <= k < delay + extra ->
            DelayLine.read_delay (Some k) dl = Return (past (reverse samples) k)) as Hread.
  { intros k Hk. apply read_delay_hist; auto. lia. }
  exists dl0, dl. repeat split; try assumption.
  - intros k s Hk Hs. rewrite Hread by assumption. f_equal.
    unfold past. apply nth_lookup_Some with (d := 0%Qc) in Hs. exact Hs.
  - intros k Hk. unfold len in Hk. rewrite Hread by lia. f_equal.
    unfold past. apply nth_overflow. rewrite length_reverse. lia.
  - intros earlier s ->. rewrite Hread by lia. now rewrite reverse_snoc.
Qed.

Lemma delay_correctness_witness :
  0 < 3 + 1 /\
  exists dl0 dl,
    DelayLine.init 3 1 = Return dl0 /\
    insert_samples [qc 1 1; qc 2 1; qc 3 1; qc 4 1; qc 5 1; qc 6 1] dl0 = (Return tt, dl) /\
    (forall k s, 0 <= k < 3 + 1 ->
       reverse [qc 1 1; qc 2 1; qc 3 1; qc 4 1; qc 5 1; qc 6 1] !! Z.to_nat k = Some s ->
       DelayLine.read_delay (Some k) dl = Return s) /\
    (forall k, len [qc 1 1; qc 2 1; qc 3 1; qc 4 1; qc 5 1; qc 6 1] <= k < 3 + 1 ->
       DelayLine.read_delay (Some k) dl = Return 0%Qc) /\
    (forall earlier s,
       [qc 1 1; qc 2 1; qc 3 1; qc 4 1; qc 5 1; qc 6 1] = earlier ++ [s] ->
       DelayLine.read_delay (Some 0) dl = Return s).
Proof.
  split; [lia|].
  apply (delay_correctness 3 1 [qc 1 1; qc 2 1; qc 3 1; qc 4 1; qc 5 1; qc 6 1]).
  lia.
Defined.

(** C6. Dump consistency: in every state a delay line can reach,
    [dump_line()] has [delay] entries and entry [k] is what
    [read_delay(k)] returns, for [0 <= k < delay]; the dump is a pure
    function of the state, so taking it changes nothing. *)
Theorem dump_consistency (delay extra : Z) (dl : DelayLine.t) (k : Z) :
  0 <= extra -> dl_reachable delay extra dl -> 0 <= k < delay ->
  len (DelayLine.dump_line dl) = delay /\
  exists x, getitem (DelayLine.dump_line dl) k = Return x /\
            DelayLine.read_delay (Some k) dl = Return x.
Proof.
  intros He Hr Hk.
  destruct (dl_reachable_wf delay extra dl ltac:(lia) Hr) as (Hwf & Hd & Hn).
  split.
  - rewrite <- Hd. apply len_dump_line; [apply Hwf | lia].
  - pose proof (Z.mod_pos_bound (DelayLine.ptr dl - k) (DelayLine.n_samp dl) ltac:(lia)) as Hb.
    destruct (wf_line_lookup dl _ Hwf Hb) as [x Hx].
    exists x. split.
    + apply getitem_nonneg; [lia|]. rewrite dump_line_lookup; auto; lia.
    + now apply read_delay_wf.
Qed.

Lemma dump_consistency_witness :
  exists dl, dl_reachable 3 1 dl /\
    len (DelayLine.dump_line dl) = 3 /\
    exists x, getitem (DelayLine.dump_line dl) 2 = Return x /\
              DelayLine.read_delay (Some 2) dl = Return x.
Proof.
  eexists. split; [|apply (dump_consistency 3 1 _ 2); [lia | | lia]].
  - eapply dl_reach_insert with (sin := qc 7 1);
      [eapply dl_reach_insert with (sin := qc 5 1); [apply dl_reach_init|] |];
      vm_compute; reflexivity.
  - eapply dl_reach_insert with (sin := qc 7 1);
      [eapply dl_reach_insert with (sin := qc 5 1); [apply dl_reach_init|] |];
      vm_compute; reflexivity.
Defined.

(** C8, as the code has it. [read_delay] performs no bounds check: on a
    line of positive capacity it returns a sample for every integer
    offset, the one stored at [(ptr - offset) mod n_samp], so an offset
    at or beyond the capacity silently reads the same slot as that
    offset reduced modulo the capacity. *)
Theorem read_delay_wraps (delay extra : Z) (dl : DelayLine.t) (k : Z) :
  0 < delay + extra -> dl_reachable delay extra dl ->
  exists x, DelayLine.read_delay (Some k) dl = Return x /\
            DelayLine.read_delay (Some (k mod (delay + extra))) dl = Return x.
Proof.
  intros Hn Hr.
  destruct (dl_reachable_wf delay extra dl Hn Hr) as (Hwf & Hd & Hns).
  pose proof (Z.mod_pos_bound (DelayLine.ptr dl - k) (DelayLine.n_samp dl) ltac:(lia)) as Hb.
  destruct (wf_line_lookup dl _ Hwf Hb) as [x Hx].
  exists x. split; apply read_delay_wf; auto.
  rewrite <- Hns, Zminus_mod_idemp_r. exact Hx.
Qed.

Lemma read_delay_wraps_witness :
  exists dl, dl_reachable 3 1 dl /\
    exists x, DelayLine.read_delay (Some 9) dl = Return x /\
              DelayLine.read_delay (Some (9 mod (3 + 1))) dl = Return x.
Proof.
  eexists. split; [|apply (read_delay_wraps 3 1 _ 9); [lia|]].
  - eapply dl_reach_insert with (sin := qc 7 1); [apply dl_reach_init|];
      vm_compute; reflexivity.
  - eapply dl_reach_insert with (sin := qc 7 1); [apply dl_reach_init|];
      vm_compute; reflexivity.
Defined.

(** C8 fails as stated: on a line of capacity 4 that was fed 1..5,
    offset 4 is out of range, yet [read_delay(4)] raises nothing and
    returns the latest sample, the one offset 0 returns. *)
Lemma read_delay_out_of_range_counterexample :
  exists dl0 dl,
    DelayLine.init 3 1 = Return dl0 /\
    insert_samples [qc 1 1; qc 2 1; qc 3 1; qc 4 1; qc 5 1] dl0 = (Return tt, dl) /\
    DelayLine.n_samp dl = 4 /\
    DelayLine.read_delay (Some 4) dl = Return (qc 5 1) /\
    DelayLine.read_delay (Some 0) dl = Return (qc 5 1).
Proof.
  do 2 eexists. split_and!; vm_compute; reflexivity.
Qed.

(** ** Tube *)

Ltac py_unfold :=
  unfold mbind, py_mbind, py_bind, outcome_mbind, outcome_bind,
         mret, py_ret, outcome_ret, gets, modify, reading, zoom in *.

Lemma py_pow_nonneg x n : 0 <= n -> py_pow x n = Return (pow_pos x n).
Proof. intros Hn. unfold py_pow. destruct (Z.leb_spec 0 n); [reflexivity | lia]. Qed.

Lemma tube_init_return delay losses :
  -5 <= delay -> (0 <= delay \/ losses <> 1%Qc) ->
  exists tb, Tube.init delay losses = Return tb /\
             Tube.delay tb = delay /\
             Tube.smpl_prop_mult tb = (1 - losses)%Qc /\
             py_pow (1 - losses)%Qc delay = Return (Tube.prop_mult tb).
Proof.
  intros Hd Hl. unfold Tube.init, DelayLine.init, np_zeros.
  destruct (Z.ltb_spec (delay + 5) 0); [lia|]. py_unfold. cbn.
  assert (exists m, py_pow (1 - losses)%Qc delay = Return m) as [m Hm].
  { unfold py_pow. destruct (Z.leb_spec 0 delay); [eauto|].
    destruct (decide ((1 - losses)%Qc = 0%Qc)) as [E|E]; [|eauto].
    destruct Hl as [?|Hl]; [lia|]. exfalso. apply Hl.
    rewrite <- (Qcplus_0_l losses), <- E. ring. }
  rewrite Hm. eexists. repeat split; cbn; auto.
Qed.

Lemma tube_init_wf delay losses :
  -5 < delay -> (0 <= delay \/ losses <> 1%Qc) ->
  exists tb, Tube.init delay losses = Return tb /\ tube_wf delay tb /\
             dl_hist (Tube.dlin tb) [] /\ dl_hist (Tube.dlout tb) [] /\
             Tube.smpl_prop_mult tb = (1 - losses)%Qc /\
             py_pow (1 - losses)%Qc delay = Return (Tube.prop_mult tb).
Proof.
  intros Hd Hl.
  destruct (tube_init_return delay losses ltac:(lia) Hl) as (tb & Hinit & Hdel & Hs & Hp).
  destruct (init_wf delay 5 ltac:(lia)) as (dl & Hdl & Hwf & Hh & Hdd & Hn).
  exists tb. split; [assumption|].
  unfold Tube.init in Hinit. rewrite Hdl in Hinit. py_unfold. cbn in Hinit.
  destruct (py_pow (1 - losses)%Qc delay); [|discriminate].
  injection Hinit as <-. unfold tube_wf; cbn. repeat split; auto; try apply Hwf.
Qed.

Lemma insert_incoming_wf sin tb :
  dl_wf (Tube.dlin tb) ->
  Tube.insert_incoming_sample sin tb
  = (Return tt, Tube.set_dlin (dl_insert sin (Tube.dlin tb)) tb).
Proof.
  intros Hwf. unfold Tube.insert_incoming_sample, zoom.
  now rewrite insert_sample_wf.
Qed.

Lemma insert_outgoing_wf sin tb :
  dl_wf (Tube.dlout tb) ->
  Tube.insert_outgoing_sample sin tb
  = (Return tt, Tube.set_dlout (dl_insert sin (Tube.dlout tb)) tb).
Proof.
  intros Hwf. unfold Tube.insert_outgoing_sample, zoom.
  now rewrite insert_sample_wf.
Qed.

Lemma set_dlin_wf d sin tb :
  tube_wf d tb -> tube_wf d (Tube.set_dlin (dl_insert sin (Tube.dlin tb)) tb).
Proof.
  intros (H1 & H2 & H3 & H4 & H5 & H6 & H7).
  unfold tube_wf; cbn. split_and!; auto; now apply dl_insert_wf.
Qed.

Lemma set_dlout_wf d sin tb :
  tube_wf d tb -> tube_wf d (Tube.set_dlout (dl_insert sin (Tube.dlout tb)) tb).
Proof.
  intros (H1 & H2 & H3 & H4 & H5 & H6 & H7).
  unfold tube_wf; cbn. split_and!; auto; now apply dl_insert_wf.
Qed.

Lemma tube_reachable_wf delay losses tb :
  -5 < delay -> tube_reachable delay losses tb -> tube_wf delay tb.
Proof.
  intros Hd Hr. induction Hr as [tb Hinit | tb sin tb' Hr IH Hins | tb sin tb' Hr IH Hins].
  - assert (0 <= delay \/ losses <> 1%Qc) as Hl.
    { destruct (Z_le_gt_dec 0 delay); [auto|]. right. intros ->.
      unfold Tube.init, DelayLine.init, np_zeros in Hinit.
      destruct (Z.ltb_spec (delay + 5) 0); [lia|]. py_unfold. cbn in Hinit.
      unfold py_pow in Hinit. destruct (Z.leb_spec 0 delay); [lia|].
      replace (1 - 1)%Qc with 0%Qc in Hinit by ring.
      destruct (decide (0%Qc = 0%Qc)); [discriminate | congruence]. }
    destruct (tube_init_wf delay losses Hd Hl) as (tb0 & E & Hwf & _).
    rewrite E in Hinit. now injection Hinit as <-.
  - rewrite insert_incoming_wf in Hins by apply IH.
    injection Hins as <-. now apply set_dlin_wf.
  - rewrite insert_outgoing_wf in Hins by apply IH.
    injection Hins as <-. now apply set_dlout_wf.
Qed.

Lemma np_broadcast_mismatch op (a b : list Qc) :
  length a <> length b -> length a <> 1%nat -> length b <> 1%nat ->
  np_broadcast op a b = Raise ValueError.
Proof.
  intros Hab Ha Hb. unfold np_broadcast.
  destruct (decide (length a = length b)); [contradiction|].
  destruct a as [|x [|x' a]], b as [|y [|y' b]]; cbn in *; congruence.
Qed.

Lemma len_np_arange n : 0 <= n -> len (np_arange n) = n.
Proof.
  intros Hn. unfold len, np_arange. rewrite length_fmap, length_seq. lia.
Qed.

(** C4 fails on the code. [dump_line()] has [delay] entries and the
    vector of multipliers [delay + 1], so for every tube of delay 2 or
    more, in every state it can reach, [get_sum_distribution] raises
    ValueError at the first product instead of returning a sequence of
    [delay + 1] sums. *)
Theorem get_sum_distribution_raises (delay : Z) (losses : Qc) (tb : Tube.t) :
  2 <= delay -> tube_reachable delay losses tb ->
  Tube.get_sum_distribution tb = Raise ValueError.
Proof.
  intros Hd Hr.
  destruct (tube_reachable_wf delay losses tb ltac:(lia) Hr)
    as (H1 & H2 & H3 & H4 & H5 & H6 & H7).
  unfold Tube.get_sum_distribution, np_mul. cbv zeta.
  assert (len (DelayLine.dump_line (Tube.dlout tb)) = delay) as Hdump.
  { rewrite <- H5. apply len_dump_line; [apply H3 | lia]. }
  assert (len (np_pow (Tube.smpl_prop_mult tb) (np_arange (Tube.delay tb + 1)))
          = delay + 1) as Hm.
  { unfold np_pow, len. rewrite length_fmap. fold (len (np_arange (Tube.delay tb + 1))).
    rewrite len_np_arange; lia. }
  unfold len in *.
  rewrite (np_broadcast_mismatch Qcmult (DelayLine.dump_line (Tube.dlout tb))) by lia.
  reflexivity.
Qed.

Lemma get_sum_distribution_raises_witness :
  exists tb, tube_reachable 3 0%Qc tb /\
    Tube.get_sum_distribution tb = Raise ValueError.
Proof.
  eexists. split; [|apply (get_sum_distribution_raises 3 0%Qc); [lia|]].
  - eapply tube_reach_out with (sin := qc 9 10); [apply tube_reach_init|];
      vm_compute; reflexivity.
  - eapply tube_reach_out with (sin := qc 9 10); [apply tube_reach_init|];
      vm_compute; reflexivity.
Defined.

(** ** TubeAssembly: construction *)

Lemma pow_pos_2_zero r : pow_pos r 2 = 0%Qc <-> r = 0%Qc.
Proof.
  unfold pow_pos. change (Z.to_nat 2) with 2%nat. cbn [Qcpower]. split.
  - intros H. apply Qcmult_integral in H as [H|H]; [assumption|].
    apply Qcmult_integral in H as [H|H]; [assumption | discriminate].
  - intros ->. ring.
Qed.

Lemma py_div_nonzero x y : y <> 0%Qc -> py_div x y = Return (x / y)%Qc.
Proof. intros H. unfold py_div. destruct (decide (y = 0%Qc)); [contradiction | reflexivity]. Qed.

Lemma py_div_zero x : py_div x 0 = Raise ZeroDivisionError.
Proof. unfold py_div. destruct (decide (0%Qc = 0%Qc)); [reflexivity | congruence]. Qed.

Lemma connect_tubes_neg index ta :
  index < 0 -> 0 <= len (TubeAssembly.tubes ta) + index ->
  TubeAssembly.connect_tubes index ta
  = TubeAssembly.connect_tubes (len (TubeAssembly.tubes ta) + index) ta.
Proof.
  intros Hi Hn. unfold TubeAssembly.connect_tubes. py_unfold. cbn.
  destruct (Z.ltb_spec index 0); [|lia].
  destruct (Z.ltb_spec (len (TubeAssembly.tubes ta) + index) 0); [lia|]. reflexivity.
Qed.

Lemma connect_tubes_zero ta : TubeAssembly.connect_tubes 0 ta = (Return tt, ta).
Proof. reflexivity. Qed.

(** What [connect_tubes(i + 1)] does, by the radii it finds. *)
Lemma connect_tubes_cases ta (i : nat) rl rr :
  TubeAssembly.radii ta !! i = Some rl ->
  TubeAssembly.radii ta !! S i = Some rr ->
  (i < length (TubeAssembly.scats ta))%nat ->
  (rl <> 0%Qc /\ rr <> 0%Qc /\
   TubeAssembly.connect_tubes (Z.of_nat (S i)) ta
   = (Return tt,
      TubeAssembly.set_scats
        (<[i := junction (scaler rl) (scaler rr)]> (TubeAssembly.scats ta)) ta))
  \/
  ((rl = 0%Qc \/ rr = 0%Qc) /\
   TubeAssembly.connect_tubes (Z.of_nat (S i)) ta = (Raise ZeroDivisionError, ta)).
Proof.
  intros Hl Hr Hi. unfold TubeAssembly.connect_tubes. py_unfold. cbn beta iota.
  destruct (Z.ltb_spec (Z.of_nat (S i)) 0); [lia|].
  destruct (Z.eqb_spec (Z.of_nat (S i)) 0); [lia|].
  rewrite (getitem_nonneg _ _ rr) by (rewrite ?Nat2Z.id; auto; lia).
  destruct (decide (rr = 0%Qc)) as [->|Hrr].
  { right. split; [auto|]. replace (pow_pos 0 2) with 0%Qc by (symmetry; now apply pow_pos_2_zero).
    now rewrite py_div_zero. }
  rewrite py_div_nonzero by (now rewrite pow_pos_2_zero).
  rewrite (getitem_nonneg _ _ rl)
    by (try lia; replace (Z.to_nat (Z.of_nat (S i) - 1)) with i by lia; auto).
  destruct (decide (rl = 0%Qc)) as [->|Hrl].
  { right. split; [auto|]. replace (pow_pos 0 2) with 0%Qc by (symmetry; now apply pow_pos_2_zero).
    now rewrite py_div_zero. }
  rewrite py_div_nonzero by (now rewrite pow_pos_2_zero).
  left. split; [assumption|]. split; [assumption|].
  rewrite setitem_nonneg by (unfold len; lia).
  replace (Z.to_nat (Z.of_nat (S i) - 1)) with i by lia. reflexivity.
Qed.

(** [append_tube] either fails in the constructor of the tube and
    changes nothing, or appends to the three lists and then runs
    [connect_tubes] on the result. *)
Lemma append_tube_unfold delay radius losses ta :
  TubeAssembly.append_tube delay radius losses ta =
  match Tube.init delay losses with
  | Raise e => (Raise e, ta)
  | Return tb => TubeAssembly.connect_tubes (-1) (ta_push tb radius ta)
  end.
Proof.
  unfold TubeAssembly.append_tube. py_unfold.
  destruct (Tube.init delay losses); reflexivity.
Qed.

Lemma ta_inv_init : ta_inv TubeAssembly.init.
Proof.
  unfold ta_inv; cbn. split_and!; auto.
  intros i rl rr H. now rewrite lookup_nil in H.
Qed.

(** Slots of the pushed lists below the new boundary are the old ones. *)
Lemma ta_push_old_slots tb radius ta (j : nat) rl rr :
  ta_inv ta -> (S j < length (TubeAssembly.radii ta))%nat ->
  TubeAssembly.radii (ta_push tb radius ta) !! j = Some rl ->
  TubeAssembly.radii (ta_push tb radius ta) !! S j = Some rr ->
  rl <> 0%Qc -> rr <> 0%Qc ->
  TubeAssembly.scats (ta_push tb radius ta) !! j = Some (junction (scaler rl) (scaler rr)).
Proof.
  intros (Hts & Hsr & Hlast & Hj) Hlt Hl Hr Hnl Hnr. cbn in *.
  rewrite lookup_app_l in Hl by lia. rewrite lookup_app_l in Hr by lia.
  rewrite lookup_app_l by lia. now apply Hj.
Qed.

Lemma append_tube_inv delay radius losses ta o ta' :
  ta_inv ta ->
  TubeAssembly.append_tube delay radius losses ta = (o, ta') ->
  ta_inv ta'.
Proof.
  intros Hinv Happ. rewrite append_tube_unfold in Happ.
  destruct (Tube.init delay losses) as [tb|e]; [|now injection Happ as _ <-].
  pose proof Hinv as (Hts & Hsr & Hlast & Hj).
  set (ta1 := ta_push tb radius ta) in *.
  assert (len (TubeAssembly.tubes ta1)
          = Z.of_nat (S (length (TubeAssembly.tubes ta)))) as Hlen.
  { unfold len; cbn. rewrite length_app; cbn. lia. }
  rewrite connect_tubes_neg in Happ by lia. rewrite Hlen in Happ.
  replace (Z.of_nat (S (length (TubeAssembly.tubes ta))) + -1)
    with (Z.of_nat (length (TubeAssembly.tubes ta))) in Happ by lia.
  destruct (length (TubeAssembly.tubes ta)) as [|i] eqn:HN.
  - (* first tube: connect_tubes returns at once *)
    rewrite connect_tubes_zero in Happ. injection Happ as _ <-.
    destruct (TubeAssembly.scats ta) eqn:Es; [|cbn in Hts; lia].
    destruct (TubeAssembly.radii ta) eqn:Er; [|cbn in Hsr; lia].
    destruct (TubeAssembly.tubes ta) eqn:Et; [|discriminate].
    unfold ta_inv, ta1, ta_push; cbn. rewrite Es, Er, Et; cbn.
    split_and!; auto. intros [|j] rl rr H1 H2; cbn in *; discriminate.
  - destruct (lookup_lt_is_Some_2 (TubeAssembly.radii ta) i) as [rl Hrl]; [lia|].
    assert (TubeAssembly.radii ta1 !! i = Some rl) as Hrl1.
    { cbn. rewrite lookup_app_l by lia. exact Hrl. }
    assert (TubeAssembly.radii ta1 !! S i = Some radius) as Hrr1.
    { cbn. replace (S i) with (length (TubeAssembly.radii ta) + 0)%nat by lia.
      now rewrite lookup_app_r, Nat.add_comm, Nat.add_sub by lia. }
    assert (length (TubeAssembly.scats ta1) = S (S i)) as Hls.
    { cbn. rewrite length_app; cbn. lia. }
    assert (last (TubeAssembly.scats ta1) = Some open_end) as Hlast1.
    { cbn. apply last_snoc. }
    assert (length (TubeAssembly.tubes ta1) = S (S i)) as Hlt.
    { cbn. rewrite length_app; cbn. lia. }
    assert (length (TubeAssembly.radii ta1) = S (S i)) as Hlr.
    { cbn. rewrite length_app; cbn. lia. }
    assert (forall j rl' rr', j <> i ->
              TubeAssembly.radii ta1 !! j = Some rl' ->
              TubeAssembly.radii ta1 !! S j = Some rr' ->
              rl' <> 0%Qc -> rr' <> 0%Qc ->
              TubeAssembly.scats ta1 !! j = Some (junction (scaler rl') (scaler rr')))
      as Hold.
    { intros j rl' rr' Hne Hl' Hr' Hnl' Hnr'.
      apply (ta_push_old_slots tb radius ta j rl' rr'); auto.
      apply lookup_lt_Some in Hr'. rewrite Hlr in Hr'. lia. }
    clearbody ta1.
    destruct (connect_tubes_cases ta1 i rl radius Hrl1 Hrr1 ltac:(lia))
      as [(Hnl & Hnr & E) | (Hz & E)];
      rewrite E in Happ; injection Happ as _ <-.
    + unfold ta_inv; cbn [TubeAssembly.set_scats TubeAssembly.tubes
                          TubeAssembly.scats TubeAssembly.radii].
      rewrite length_insert. split_and!; [lia | lia | |].
      * right. rewrite last_lookup, length_insert, Hls. cbn [pred].
        rewrite list_lookup_insert_ne by lia.
        rewrite last_lookup, Hls in Hlast1. exact Hlast1.
      * intros j rl' rr' Hl' Hr' Hnl' Hnr'.
        destruct (decide (j = i)) as [->|Hne].
        -- rewrite Hrl1 in Hl'. rewrite Hrr1 in Hr'.
           injection Hl' as <-. injection Hr' as <-.
           apply list_lookup_insert_eq. lia.
        -- rewrite list_lookup_insert_ne by auto. now apply Hold.
    + unfold ta_inv. split_and!; [lia | lia | right; exact Hlast1 |].
      intros j rl' rr' Hl' Hr' Hnl' Hnr'.
      destruct (decide (j = i)) as [->|Hne].
      * rewrite Hrl1 in Hl'. rewrite Hrr1 in Hr'.
        injection Hl' as <-. injection Hr' as <-. tauto.
      * now apply Hold.
Qed.

Lemma appended_inv ta : appended ta -> ta_inv ta.
Proof.
  induction 1 as [|ta delay radius losses o ta' _ IH Happ].
  - apply ta_inv_init.
  - eapply append_tube_inv; eauto.
Qed.

Lemma scaler_pos r : (0 < r)%Qc -> (0 < scaler r)%Qc.
Proof.
  intros Hr. unfold scaler, pow_pos. change (Z.to_nat 2) with 2%nat. cbn [Qcpower].
  unfold Qcdiv. rewrite Qcmult_1_l, Qcmult_1_r.
  apply Qcinv_pos. now apply Qcmult_pos_pos.
Qed.

Lemma Qc_pos_nonzero (x : Qc) : (0 < x)%Qc -> x <> 0%Qc.
Proof. intros H E. rewrite E in H. now apply Qclt_not_eq in H. Qed.

(** The algebra of the construction formula, for any two scalers with
    a non-zero sum. *)
Lemma junction_algebra scl scr :
  (scr + scl)%Qc <> 0%Qc ->
  (m01 (junction scl scr) + m10 (junction scl scr) = 0)%Qc /\
  (m00 (junction scl scr) * scl = m11 (junction scl scr) * scr)%Qc /\
  (m00 (junction scl scr) + m11 (junction scl scr) = 2)%Qc.
Proof.
  intros Hs. unfold junction; cbn. split_and!; field; assumption.
Qed.

(** C7. Scattering conservation: for two positive radii [r_left] and
    [r_right] stored at [i] and [i + 1], [connect_tubes(i + 1)] returns
    and stores in slot [i] the matrix [M] of the construction formula,
    with [scl = 1/r_left**2] and [scr = 1/r_right**2].  Its coupling
    terms are antisymmetric, [M[0,1] + M[1,0] = 0], and its diagonal
    terms are equal once each is scaled by the square of its own
    radius, [M[0,0] * r_right**2 = M[1,1] * r_left**2] (equivalently
    [M[0,0] * scl = M[1,1] * scr]); they add up to 2. *)
Theorem scattering_conservation (ta : TubeAssembly.t) (i : nat) (r_left r_right : Qc) :
  TubeAssembly.radii ta !! i = Some r_left ->
  TubeAssembly.radii ta !! S i = Some r_right ->
  (i < length (TubeAssembly.scats ta))%nat ->
  (0 < r_left)%Qc -> (0 < r_right)%Qc ->
  exists M ta',
    TubeAssembly.connect_tubes (Z.of_nat (S i)) ta = (Return tt, ta') /\
    TubeAssembly.scats ta' !! i = Some M /\
    M = junction (1 / pow_pos r_left 2)%Qc (1 / pow_pos r_right 2)%Qc /\
    (m01 M + m10 M = 0)%Qc /\
    (m00 M * pow_pos r_right 2 = m11 M * pow_pos r_left 2)%Qc /\
    (m00 M * (1 / pow_pos r_left 2) = m11 M * (1 / pow_pos r_right 2))%Qc /\
    (m00 M + m11 M = 2)%Qc.
Proof.
  intros Hl Hr Hi Hpl Hpr.
  pose proof (Qc_pos_nonzero _ Hpl) as Hnl. pose proof (Qc_pos_nonzero _ Hpr) as Hnr.
  destruct (connect_tubes_cases ta i r_left r_right Hl Hr Hi)
    as [(_ & _ & E) | ([Hz|Hz] & _)]; [|contradiction|contradiction].
  assert ((scaler r_right + scaler r_left)%Qc <> 0%Qc) as Hs.
  { apply Qc_pos_nonzero, Qcplus_pos_pos; now apply scaler_pos. }
  destruct (junction_algebra (scaler r_left) (scaler r_right) Hs) as (A1 & A2 & A3).
  eexists _, _. split; [exact E|]. cbn [TubeAssembly.set_scats TubeAssembly.scats].
  split; [now apply list_lookup_insert_eq|].
  fold (scaler r_left) (scaler r_right).
  split_and!; auto.
  assert (pow_pos r_left 2 <> 0%Qc) as Hpl2 by now rewrite pow_pos_2_zero.
  assert (pow_pos r_right 2 <> 0%Qc) as Hpr2 by now rewrite pow_pos_2_zero.
  apply (f_equal (fun x => x * (pow_pos r_left 2 * pow_pos r_right 2))%Qc) in A2.
  unfold scaler in A2 at 3 6. 
  transitivity (m00 (junction (scaler r_left) (scaler r_right)) * (1 / pow_pos r_left 2) *
                (pow_pos r_left 2 * pow_pos r_right 2))%Qc; [field; assumption|].
  rewrite A2. field; assumption.
Qed.

Lemma scattering_conservation_witness :
  exists M ta',
    TubeAssembly.connect_tubes (Z.of_nat 1) two_tubes = (Return tt, ta') /\
    TubeAssembly.scats ta' !! 0%nat = Some M /\
    M = junction (1 / pow_pos (qc 1 1) 2)%Qc (1 / pow_pos (qc 2 1) 2)%Qc /\
    (m01 M + m10 M = 0)%Qc /\
    (m00 M * pow_pos (qc 2 1) 2 = m11 M * pow_pos (qc 1 1) 2)%Qc /\
    (m00 M * (1 / pow_pos (qc 1 1) 2) = m11 M * (1 / pow_pos (qc 2 1) 2))%Qc /\
    (m00 M + m11 M = 2)%Qc.
Proof.
  apply (scattering_conservation two_tubes 0 (qc 1 1) (qc 2 1));
    first [vm_compute; reflexivity | vm_compute; lia].
Defined.

(** The diagonal terms themselves differ when the radii do: for radii
    1 and 2 they are 2/5 and 8/5. *)
Remark junction_diagonal_unequal :
  m00 (junction (scaler (qc 1 1)) (scaler (qc 2 1))) = qc 2 5 /\
  m11 (junction (scaler (qc 1 1)) (scaler (qc 2 1))) = qc 8 5.
Proof. split; qc_eval. Qed.



(** A call of [append_tube] that returns: the tube is built, the three
    lists grow by one, and the values are stored as given. *)
Lemma append_tube_ok (ta : TubeAssembly.t) (delay : Z) (radius losses : Qc) :
  ta_inv ta ->
  -5 <= delay ->
  (0 <= delay \/ losses <> 1%Qc) ->
  (forall rl, last (TubeAssembly.radii ta) = Some rl -> rl <> 0%Qc /\ radius <> 0%Qc) ->
  exists tb ta',
    TubeAssembly.append_tube delay radius losses ta = (Return tt, ta') /\
    Tube.init delay losses = Return tb /\
    TubeAssembly.tubes ta' = TubeAssembly.tubes ta ++ [tb] /\
    TubeAssembly.radii ta' = TubeAssembly.radii ta ++ [radius] /\
    len (TubeAssembly.scats ta') = len (TubeAssembly.scats ta) + 1 /\
    Tube.delay tb = delay /\
    Tube.smpl_prop_mult tb = (1 - losses)%Qc.
Proof.
  intros (Hts & Hsr & _ & _) Hd Hl Hrad.
  destruct (tube_init_return delay losses Hd Hl) as (tb & Hinit & Hdel & Hs & _).
  rewrite append_tube_unfold, Hinit.
  set (ta1 := ta_push tb radius ta).
  assert (len (TubeAssembly.tubes ta1)
          = Z.of_nat (S (length (TubeAssembly.tubes ta)))) as Hlen.
  { unfold len; cbn. rewrite length_app; cbn. lia. }
  rewrite connect_tubes_neg by lia. rewrite Hlen.
  replace (Z.of_nat (S (length (TubeAssembly.tubes ta))) + -1)
    with (Z.of_nat (length (TubeAssembly.tubes ta))) by lia.
  assert (len (TubeAssembly.scats ta1) = len (TubeAssembly.scats ta) + 1) as Hls.
  { unfold len; cbn. rewrite length_app; cbn. lia. }
  destruct (length (TubeAssembly.tubes ta)) as [|i] eqn:HN.
  - rewrite connect_tubes_zero. exists tb, ta1. split_and!; auto.
  - assert (last (TubeAssembly.radii ta) = TubeAssembly.radii ta !! i) as Hlast.
    { rewrite last_lookup. f_equal. lia. }
    destruct (lookup_lt_is_Some_2 (TubeAssembly.radii ta) i) as [rl Hrl]; [lia|].
    destruct (Hrad rl) as [Hnl Hnr]; [congruence|].
    assert (TubeAssembly.radii ta1 !! i = Some rl) as Hrl1.
    { cbn. rewrite lookup_app_l by lia. exact Hrl. }
    assert (TubeAssembly.radii ta1 !! S i = Some radius) as Hrr1.
    { cbn. replace (S i) with (length (TubeAssembly.radii ta) + 0)%nat by lia.
      now rewrite lookup_app_r, Nat.add_comm, Nat.add_sub by lia. }
    destruct (connect_tubes_cases ta1 i rl radius Hrl1 Hrr1)
      as [(_ & _ & E) | ([Hz|Hz] & _)]; [|rewrite E|contradiction|contradiction].
    { cbn. rewrite length_app; cbn. lia. }
    eexists tb, _. split; [reflexivity|].
    cbn [TubeAssembly.set_scats TubeAssembly.tubes TubeAssembly.scats TubeAssembly.radii].
    split_and!; auto.
    rewrite len_insert. exact Hls.
Qed.





(** ** TubeAssembly: positions *)

Lemma total_delay_cons tb l : total_delay (tb :: l) = Tube.delay tb + total_delay l.
Proof. reflexivity. Qed.

Lemma cum_start_0 l : cum_start l 0 = 0.
Proof. reflexivity. Qed.

Lemma cum_start_S tb l k : cum_start (tb :: l) (S k) = Tube.delay tb + cum_start l k.
Proof. reflexivity. Qed.

Lemma cum_end_0 tb l : cum_end (tb :: l) 0 = Tube.delay tb.
Proof.
  unfold cum_end. change (take 1 (tb :: l)) with [tb].
  rewrite total_delay_cons. change (total_delay []) with 0. lia.
Qed.

Lemma cum_end_S tb l k : cum_end (tb :: l) (S k) = Tube.delay tb + cum_end l k.
Proof. reflexivity. Qed.

Lemma total_delay_nonneg l :
  Forall (fun tb => 0 <= Tube.delay tb) l -> 0 <= total_delay l.
Proof. induction 1; [cbn; lia | rewrite total_delay_cons; lia]. Qed.

Lemma Forall_pos_nonneg (l : list Tube.t) :
  Forall (fun tb => 0 < Tube.delay tb) l -> Forall (fun tb => 0 <= Tube.delay tb) l.
Proof. intros H. eapply Forall_impl; [exact H|]. intros tb Htb; cbn in *; lia. Qed.

Lemma cum_end_pos l k :
  Forall (fun tb => 0 < Tube.delay tb) l -> l <> [] -> 0 < cum_end l k.
Proof.
  intros Hl Hne. destruct l as [|tb l]; [congruence|].
  inversion Hl as [|? ? Htb Hl']; subst. unfold cum_end.
  change (take (S k) (tb :: l)) with (tb :: take k l). rewrite total_delay_cons.
  pose proof (total_delay_nonneg (take k l)
                (Forall_pos_nonneg _ (Forall_take _ k _ Hl'))). lia.
Qed.

(** The loop returns the first segment whose end reaches [index]. *)
Lemma get_tube_at_pos_from_first l : forall pos index,
  l <> [] -> index <= pos + total_delay l ->
  exists (k : nat) tb,
    l !! k = Some tb /\
    TubeAssembly.get_tube_at_pos_from pos l index
    = Some (tb, index - (pos + cum_start l k)) /\
    index <= pos + cum_end l k /\
    forall j : nat, (j < k)%nat -> pos + cum_end l j < index.
Proof.
  induction l as [|tb l IH]; intros pos index Hne Hle; [congruence|].
  cbn [TubeAssembly.get_tube_at_pos_from].
  rewrite total_delay_cons in Hle.
  destruct (Z.geb_spec (pos + Tube.delay tb) index) as [Hge|Hlt].
  - exists 0%nat, tb. rewrite cum_start_0, cum_end_0.
    split; [reflexivity|]. split; [do 2 f_equal; lia|]. split; [lia|].
    intros j Hj; lia.
  - assert (l <> []) as Hne'.
    { intros ->. cbn in Hle. lia. }
    destruct (IH (pos + Tube.delay tb) index Hne') as (k & tb' & Hk & Hget & Hend & Hmin);
      [lia|].
    exists (S k), tb'. rewrite cum_start_S, cum_end_S.
    split; [exact Hk|]. split; [|split].
    + rewrite Hget. do 2 f_equal. lia.
    + lia.
    + intros [|j] Hj.
      * rewrite cum_end_0. lia.
      * rewrite cum_end_S. specialize (Hmin j ltac:(lia)). lia.
Qed.

Lemma get_tube_at_pos_from_none l : forall pos index,
  Forall (fun tb => 0 <= Tube.delay tb) l ->
  pos + total_delay l < index ->
  TubeAssembly.get_tube_at_pos_from pos l index = None.
Proof.
  induction l as [|tb l IH]; intros pos index Hl Hlt; [reflexivity|].
  inversion Hl as [|? ? Htb Hl']; subst.
  pose proof (total_delay_nonneg l Hl') as Hn.
  cbn [TubeAssembly.get_tube_at_pos_from]. rewrite total_delay_cons in Hlt.
  destruct (Z.geb_spec (pos + Tube.delay tb) index) as [Hge|Hlt']; [lia|].
  apply IH; [assumption | lia].
Qed.

Lemma get_tube_at_pos_from_boundary l : forall pos (k : nat) tb,
  Forall (fun tb => 0 < Tube.delay tb) l ->
  l !! k = Some tb ->
  TubeAssembly.get_tube_at_pos_from pos l (pos + cum_end l k) = Some (tb, Tube.delay tb).
Proof.
  induction l as [|t0 l IH]; intros pos k tb Hl Hk; [discriminate|].
  inversion Hl as [|? ? Ht0 Hl']; subst.
  cbn [TubeAssembly.get_tube_at_pos_from].
  destruct k as [|k]; cbn in Hk.
  - injection Hk as ->. rewrite cum_end_0.
    destruct (Z.geb_spec (pos + Tube.delay tb) (pos + Tube.delay tb)); [|lia].
    do 2 f_equal. lia.
  - assert (l <> []) as Hne by (intros ->; discriminate).
    pose proof (cum_end_pos l k Hl' Hne) as Hpos.
    rewrite cum_end_S.
    destruct (Z.geb_spec (pos + Tube.delay t0) (pos + (Tube.delay t0 + cum_end l k))); [lia|].
    replace (pos + (Tube.delay t0 + cum_end l k))
      with ((pos + Tube.delay t0) + cum_end l k) by lia.
    now apply IH.
Qed.

(** C10. On an assembly with at least one segment and a global index
    between 0 and the total delay, [get_tube_at_pos] returns the first
    segment whose cumulative end position reaches the index, with the
    index minus that segment's cumulative start as local position.  An
    index on a segment boundary resolves to the segment on the left, at
    local position equal to its full delay.  An index beyond the total
    delay yields no segment, and [get_sum_at_pos] raises on it. *)
Theorem get_tube_at_pos_first (ta : TubeAssembly.t) (index : Z) :
  TubeAssembly.tubes ta <> [] ->
  Forall (fun tb => 0 < Tube.delay tb) (TubeAssembly.tubes ta) ->
  0 <= index ->
  (index <= total_delay (TubeAssembly.tubes ta) ->
   exists (k : nat) tb,
     TubeAssembly.tubes ta !! k = Some tb /\
     TubeAssembly.get_tube_at_pos index ta
     = Some (tb, index - cum_start (TubeAssembly.tubes ta) k) /\
     index <= cum_end (TubeAssembly.tubes ta) k /\
     forall j : nat, (j < k)%nat -> cum_end (TubeAssembly.tubes ta) j < index) /\
  (forall (k : nat) tb,
     TubeAssembly.tubes ta !! k = Some tb ->
     index = cum_end (TubeAssembly.tubes ta) k ->
     TubeAssembly.get_tube_at_pos index ta = Some (tb, Tube.delay tb)) /\
  (total_delay (TubeAssembly.tubes ta) < index ->
   TubeAssembly.get_tube_at_pos index ta = None /\
   TubeAssembly.get_sum_at_pos index ta = Raise TypeError).
Proof.
  intros Hne Hpos Hi. unfold TubeAssembly.get_sum_at_pos, TubeAssembly.get_tube_at_pos.
  split_and!.
  - intros Hle.
    destruct (get_tube_at_pos_from_first (TubeAssembly.tubes ta) 0 index Hne ltac:(lia))
      as (k & tb & Hk & Hget & Hend & Hmin).
    exists k, tb. split; [exact Hk|]. split; [|split].
    + rewrite Hget. now rewrite Z.add_0_l.
    + lia.
    + intros j Hj. specialize (Hmin j Hj). lia.
  - intros k tb Hk ->.
    apply (get_tube_at_pos_from_boundary (TubeAssembly.tubes ta) 0 k tb Hpos Hk).
  - intros Hgt.
    rewrite get_tube_at_pos_from_none; auto using Forall_pos_nonneg.
Qed.

Lemma get_tube_at_pos_first_witness :
  (exists tb, TubeAssembly.tubes two_tubes !! 0%nat = Some tb /\
              TubeAssembly.get_tube_at_pos 2 two_tubes = Some (tb, 2)) /\
  (exists tb, TubeAssembly.tubes two_tubes !! 1%nat = Some tb /\
              TubeAssembly.get_tube_at_pos 4 two_tubes = Some (tb, 4 - 2)) /\
  TubeAssembly.get_tube_at_pos 6 two_tubes = None /\
  TubeAssembly.get_sum_at_pos 6 two_tubes = Raise TypeError.
Proof.
  assert (TubeAssembly.tubes two_tubes <> []) as Hne by (vm_compute; discriminate).
  assert (Forall (fun tb => 0 < Tube.delay tb) (TubeAssembly.tubes two_tubes)) as Hpos
    by (vm_compute; repeat constructor).
  destruct (get_tube_at_pos_first two_tubes 2 Hne Hpos ltac:(lia)) as (_ & Hb & _).
  destruct (get_tube_at_pos_first two_tubes 4 Hne Hpos ltac:(lia)) as (Hf & _ & _).
  destruct (get_tube_at_pos_first two_tubes 6 Hne Hpos ltac:(lia)) as (_ & _ & Hn).
  split_and!.
  - eexists. split; [vm_compute; reflexivity|].
    apply (Hb 0%nat); vm_compute; reflexivity.
  - destruct (Hf ltac:(vm_compute; discriminate)) as (k & tb & Hk & Hget & Hend & Hmin).
    assert (k = 1%nat) as ->.
    { destruct k as [|[|k]]; [|reflexivity|].
      - assert (cum_end (TubeAssembly.tubes two_tubes) 0 = 2) as E
          by (vm_compute; reflexivity).
        rewrite E in Hend. lia.
      - specialize (Hmin 1%nat ltac:(lia)).
        assert (cum_end (TubeAssembly.tubes two_tubes) 1 = 5) as E
          by (vm_compute; reflexivity).
        rewrite E in Hmin. lia. }
    exists tb. split; [exact Hk|]. rewrite Hget. reflexivity.
  - apply Hn. vm_compute. reflexivity.
  - apply Hn. vm_compute. reflexivity.
Defined.


(** ** TubeAssembly: the per-sample update *)

Lemma read_delay_total dl k :
  dl_wf dl -> exists x, DelayLine.read_delay (Some k) dl = Return x.
Proof.
  intros Hwf.
  pose proof (Z.mod_pos_bound (DelayLine.ptr dl - k) (DelayLine.n_samp dl)
                ltac:(apply Hwf)) as Hb.
  destruct (wf_line_lookup dl _ Hwf Hb) as [x Hx].
  exists x. now apply read_delay_wf.
Qed.

Lemma read_outgoing_total tb :
  dl_wf (Tube.dlout tb) -> exists x, Tube.read_outgoing tb = Return x.
Proof.
  intros Hwf. unfold Tube.read_outgoing.
  destruct (read_delay_total (Tube.dlout tb) (DelayLine.delay (Tube.dlout tb) - 2) Hwf)
    as [x ->]. eexists; reflexivity.
Qed.

Lemma read_incoming_total tb :
  dl_wf (Tube.dlin tb) -> exists x, Tube.read_incoming tb = Return x.
Proof.
  intros Hwf. unfold Tube.read_incoming.
  destruct (read_delay_total (Tube.dlin tb) (DelayLine.delay (Tube.dlin tb) - 2) Hwf)
    as [x ->]. eexists; reflexivity.
Qed.

Lemma getitem_norm {A} (l : list A) (ii : Z) (i : nat) (a : A) :
  norm_index l ii = Z.of_nat i -> l !! i = Some a -> getitem l ii = Return a.
Proof.
  intros Hn Hl. unfold getitem. rewrite Hn.
  destruct (Z.ltb_spec (Z.of_nat i) 0); [lia|]. now rewrite Nat2Z.id, Hl.
Qed.

Lemma norm_index_nat {A} (l : list A) (i : nat) : norm_index l (Z.of_nat i) = Z.of_nat i.
Proof. unfold norm_index. destruct (Z.ltb_spec (Z.of_nat i) 0); [lia | reflexivity]. Qed.

Lemma norm_index_last {A} (l : list A) :
  l <> [] -> norm_index l (-1) = Z.of_nat (pred (length l)).
Proof.
  intros Hne. unfold norm_index, len. cbn.
  destruct l; [congruence|]. cbn [length pred]. lia.
Qed.

Lemma norm_index_insert {A} (l : list A) (j : nat) (a : A) (ii : Z) :
  norm_index (<[j := a]> l) ii = norm_index l ii.
Proof. unfold norm_index. now rewrite len_insert. Qed.

Lemma read_tube_ok {A} ta ii (i : nat) tb (f : Tube.t -> outcome A) x :
  norm_index (TubeAssembly.tubes ta) ii = Z.of_nat i ->
  TubeAssembly.tubes ta !! i = Some tb ->
  f tb = Return x ->
  TubeAssembly.read_tube ii f ta = (Return x, ta).
Proof.
  intros Hn Hl Hf. unfold TubeAssembly.read_tube, reading.
  rewrite (getitem_norm _ _ i tb) by assumption. py_unfold. now rewrite Hf.
Qed.

Lemma on_tube_ok {A} ta ii (i : nat) tb (m : Py Tube.t A) o tb' :
  norm_index (TubeAssembly.tubes ta) ii = Z.of_nat i ->
  TubeAssembly.tubes ta !! i = Some tb ->
  m tb = (o, tb') ->
  TubeAssembly.on_tube ii m ta
  = (o, TubeAssembly.set_tubes (<[i := tb']> (TubeAssembly.tubes ta)) ta).
Proof.
  intros Hn Hl Hm. unfold TubeAssembly.on_tube.
  rewrite (getitem_norm _ _ i tb) by assumption. now rewrite Hm, Hn, Nat2Z.id.
Qed.

(** The two inserts that end a tick of tube [i]. *)
Lemma on_tube_tick {A} ta ii (i : nat) tb plin prev (k : Py TubeAssembly.t A) :
  norm_index (TubeAssembly.tubes ta) ii = Z.of_nat i ->
  TubeAssembly.tubes ta !! i = Some tb ->
  dl_wf (Tube.dlin tb) -> dl_wf (Tube.dlout tb) ->
  (TubeAssembly.on_tube ii (Tube.insert_incoming_sample plin);;
   TubeAssembly.on_tube ii (Tube.insert_outgoing_sample prev);;
   k) ta
  = k (TubeAssembly.set_tubes (<[i := tube_tick plin prev tb]> (TubeAssembly.tubes ta)) ta).
Proof.
  intros Hn Hl Hwi Hwo. py_unfold.
  rewrite (on_tube_ok ta ii i tb _ _ _ Hn Hl (insert_incoming_wf plin tb Hwi)).
  set (tb1 := Tube.set_dlin (dl_insert plin (Tube.dlin tb)) tb).
  set (ta1 := TubeAssembly.set_tubes (<[i := tb1]> (TubeAssembly.tubes ta)) ta).
  assert (TubeAssembly.tubes ta1 !! i = Some tb1) as Hl1.
  { cbn. apply list_lookup_insert_eq. now apply lookup_lt_Some in Hl. }
  assert (norm_index (TubeAssembly.tubes ta1) ii = Z.of_nat i) as Hn1.
  { cbn. now rewrite norm_index_insert. }
  rewrite (on_tube_ok ta1 ii i tb1 _ _ _ Hn1 Hl1 (insert_outgoing_wf prev tb1 Hwo)).
  f_equal. unfold ta1, TubeAssembly.set_tubes; cbn.
  now rewrite list_insert_insert_eq.
Qed.

Lemma tube_tick_wf plin prev tb :
  dl_wf (Tube.dlin tb) /\ dl_wf (Tube.dlout tb) ->
  dl_wf (Tube.dlin (tube_tick plin prev tb)) /\ dl_wf (Tube.dlout (tube_tick plin prev tb)).
Proof. intros [Hi Ho]. unfold tube_tick; cbn. split; now apply dl_insert_wf. Qed.

Lemma ta_ready_tick ta (i : nat) tb plin prev :
  ta_ready ta -> TubeAssembly.tubes ta !! i = Some tb ->
  ta_ready (TubeAssembly.set_tubes
              (<[i := tube_tick plin prev tb]> (TubeAssembly.tubes ta)) ta).
Proof.
  intros (Hne & Hlen & Hlast & Hall) Hl. unfold ta_ready; cbn.
  rewrite length_insert. split_and!; auto.
  - intros E. apply (f_equal length) in E. rewrite length_insert in E.
    destruct (TubeAssembly.tubes ta); [congruence | discriminate].
  - apply Forall_insert; [assumption|].
    apply tube_tick_wf. apply (Forall_lookup_1 _ _ _ _ Hall Hl).
Qed.

Lemma bind_run {S A B} (m : Py S A) (f : A -> Py S B) s a s' :
  m s = (Return a, s') -> (m ≫= f) s = f a s'.
Proof. intros H. unfold mbind, py_mbind, py_bind. now rewrite H. Qed.

Lemma scatter_ok ta ii (i : nat) m plout prin :
  norm_index (TubeAssembly.scats ta) ii = Z.of_nat i ->
  TubeAssembly.scats ta !! i = Some m ->
  TubeAssembly.scatter ii plout prin ta
  = Return ((prin * m01 m + plout * m00 m)%Qc, (prin * m11 m + plout * m10 m)%Qc).
Proof.
  intros Hn Hl. unfold TubeAssembly.scatter.
  now rewrite (getitem_norm _ _ i m).
Qed.

(** One round of the loop on tube [i], which has a right neighbour. *)
Lemma propagate_ok ta (i : nat) prev :
  ta_ready ta -> (S i < length (TubeAssembly.tubes ta))%nat ->
  exists prout ta',
    TubeAssembly.propagate (Z.of_nat i) prev ta = (Return prout, ta') /\
    ta_ready ta' /\
    length (TubeAssembly.tubes ta') = length (TubeAssembly.tubes ta) /\
    TubeAssembly.scats ta' = TubeAssembly.scats ta.
Proof.
  intros Hready Hi. pose proof Hready as (Hne & Hlen & Hlast & Hall).
  destruct (lookup_lt_is_Some_2 (TubeAssembly.tubes ta) i) as [tb Htb]; [lia|].
  destruct (lookup_lt_is_Some_2 (TubeAssembly.tubes ta) (S i)) as [tb' Htb']; [lia|].
  destruct (lookup_lt_is_Some_2 (TubeAssembly.scats ta) i) as [m Hm]; [lia|].
  destruct (Forall_lookup_1 _ _ _ _ Hall Htb) as [Hwi Hwo].
  destruct (Forall_lookup_1 _ _ _ _ Hall Htb') as [Hwi' Hwo'].
  destruct (read_outgoing_total tb Hwo) as [plout Hplout].
  destruct (read_incoming_total tb' Hwi') as [prin Hprin].
  unfold TubeAssembly.propagate.
  erewrite bind_run
    by (eapply (read_tube_ok ta _ i); eauto using norm_index_nat).
  replace (Z.of_nat i + 1) with (Z.of_nat (S i)) by lia.
  erewrite bind_run
    by (eapply (read_tube_ok ta _ (S i)); eauto using norm_index_nat).
  erewrite bind_run
    by (unfold reading; erewrite (scatter_ok ta _ i); eauto using norm_index_nat).
  cbn beta iota.
  rewrite (on_tube_tick ta (Z.of_nat i) i tb) by auto using norm_index_nat.
  eexists _, _. split; [reflexivity|]. split; [now apply ta_ready_tick|].
  cbn. now rewrite length_insert.
Qed.

Lemma for_each_propagate (l : list Z) : forall ta prev,
  ta_ready ta ->
  Forall (fun ii => exists i : nat, ii = Z.of_nat i /\
                      (S i < length (TubeAssembly.tubes ta))%nat) l ->
  exists prev' ta',
    for_each TubeAssembly.propagate l prev ta = (Return prev', ta') /\
    ta_ready ta' /\
    length (TubeAssembly.tubes ta') = length (TubeAssembly.tubes ta) /\
    TubeAssembly.scats ta' = TubeAssembly.scats ta.
Proof.
  induction l as [|ii l IH]; intros ta prev Hready Hl.
  - exists prev, ta. cbn. auto.
  - inversion Hl as [|? ? (i & -> & Hi) Hl']; subst.
    destruct (propagate_ok ta i prev Hready Hi) as (prout & ta1 & E1 & Hr1 & Hlen1 & Hs1).
    destruct (IH ta1 prout Hr1) as (prev' & ta' & E & Hr & Hlen & Hs).
    { rewrite Hlen1. exact Hl'. }
    exists prev', ta'. cbn [for_each]. rewrite (bind_run _ _ _ _ _ E1).
    split; [exact E|]. split; [exact Hr|]. split; congruence.
Qed.

Lemma inner_indices (l : list Tube.t) :
  Forall (fun ii => exists i : nat, ii = Z.of_nat i /\ (S i < length l)%nat)
         (np_arange (len (slice_to l (-1)))).
Proof.
  unfold np_arange. apply Forall_fmap, Forall_forall. intros i Hi.
  apply elem_of_seq in Hi. exists i. split; [reflexivity|].
  destruct Hi as [_ Hi]. cbn [Nat.add] in Hi.
  unfold slice_to, len in Hi. cbn in Hi.
  rewrite length_take in Hi. lia.
Qed.

(** [insert_values] on a ready assembly returns [ret_val], whatever
    the tubes hold, and leaves a ready assembly. *)
Lemma insert_values_ok ta val ret_val :
  ta_ready ta ->
  exists ta',
    TubeAssembly.insert_values val ret_val ta = (Return ret_val, ta') /\
    ta_ready ta'.
Proof.
  intros Hready. unfold TubeAssembly.insert_values.
  erewrite bind_run by reflexivity.
  destruct (for_each_propagate _ ta val Hready (inner_indices (TubeAssembly.tubes ta)))
    as (prev & ta1 & E & Hr1 & Hlen1 & Hs1).
  rewrite (bind_run _ _ _ _ _ E).
  destruct Hr1 as (Hne & Hlen & Hlast & Hall).
  assert (TubeAssembly.tubes ta1 !! pred (length (TubeAssembly.tubes ta1)) <> None) as Hsome.
  { rewrite lookup_ge_None. destruct (TubeAssembly.tubes ta1); [congruence|]. cbn. lia. }
  destruct (TubeAssembly.tubes ta1 !! pred (length (TubeAssembly.tubes ta1)))
    as [tb|] eqn:Htb; [clear Hsome | congruence].
  destruct (Forall_lookup_1 _ _ _ _ Hall Htb) as [Hwi Hwo].
  destruct (read_outgoing_total tb Hwo) as [plout Hplout].
  erewrite bind_run
    by (eapply (read_tube_ok ta1 _ _ tb); eauto using norm_index_last).
  erewrite bind_run by reflexivity.
  assert (TubeAssembly.scats ta1 <> []) as Hsne.
  { intros E'. rewrite E' in Hlen. destruct (TubeAssembly.tubes ta1); [congruence | discriminate]. }
  erewrite bind_run.
  2:{ unfold reading. erewrite (scatter_ok ta1 _ (pred (length (TubeAssembly.scats ta1)))).
      - reflexivity.
      - unfold norm_index, len. destruct (TubeAssembly.scats ta1); [congruence|].
        cbn [length pred]. destruct (Z.ltb_spec (Z.of_nat (S (length l)) - 1) 0); lia.
      - rewrite <- last_lookup. exact Hlast. }
  cbn beta iota.
  rewrite (on_tube_tick ta1 (-1) _ tb) by auto using norm_index_last.
  eexists. split.
  - unfold mret, py_ret. f_equal. f_equal. cbn. ring.
  - apply ta_ready_tick; [|assumption]. unfold ta_ready; auto.
Qed.

Lemma build_from_ready (segs : list segment) : forall ta,
  ta_inv ta ->
  Forall (fun r => r <> 0%Qc) (TubeAssembly.radii ta) ->
  Forall (fun tb => dl_wf (Tube.dlin tb) /\ dl_wf (Tube.dlout tb)) (TubeAssembly.tubes ta) ->
  Forall (fun s => 1 <= seg_delay s /\ seg_radius s <> 0%Qc) segs ->
  exists ta',
    for_each (fun s _ =>
                TubeAssembly.append_tube (seg_delay s) (seg_radius s) (seg_losses s))
             segs tt ta = (Return tt, ta') /\
    ta_inv ta' /\
    Forall (fun tb => dl_wf (Tube.dlin tb) /\ dl_wf (Tube.dlout tb)) (TubeAssembly.tubes ta') /\
    length (TubeAssembly.tubes ta') = (length (TubeAssembly.tubes ta) + length segs)%nat.
Proof.
  induction segs as [|s segs IH]; intros ta Hinv Hrad Hwf Hsegs.
  - exists ta. cbn. split_and!; auto.
  - inversion Hsegs as [|? ? [Hd Hr] Hsegs']; subst.
    destruct (append_tube_ok ta (seg_delay s) (seg_radius s) (seg_losses s) Hinv
                ltac:(lia) ltac:(left; lia))
      as (tb & ta1 & E & Hinit & Htubes & Hradii & _).
    { intros rl Hlast. split; [|assumption].
      rewrite last_lookup in Hlast. apply (Forall_lookup_1 _ _ _ _ Hrad Hlast). }
    destruct (tube_init_wf (seg_delay s) (seg_losses s) ltac:(lia) ltac:(left; lia))
      as (tb0 & Hinit0 & Hwf0 & _).
    rewrite Hinit in Hinit0. injection Hinit0 as <-.
    destruct (IH ta1) as (ta' & E' & Hinv' & Hwf' & Hlen').
    + eapply append_tube_inv; eauto.
    + rewrite Hradii. apply Forall_app. split; [assumption|]. now constructor.
    + rewrite Htubes. apply Forall_app. split; [assumption|].
      constructor; [|constructor]. split; apply Hwf0.
    + assumption.
    + exists ta'. cbn [for_each]. rewrite (bind_run _ _ _ _ _ E).
      split_and!; auto.
      rewrite Hlen', Htubes, length_app; cbn. lia.
Qed.

Lemma build_ready (segs : list segment) :
  segs <> [] ->
  Forall (fun s => 1 <= seg_delay s /\ seg_radius s <> 0%Qc) segs ->
  exists ta, build segs = (Return tt, ta) /\ ta_ready ta.
Proof.
  intros Hne Hsegs.
  destruct (build_from_ready segs TubeAssembly.init ta_inv_init)
    as (ta & E & (Hts & Hsr & Hlast & _) & Hwf & Hlen); auto; try (cbn; constructor).
  exists ta. split; [exact E|].
  assert (TubeAssembly.tubes ta <> []) as Htne.
  { intros E'. rewrite E' in Hlen. cbn in Hlen. destruct segs; [congruence | discriminate]. }
  unfold ta_ready. split_and!; auto.
  destruct Hlast as [E'|E']; [|exact E'].
  rewrite E' in Hts. destruct (TubeAssembly.tubes ta); [congruence | discriminate].
Qed.

Lemma run_ok (vals : list Qc) ret_val : forall ta,
  ta_ready ta ->
  exists ta', run vals ret_val ta = (Return (replicate (length vals) ret_val), ta') /\
              ta_ready ta'.
Proof.
  induction vals as [|v vals IH]; intros ta Hready.
  - exists ta. cbn. auto.
  - destruct (insert_values_ok ta v ret_val Hready) as (ta1 & E1 & Hr1).
    destruct (IH ta1 Hr1) as (ta' & E & Hr).
    exists ta'. cbn [run]. rewrite (bind_run _ _ _ _ _ E1), (bind_run _ _ _ _ _ E).
    auto.
Qed.

Lemma length_impulse v ticks : length (impulse v ticks) = ticks.
Proof. destruct ticks; cbn; [reflexivity|]. now rewrite length_replicate. Qed.

(** C2, as the code has it. On an assembly built with loss rate 0 and
    one non-zero radius for all segments, a unit impulse followed by
    zeros, fed through [insert_values] with [ret_val = 0], never shows
    in the returned scalar: every call returns 0.  The terminal
    junction is the open-end matrix, whose transmission entry is 0, so
    the returned value is [ret_val] itself. *)
Theorem impulse_never_exits (segs : list segment) (radius : Qc) (ticks : nat) :
  segs <> [] ->
  radius <> 0%Qc ->
  Forall (fun s => 1 <= seg_delay s /\ seg_radius s = radius /\ seg_losses s = 0%Qc) segs ->
  exists ta ta',
    build segs = (Return tt, ta) /\
    run (impulse 1%Qc ticks) 0%Qc ta = (Return (replicate ticks 0%Qc), ta').
Proof.
  intros Hne Hr Hsegs.
  destruct (build_ready segs Hne) as (ta & E & Hready).
  { eapply Forall_impl; [exact Hsegs|]. intros s (Hd & -> & _). auto. }
  destruct (run_ok (impulse 1%Qc ticks) 0%Qc ta Hready) as (ta' & E' & _).
  rewrite length_impulse in E'. eauto.
Qed.

Lemma impulse_never_exits_witness :
  exists ta ta',
    build matched_tubes = (Return tt, ta) /\
    run (impulse 1%Qc 12) 0%Qc ta = (Return (replicate 12 0%Qc), ta').
Proof.
  apply (impulse_never_exits matched_tubes 1%Qc 12).
  - discriminate.
  - discriminate.
  - repeat constructor; cbn; lia.
Defined.

(** C2 fails as stated: two lossless tubes of equal radius and total
    delay 5 return 0 on each of the first 12 ticks after a unit
    impulse; no returned value has unit magnitude, at tick 5 or at any
    other. *)
Lemma lossless_impulse_counterexample :
  fst (build matched_tubes) = Return tt /\
  total_delay (TubeAssembly.tubes (snd (build matched_tubes))) = 5 /\
  fst (run (impulse 1%Qc 12) 0%Qc (snd (build matched_tubes)))
  = Return (replicate 12 0%Qc).
Proof.
  split_and!; [vm_compute; reflexivity | vm_compute; reflexivity | qc_eval].
Qed.

(** ** A single lossless tube *)

Lemma build_single d radius losses tb :
  Tube.init d losses = Return tb ->
  build [Segment d radius losses] = (Return tt, single tb radius).
Proof.
  intros Hinit. unfold build. cbn [for_each seg_delay seg_radius seg_losses].
  erewrite bind_run; [reflexivity|].
  rewrite append_tube_unfold, Hinit. reflexivity.
Qed.

Lemma Qcpower_1 n : Qcpower 1 n = 1%Qc.
Proof. induction n as [|n IH]; cbn; [reflexivity|]. rewrite IH. ring. Qed.

Lemma insert_values_single tb radius val ret_val plout :
  dl_wf (Tube.dlin tb) -> dl_wf (Tube.dlout tb) ->
  Tube.read_outgoing tb = Return plout ->
  TubeAssembly.insert_values val ret_val (single tb radius)
  = (Return (ret_val * 1 + plout * 0)%Qc,
     single (tube_tick (ret_val * 0 + plout * - 1)%Qc val tb) radius).
Proof.
  intros Hwi Hwo Hread. unfold TubeAssembly.insert_values.
  erewrite bind_run by reflexivity.
  change (np_arange (len (slice_to (TubeAssembly.tubes (single tb radius)) (-1))))
    with (@nil Z).
  cbn [for_each]. erewrite bind_run by reflexivity.
  erewrite bind_run
    by (eapply (read_tube_ok (single tb radius) (-1) 0 tb); eauto).
  erewrite bind_run by reflexivity.
  erewrite bind_run by reflexivity.
  cbn beta iota.
  rewrite (on_tube_tick (single tb radius) (-1) 0 tb) by auto.
  reflexivity.
Qed.

Lemma echo_init d tb :
  -5 < d -> 0 <= d -> Tube.init d 0%Qc = Return tb -> echo_inv d tb [] [].
Proof.
  intros Hd Hd0 Hinit.
  destruct (tube_init_wf d 0%Qc Hd ltac:(auto)) as (tb0 & E & Hwf & Hi & Ho & Hs & Hp).
  rewrite E in Hinit. injection Hinit as <-.
  assert ((1 - 0)%Qc = 1%Qc) as E1 by ring. rewrite E1 in *.
  rewrite py_pow_nonneg in Hp by assumption. injection Hp as Hp.
  unfold pow_pos in Hp. rewrite Qcpower_1 in Hp.
  unfold echo_inv. split_and!; auto.
  intros k Hk. unfold past.
  destruct (Z.to_nat k), (Z.to_nat (k + d - 1)); cbn; ring.
Qed.

Lemma tube_tick_tube_wf d plin prev tb :
  tube_wf d tb -> tube_wf d (tube_tick plin prev tb).
Proof. intros Hwf. unfold tube_tick. now apply set_dlout_wf, set_dlin_wf. Qed.

Lemma echo_step d tb radius h_in h_out val :
  2 <= d -> echo_inv d tb h_in h_out ->
  exists tb' plin,
    TubeAssembly.insert_values val 0%Qc (single tb radius)
    = (Return 0%Qc, single tb' radius) /\
    echo_inv d tb' (plin :: h_in) (val :: h_out).
Proof.
  intros Hd (Hwf & Hi & Ho & Hp & Hs & Hrel).
  pose proof Hwf as (Hdel & Hwi & Hwo & Hdi & Hdo & Hni & Hno).
  assert (Tube.read_outgoing tb = Return (past h_out (d - 2) * 1)%Qc) as Hread.
  { unfold Tube.read_outgoing. rewrite Hdo, Hp.
    rewrite (read_delay_hist _ h_out) by (auto; lia). reflexivity. }
  rewrite (insert_values_single tb radius val 0%Qc _ Hwi Hwo Hread).
  eexists _, _. split.
  - f_equal. f_equal. ring.
  - unfold echo_inv. split; [now apply tube_tick_tube_wf|].
    unfold tube_tick; cbn [Tube.dlin Tube.dlout Tube.set_dlin Tube.set_dlout
                             Tube.prop_mult Tube.smpl_prop_mult].
    split_and!; auto.
    + now apply dl_hist_insert.
    + now apply dl_hist_insert.
    + intros k Hk. rewrite (past_cons val) by lia.
      destruct (Z.eq_dec k 0) as [->|Hk0].
      * unfold past at 1. change (Z.to_nat 0) with 0%nat. cbn [nth].
        replace (0 + d - 1 - 1) with (d - 2) by lia. ring.
      * rewrite past_cons by lia. rewrite Hrel by lia. do 2 f_equal. lia.
Qed.

Lemma echo_run d radius (vals : list Qc) : forall tb h_in h_out,
  2 <= d -> echo_inv d tb h_in h_out ->
  exists tb' h_in',
    run vals 0%Qc (single tb radius)
    = (Return (replicate (length vals) 0%Qc), single tb' radius) /\
    echo_inv d tb' h_in' (reverse vals ++ h_out).
Proof.
  induction vals as [|v vals IH]; intros tb h_in h_out Hd Hinv.
  - exists tb, h_in. cbn. auto.
  - destruct (echo_step d tb radius h_in h_out v Hd Hinv) as (tb1 & plin & E1 & Hinv1).
    destruct (IH tb1 (plin :: h_in) (v :: h_out) Hd Hinv1) as (tb' & h_in' & E & Hinv').
    exists tb', h_in'. cbn [run]. rewrite (bind_run _ _ _ _ _ E1), (bind_run _ _ _ _ _ E).
    split; [reflexivity|]. now rewrite reverse_cons, <- app_assoc.
Qed.

Lemma echo_reading d tb radius h_in h_out :
  2 <= d -> echo_inv d tb h_in h_out ->
  TubeAssembly.get_incoming_pressure_at_start (single tb radius)
  = Return (- past h_out (2 * d - 1))%Qc.
Proof.
  intros Hd (Hwf & Hi & Ho & Hp & Hs & Hrel).
  destruct Hwf as (Hdel & Hwi & Hwo & Hdi & Hdo & Hni & Hno).
  unfold TubeAssembly.get_incoming_pressure_at_start. cbn [single TubeAssembly.tubes].
  change (getitem [tb] 0) with (Return tb). cbn [mbind outcome_mbind outcome_bind].
  unfold Tube.read_incoming_at_pos. rewrite Hdel, Hs, Z.sub_0_r.
  rewrite (read_delay_hist _ h_in) by (auto; lia).
  rewrite py_pow_nonneg by lia. cbn [mbind outcome_mbind outcome_bind mret outcome_ret].
  unfold pow_pos. rewrite Qcpower_1, Hrel by lia.
  f_equal. replace (d + d - 1) with (2 * d - 1) by lia. ring.
Qed.

Lemma nth_replicate_same {A} (x : A) n k : nth k (replicate n x) x = x.
Proof. revert k. induction n as [|n IH]; intros [|k]; cbn; auto. Qed.

Lemma past_impulse v (ticks : nat) k :
  0 <= k ->
  past (reverse (impulse v ticks)) k = if decide (Z.of_nat ticks = k + 1) then v else 0%Qc.
Proof.
  intros Hk. unfold past. destruct ticks as [|n]; cbn [impulse].
  - destruct (decide (Z.of_nat 0 = k + 1)); [lia|]. now destruct (Z.to_nat k).
  - rewrite reverse_cons.
    destruct (decide (Z.of_nat (S n) = k + 1)) as [E|E].
    + rewrite app_nth2 by (rewrite length_reverse, length_replicate; lia).
      rewrite length_reverse, length_replicate.
      replace (Z.to_nat k - n)%nat with 0%nat by lia. reflexivity.
    + destruct (Nat.lt_ge_cases (Z.to_nat k) n) as [Hlt|Hge].
      * rewrite app_nth1 by (rewrite length_reverse, length_replicate; lia).
        rewrite reverse_replicate. apply nth_replicate_same.
      * rewrite nth_overflow; [reflexivity|].
        rewrite length_app, length_reverse, length_replicate. cbn. lia.
Qed.

(** The round trip of a single lossless tube of delay 2 or more: after
    [ticks] calls of [insert_values] - the impulse [v], then zeros -
    the incoming pressure at the start is [-v] when [ticks = 2 * delay]
    and 0 on every other tick, whatever the radius. *)
Lemma single_tube_round_trip (delay : Z) (radius v : Qc) (ticks : nat) :
  2 <= delay ->
  single_tube_reading delay radius v ticks
  = Return (if decide (Z.of_nat ticks = 2 * delay) then (- v)%Qc else 0%Qc).
Proof.
  intros Hd.
  destruct (tube_init_wf delay 0%Qc ltac:(lia) ltac:(left; lia)) as (tb & Hinit & _).
  pose proof (echo_init delay tb ltac:(lia) ltac:(lia) Hinit) as Hinv.
  destruct (echo_run delay radius (impulse v ticks) tb [] [] Hd Hinv)
    as (tb' & h_in' & Hrun & Hinv').
  unfold single_tube_reading.
  rewrite (build_single delay radius 0%Qc tb Hinit), Hrun.
  rewrite (echo_reading delay tb' radius h_in' _ Hd Hinv').
  rewrite app_nil_r, past_impulse by lia. f_equal.
  destruct (decide (Z.of_nat ticks = 2 * delay - 1 + 1)),
           (decide (Z.of_nat ticks = 2 * delay)); try lia; [reflexivity | ring].
Qed.

Lemma single_tube_round_trip_witness :
  single_tube_reading 3 1%Qc (qc 9 10) 6
  = Return (if decide (Z.of_nat 6 = 2 * 3) then (- qc 9 10)%Qc else 0%Qc).
Proof. apply (single_tube_round_trip 3 1%Qc (qc 9 10) 6). lia. Defined.

(** The scenario of [test_single_tube_delay]: delay 3 and value 0.9
    read 0 on the first five ticks and -0.9 on the sixth. *)
Example test_single_tube_delay :
  (fun ticks => single_tube_reading 3 1%Qc (qc 9 10) ticks) <$> seq 1 6
  = [Return 0%Qc; Return 0%Qc; Return 0%Qc; Return 0%Qc; Return 0%Qc;
     Return (- qc 9 10)%Qc].
Proof. cbn [fmap list_fmap seq]. now rewrite !single_tube_round_trip by lia. Qed.

(** C1 fails on the code for a tube of delay 1, the default of
    [append_tube].  The exit read at offset [delay - 2 = -1] wraps
    around the 6-slot line to the sample inserted 5 ticks earlier, so
    the impulse 0.9 is not back after [2 * delay = 2] ticks, where the
    start still reads 0: it arrives, inverted, on tick 8. *)
Theorem single_tube_delay_one :
  single_tube_reading 1 1%Qc (qc 9 10) 2 = Return 0%Qc /\
  single_tube_reading 1 1%Qc (qc 9 10) 8 = Return (- qc 9 10)%Qc /\
  (fun ticks => single_tube_reading 1 1%Qc (qc 9 10) ticks) <$> seq 1 7
  = replicate 7 (Return 0%Qc).
Proof. split_and!; qc_eval. Qed.

(** * Further properties of the code *)

(** ** DelayLine: default read, counters, capacity edge cases *)

Lemma next_ptr_mod dl :
  dl_wf dl -> next_ptr dl = (DelayLine.ptr dl + 1) mod DelayLine.n_samp dl.
Proof.
  intros (Hn & Hl & Hp). unfold next_ptr. rewrite Hl.
  destruct (Z.ltb_spec (DelayLine.n_samp dl - 1) (DelayLine.ptr dl + 1)).
  - replace (DelayLine.ptr dl + 1) with (DelayLine.n_samp dl) by lia.
    now rewrite Z.mod_same by lia.
  - now rewrite Z.mod_small by lia.
Qed.

Lemma insert_samples_counters samples : forall dl,
  dl_wf dl ->
  exists dl', insert_samples samples dl = (Return tt, dl') /\ dl_wf dl' /\
    DelayLine.nticks dl' = DelayLine.nticks dl + len samples /\
    DelayLine.ptr dl' = (DelayLine.ptr dl + len samples) mod DelayLine.n_samp dl /\
    DelayLine.n_samp dl' = DelayLine.n_samp dl /\
    DelayLine.delay dl' = DelayLine.delay dl.
Proof.
  induction samples as [|s samples IH]; intros dl Hwf.
  - exists dl. cbn. split_and!; auto; unfold len; cbn; try lia.
    rewrite Z.add_0_r, Z.mod_small; [reflexivity | apply Hwf].
  - destruct (IH (dl_insert s dl) (dl_insert_wf s dl Hwf))
      as (dl' & Hrun & Hwf' & Hnt & Hptr & Hn & Hd).
    exists dl'. split_and!; auto.
    + unfold insert_samples in *. cbn [for_each].
      unfold mbind at 1, py_mbind, py_bind.
      rewrite insert_sample_wf by assumption. exact Hrun.
    + rewrite Hnt. unfold len; cbn [length dl_insert DelayLine.nticks]. lia.
    + rewrite Hptr. cbn [dl_insert DelayLine.ptr DelayLine.n_samp].
      rewrite next_ptr_mod by assumption. rewrite Zplus_mod_idemp_l.
      f_equal. unfold len; cbn [length]. lia.
Qed.

(** X1. The default read.  A line built with at least one sample of
    headroom and fed [samples] returns, on [read_delay()] without
    argument, the sample inserted [delay] ticks before the latest one,
    and the initial zero while no more than [delay] samples were
    inserted (the scenario of [test_delay_is_right]). *)
Theorem read_delay_default (delay extra : Z) (samples : list Qc) :
  0 <= delay -> 1 <= extra ->
  exists dl0 dl,
    DelayLine.init delay extra = Return dl0 /\
    insert_samples samples dl0 = (Return tt, dl) /\
    (forall s, reverse samples !! Z.to_nat delay = Some s ->
       DelayLine.read_delay None dl = Return s) /\
    (len samples <= delay -> DelayLine.read_delay None dl = Return 0%Qc).
Proof.
  intros Hd He.
  destruct (init_wf delay extra ltac:(lia)) as (dl0 & Hinit & Hwf0 & Hh0 & Hd0 & Hn0).
  destruct (insert_samples_hist samples dl0 [] Hwf0 Hh0)
    as (dl & Hrun & Hwf & Hh & Hdd & Hns).
  rewrite app_nil_r in Hh.
  assert (DelayLine.read_delay None dl = Return (past (reverse samples) delay)) as Hread.
  { change (DelayLine.read_delay None dl)
      with (DelayLine.read_delay (Some (DelayLine.delay dl)) dl).
    rewrite Hdd, Hd0. apply read_delay_hist; auto. lia. }
  exists dl0, dl. split_and!; auto.
  - intros s Hs. rewrite Hread. f_equal. unfold past.
    now apply nth_lookup_Some with (d := 0%Qc) in Hs.
  - intros Hlen. rewrite Hread. f_equal. unfold past.
    apply nth_overflow. rewrite length_reverse. unfold len in Hlen. lia.
Qed.

Lemma read_delay_default_witness :
  0 <= 3 /\ 1 <= 1 /\
  exists dl0 dl,
    DelayLine.init 3 1 = Return dl0 /\
    insert_samples [qc 1 1; qc 2 1; qc 3 1; qc 4 1; qc 5 1] dl0 = (Return tt, dl) /\
    (forall s, reverse [qc 1 1; qc 2 1; qc 3 1; qc 4 1; qc 5 1] !! Z.to_nat 3 = Some s ->
       DelayLine.read_delay None dl = Return s) /\
    (len [qc 1 1; qc 2 1; qc 3 1; qc 4 1; qc 5 1] <= 3 ->
     DelayLine.read_delay None dl = Return 0%Qc).
Proof.
  split; [lia|]. split; [lia|].
  apply (read_delay_default 3 1 [qc 1 1; qc 2 1; qc 3 1; qc 4 1; qc 5 1]); lia.
Defined.

(** X2. Without headroom the default read wraps.  On a line built with
    [extra = 0] the default offset [delay] is the capacity itself, so
    [read_delay()] returns the slot under the pointer: the latest
    sample, not the one inserted [delay] ticks earlier. *)
Theorem read_delay_default_no_headroom (delay : Z) (samples : list Qc) (s : Qc) :
  0 < delay ->
  exists dl0 dl,
    DelayLine.init delay 0 = Return dl0 /\
    insert_samples (samples ++ [s]) dl0 = (Return tt, dl) /\
    DelayLine.read_delay None dl = Return s.
Proof.
  intros Hd.
  destruct (init_wf delay 0 ltac:(lia)) as (dl0 & Hinit & Hwf0 & Hh0 & Hd0 & Hn0).
  destruct (insert_samples_hist (samples ++ [s]) dl0 [] Hwf0 Hh0)
    as (dl & Hrun & Hwf & Hh & Hdd & Hns).
  rewrite app_nil_r, reverse_snoc in Hh.
  exists dl0, dl. split_and!; auto.
  change (DelayLine.read_delay None dl)
    with (DelayLine.read_delay (Some (DelayLine.delay dl)) dl).
  apply read_delay_wf; [assumption|].
  specialize (Hh 0 ltac:(lia)). rewrite Z.sub_0_r in Hh.
  replace (DelayLine.ptr dl - DelayLine.delay dl)
    with (DelayLine.ptr dl + (-1) * DelayLine.n_samp dl) by lia.
  rewrite Z.mod_add by lia. exact Hh.
Qed.

Lemma read_delay_default_no_headroom_witness :
  0 < 3 /\
  exists dl0 dl,
    DelayLine.init 3 0 = Return dl0 /\
    insert_samples ([qc 1 1; qc 2 1; qc 3 1; qc 4 1] ++ [qc 5 1]) dl0 = (Return tt, dl) /\
    DelayLine.read_delay None dl = Return (qc 5 1).
Proof.
  split; [lia|].
  apply (read_delay_default_no_headroom 3 [qc 1 1; qc 2 1; qc 3 1; qc 4 1] (qc 5 1)). lia.
Defined.

(** X3. The counters.  After [m] samples on a line of positive capacity,
    [nticks] is [m], the pointer is [m mod n_samp], the backing array
    still has [n_samp] slots, and indexing the line at the pointer
    gives the latest sample. *)
Theorem insert_samples_state (delay extra : Z) (samples : list Qc) :
  0 < delay + extra ->
  exists dl0 dl,
    DelayLine.init delay extra = Return dl0 /\
    insert_samples samples dl0 = (Return tt, dl) /\
    DelayLine.nticks dl = len samples /\
    DelayLine.ptr dl = len samples mod (delay + extra) /\
    len (DelayLine.line dl) = delay + extra /\
    DelayLine.n_samp dl = delay + extra /\
    DelayLine.delay dl = delay /\
    (forall earlier s, samples = earlier ++ [s] ->
       DelayLine.getitem_ dl (DelayLine.ptr dl) = Return s).
Proof.
  intros Hn.
  destruct (init_wf delay extra Hn) as (dl0 & Hinit & Hwf0 & Hh0 & Hd0 & Hn0).
  destruct (insert_samples_counters samples dl0 Hwf0)
    as (dl & Hrun & Hwf & Hnt & Hptr & Hns & Hdd).
  destruct (insert_samples_hist samples dl0 [] Hwf0 Hh0)
    as (dl1 & Hrun1 & _ & Hh & _).
  rewrite Hrun in Hrun1. injection Hrun1 as <-.
  assert (DelayLine.nticks dl0 = 0 /\ DelayLine.ptr dl0 = 0) as [Hnt0 Hp0].
  { unfold DelayLine.init, np_zeros in Hinit.
    destruct (delay + extra <? 0); [discriminate|]. cbn in Hinit.
    injection Hinit as <-. auto. }
  rewrite Hnt0 in Hnt. rewrite Hp0, Hn0 in Hptr. cbn in Hnt, Hptr.
  exists dl0, dl. split_and!; auto; try congruence.
  - destruct Hwf as (_ & Hl & _). congruence.
  - intros earlier s ->. rewrite app_nil_r, reverse_snoc in Hh.
    specialize (Hh 0 ltac:(destruct Hwf; lia)).
    rewrite Z.sub_0_r, Z.mod_small in Hh by apply Hwf.
    unfold DelayLine.getitem_. apply getitem_nonneg; [apply Hwf | exact Hh].
Qed.

Lemma insert_samples_state_witness :
  0 < 3 + 1 /\
  exists dl0 dl,
    DelayLine.init 3 1 = Return dl0 /\
    insert_samples [qc 1 1; qc 2 1; qc 3 1; qc 4 1; qc 5 1; qc 6 1] dl0 = (Return tt, dl) /\
    DelayLine.nticks dl = len [qc 1 1; qc 2 1; qc 3 1; qc 4 1; qc 5 1; qc 6 1] /\
    DelayLine.ptr dl = len [qc 1 1; qc 2 1; qc 3 1; qc 4 1; qc 5 1; qc 6 1] mod (3 + 1) /\
    len (DelayLine.line dl) = 3 + 1 /\
    DelayLine.n_samp dl = 3 + 1 /\
    DelayLine.delay dl = 3 /\
    (forall earlier s,
       [qc 1 1; qc 2 1; qc 3 1; qc 4 1; qc 5 1; qc 6 1] = earlier ++ [s] ->
       DelayLine.getitem_ dl (DelayLine.ptr dl) = Return s).
Proof.
  split; [lia|].
  apply (insert_samples_state 3 1 [qc 1 1; qc 2 1; qc 3 1; qc 4 1; qc 5 1; qc 6 1]). lia.
Defined.

(** X4. A line of capacity zero.  [DelayLine(delay, extra)] with
    [delay + extra = 0] is built without error, but it cannot be used:
    [insert_sample] raises IndexError after it has already counted the
    tick, [read_delay] raises ZeroDivisionError at every offset, and
    the dump is empty. *)
Theorem zero_capacity_line (delay extra : Z) (sin : Qc) (k : option Z) :
  delay + extra = 0 ->
  exists dl0,
    DelayLine.init delay extra = Return dl0 /\
    DelayLine.insert_sample sin dl0 = (Raise IndexError, DelayLine.set_nticks 1 dl0) /\
    DelayLine.read_delay k dl0 = Raise ZeroDivisionError /\
    DelayLine.read_delay k (DelayLine.set_nticks 1 dl0) = Raise ZeroDivisionError /\
    DelayLine.dump_line dl0 = [].
Proof.
  intros Hz. unfold DelayLine.init. rewrite Hz. cbn.
  eexists. split; [reflexivity|]. split_and!; try reflexivity.
  unfold DelayLine.dump_line, slice_to; cbn. now destruct (Z.to_nat _).
Qed.

Lemma zero_capacity_line_witness :
  3 + -3 = 0 /\
  exists dl0,
    DelayLine.init 3 (-3) = Return dl0 /\
    DelayLine.insert_sample (qc 9 10) dl0 = (Raise IndexError, DelayLine.set_nticks 1 dl0) /\
    DelayLine.read_delay (Some 0) dl0 = Raise ZeroDivisionError /\
    DelayLine.read_delay (Some 0) (DelayLine.set_nticks 1 dl0) = Raise ZeroDivisionError /\
    DelayLine.dump_line dl0 = [].
Proof.
  split; [lia|]. apply (zero_capacity_line 3 (-3) (qc 9 10) (Some 0)). lia.
Defined.

(** X5. Inserting shifts the history by one.  On every reachable state of
    a line of positive capacity [insert_sample] returns; afterwards
    offset 0 reads the new sample and offset [k + 1] reads what offset
    [k] read before, for every [k + 1] below the capacity; only the
    oldest slot is lost. *)
Theorem insert_shifts_reads (delay extra : Z) (dl : DelayLine.t) (sin : Qc) :
  0 < delay + extra -> dl_reachable delay extra dl ->
  exists dl',
    DelayLine.insert_sample sin dl = (Return tt, dl') /\
    DelayLine.read_delay (Some 0) dl' = Return sin /\
    forall k, 0 <= k < delay + extra - 1 ->
      DelayLine.read_delay (Some (k + 1)) dl' = DelayLine.read_delay (Some k) dl.
Proof.
  intros Hn Hr.
  destruct (dl_reachable_wf delay extra dl Hn Hr) as (Hwf & Hd & Hns).
  pose proof (next_ptr_range dl Hwf) as Hnp.
  pose proof (next_ptr_mod dl Hwf) as Hnm.
  pose proof (dl_insert_wf sin dl Hwf) as Hwf'.
  pose proof Hwf as (Hpos & Hl & Hp).
  exists (dl_insert sin dl). split; [now apply insert_sample_wf|]. split.
  - apply read_delay_wf; [assumption|]. cbn [dl_insert DelayLine.line DelayLine.ptr DelayLine.n_samp].
    rewrite Z.sub_0_r, Z.mod_small by lia.
    apply list_lookup_insert_eq. unfold len in Hl. lia.
  - intros k Hk.
    pose proof (Z.mod_pos_bound (DelayLine.ptr dl - k) (DelayLine.n_samp dl) Hpos) as Hb.
    destruct (wf_line_lookup dl _ Hwf Hb) as [x Hx].
    rewrite (read_delay_wf dl k x Hwf Hx).
    apply read_delay_wf; [assumption|].
    cbn [dl_insert DelayLine.line DelayLine.ptr DelayLine.n_samp].
    assert ((next_ptr dl - (k + 1)) mod DelayLine.n_samp dl
            = (DelayLine.ptr dl - k) mod DelayLine.n_samp dl) as Heq.
    { rewrite Hnm, Zminus_mod_idemp_l. f_equal. lia. }
    rewrite Heq. rewrite list_lookup_insert_ne; [exact Hx|].
    intros E. apply Z2Nat.inj in E; try lia.
    rewrite <- Heq in E. revert E. rewrite mod_wrap by lia.
    destruct (Z.ltb_spec (next_ptr dl - (k + 1)) 0); lia.
Qed.

Lemma insert_shifts_reads_witness :
  exists dl, dl_reachable 3 1 dl /\
  exists dl',
    DelayLine.insert_sample (qc 9 1) dl = (Return tt, dl') /\
    DelayLine.read_delay (Some 0) dl' = Return (qc 9 1) /\
    forall k, 0 <= k < 3 + 1 - 1 ->
      DelayLine.read_delay (Some (k + 1)) dl' = DelayLine.read_delay (Some k) dl.
Proof.
  eexists. split; [|apply (insert_shifts_reads 3 1 _ (qc 9 1)); [lia|]].
  - eapply dl_reach_insert with (sin := qc 7 1);
      [eapply dl_reach_insert with (sin := qc 5 1); [apply dl_reach_init|] |];
      vm_compute; reflexivity.
  - eapply dl_reach_insert with (sin := qc 7 1);
      [eapply dl_reach_insert with (sin := qc 5 1); [apply dl_reach_init|] |];
      vm_compute; reflexivity.
Defined.

(** ** Tube: constructor, position reads, exit reads *)

(** A tube whose lines hold given histories. *)
Lemma feed_incoming_hist d ins : forall tb hi,
  tube_wf d tb -> dl_hist (Tube.dlin tb) hi ->
  exists tb', feed_incoming ins tb = (Return tt, tb') /\ tube_wf d tb' /\
    dl_hist (Tube.dlin tb') (reverse ins ++ hi) /\
    Tube.dlout tb' = Tube.dlout tb /\
    Tube.prop_mult tb' = Tube.prop_mult tb /\
    Tube.smpl_prop_mult tb' = Tube.smpl_prop_mult tb.
Proof.
  induction ins as [|s ins IH]; intros tb hi Hwf Hh.
  - exists tb. cbn. split_and!; auto.
  - pose proof Hwf as (_ & Hwi & _).
    destruct (IH (Tube.set_dlin (dl_insert s (Tube.dlin tb)) tb) (s :: hi))
      as (tb' & Hrun & Hwf' & Hh' & Ho & Hp & Hs).
    { now apply set_dlin_wf. }
    { cbn. now apply dl_hist_insert. }
    exists tb'. split_and!; auto.
    + unfold feed_incoming in *. cbn [for_each].
      rewrite (bind_run _ _ _ _ _ (insert_incoming_wf s tb Hwi)). exact Hrun.
    + now rewrite reverse_cons, <- app_assoc.
Qed.

Lemma feed_outgoing_hist d outs : forall tb ho,
  tube_wf d tb -> dl_hist (Tube.dlout tb) ho ->
  exists tb', feed_outgoing outs tb = (Return tt, tb') /\ tube_wf d tb' /\
    dl_hist (Tube.dlout tb') (reverse outs ++ ho) /\
    Tube.dlin tb' = Tube.dlin tb /\
    Tube.prop_mult tb' = Tube.prop_mult tb /\
    Tube.smpl_prop_mult tb' = Tube.smpl_prop_mult tb.
Proof.
  induction outs as [|s outs IH]; intros tb ho Hwf Hh.
  - exists tb. cbn. split_and!; auto.
  - pose proof Hwf as (_ & _ & Hwo & _).
    destruct (IH (Tube.set_dlout (dl_insert s (Tube.dlout tb)) tb) (s :: ho))
      as (tb' & Hrun & Hwf' & Hh' & Hi & Hp & Hs).
    { now apply set_dlout_wf. }
    { cbn. now apply dl_hist_insert. }
    exists tb'. split_and!; auto.
    + unfold feed_outgoing in *. cbn [for_each].
      rewrite (bind_run _ _ _ _ _ (insert_outgoing_wf s tb Hwo)). exact Hrun.
    + now rewrite reverse_cons, <- app_assoc.
Qed.

(** Every tube built with a delay above -5 can be fed, and a fed tube
    holds what it was fed. *)
Lemma fed_tube_hist delay losses ins outs :
  -5 < delay -> (0 <= delay \/ losses <> 1%Qc) ->
  exists tb, fed_tube delay losses ins outs tb.
Proof.
  intros Hd Hl.
  destruct (tube_init_wf delay losses Hd Hl) as (tb0 & Hinit & Hwf0 & Hi0 & Ho0 & _).
  destruct (feed_incoming_hist delay ins tb0 [] Hwf0 Hi0) as (tb1 & E1 & Hwf1 & _ & Ho1 & _).
  destruct (feed_outgoing_hist delay outs tb1 [] Hwf1) as (tb & E & _).
  { rewrite Ho1. exact Ho0. }
  exists tb, tb0, tb1. split_and!; auto.
Qed.

Lemma fed_tube_inv delay losses ins outs tb :
  -5 < delay -> fed_tube delay losses ins outs tb ->
  tube_wf delay tb /\
  dl_hist (Tube.dlin tb) (reverse ins) /\ dl_hist (Tube.dlout tb) (reverse outs) /\
  Tube.smpl_prop_mult tb = (1 - losses)%Qc /\
  py_pow (1 - losses)%Qc delay = Return (Tube.prop_mult tb).
Proof.
  intros Hd (tb0 & tb1 & Hinit & E1 & E).
  assert (0 <= delay \/ losses <> 1%Qc) as Hl.
  { destruct (Z_le_gt_dec 0 delay); [auto|]. right. intros ->.
    unfold Tube.init, DelayLine.init, np_zeros in Hinit.
    destruct (Z.ltb_spec (delay + 5) 0); [lia|]. py_unfold. cbn in Hinit.
    unfold py_pow in Hinit. destruct (Z.leb_spec 0 delay); [lia|].
    replace (1 - 1)%Qc with 0%Qc in Hinit by ring.
    destruct (decide (0%Qc = 0%Qc)); [discriminate | congruence]. }
  destruct (tube_init_wf delay losses Hd Hl) as (tb0' & Hinit' & Hwf0 & Hi0 & Ho0 & Hs0 & Hp0).
  rewrite Hinit in Hinit'. injection Hinit' as <-.
  destruct (feed_incoming_hist delay ins tb0 [] Hwf0 Hi0)
    as (tb1' & E1' & Hwf1 & Hi1 & Ho1 & Hp1 & Hs1).
  rewrite E1 in E1'. injection E1' as <-.
  destruct (feed_outgoing_hist delay outs tb1 []  Hwf1)
    as (tb' & E' & Hwf & Ho & Hi & Hp & Hs).
  { rewrite Ho1. exact Ho0. }
  rewrite E in E'. injection E' as <-.
  rewrite app_nil_r in *. rewrite Hi, Hp, Hs, Hp1, Hs1. split_and!; auto.
Qed.


(** X7. Position reads.  On a tube of delay [delay] fed [ins] and [outs],
    for a position [0 <= index <= delay] counted from the input end:
    the outgoing read is the outgoing sample of [index] ticks ago times
    [(1 - losses) ** index]; the incoming read is the incoming sample of
    [delay - index] ticks ago times [(1 - losses) ** (delay - index)];
    [get_sum_at_pos] adds these two; [get_diff_at_pos] subtracts the
    same two samples without any attenuation. *)
Theorem tube_position_reads (delay : Z) (losses : Qc) (ins outs : list Qc)
    (tb : Tube.t) (index : Z) :
  0 <= index <= delay -> fed_tube delay losses ins outs tb ->
  Tube.read_outgoing_at_pos index tb
  = Return (past (reverse outs) index * pow_pos (1 - losses) index)%Qc /\
  Tube.read_incoming_at_pos index tb
  = Return (past (reverse ins) (delay - index) * pow_pos (1 - losses) (delay - index))%Qc /\
  Tube.get_sum_at_pos index tb
  = Return (past (reverse ins) (delay - index) * pow_pos (1 - losses) (delay - index)
            + past (reverse outs) index * pow_pos (1 - losses) index)%Qc /\
  Tube.get_diff_at_pos index tb
  = Return (- past (reverse ins) (delay - index) + past (reverse outs) index)%Qc.
Proof.
  intros Hi Hfed.
  destruct (fed_tube_inv delay losses ins outs tb ltac:(lia) Hfed)
    as (Hwf & Hhi & Hho & Hs & _).
  destruct Hwf as (Hdel & Hwi & Hwo & Hdi & Hdo & Hni & Hno).
  assert (Tube.read_outgoing_at_pos index tb
          = Return (past (reverse outs) index * pow_pos (1 - losses) index)%Qc) as Hout.
  { unfold Tube.read_outgoing_at_pos.
    rewrite (read_delay_hist _ (reverse outs)) by (auto; lia).
    rewrite Hs, py_pow_nonneg by lia. reflexivity. }
  assert (Tube.read_incoming_at_pos index tb
          = Return (past (reverse ins) (delay - index)
                    * pow_pos (1 - losses) (delay - index))%Qc) as Hin.
  { unfold Tube.read_incoming_at_pos. rewrite Hdel.
    rewrite (read_delay_hist _ (reverse ins)) by (auto; lia).
    rewrite Hs, py_pow_nonneg by lia. reflexivity. }
  split_and!; auto.
  - unfold Tube.get_sum_at_pos. rewrite Hin, Hout. reflexivity.
  - unfold Tube.get_diff_at_pos. rewrite Hdel.
    rewrite (read_delay_hist (Tube.dlin tb) (reverse ins) (delay - index)) by (auto; lia).
    rewrite (read_delay_hist (Tube.dlout tb) (reverse outs) index) by (auto; lia).
    reflexivity.
Qed.

Lemma tube_position_reads_witness :
  exists tb, fed_tube 3 (qc 1 10) [qc 1 1; qc 2 1] [qc 3 1; qc 4 1; qc 5 1] tb /\
  Tube.read_outgoing_at_pos 1 tb
  = Return (past (reverse [qc 3 1; qc 4 1; qc 5 1]) 1 * pow_pos (1 - qc 1 10) 1)%Qc /\
  Tube.read_incoming_at_pos 1 tb
  = Return (past (reverse [qc 1 1; qc 2 1]) (3 - 1) * pow_pos (1 - qc 1 10) (3 - 1))%Qc /\
  Tube.get_sum_at_pos 1 tb
  = Return (past (reverse [qc 1 1; qc 2 1]) (3 - 1) * pow_pos (1 - qc 1 10) (3 - 1)
            + past (reverse [qc 3 1; qc 4 1; qc 5 1]) 1 * pow_pos (1 - qc 1 10) 1)%Qc /\
  Tube.get_diff_at_pos 1 tb
  = Return (- past (reverse [qc 1 1; qc 2 1]) (3 - 1)
            + past (reverse [qc 3 1; qc 4 1; qc 5 1]) 1)%Qc.
Proof.
  eexists. split; [|apply (tube_position_reads 3 (qc 1 10)); [lia|]].
  - do 2 eexists. split_and!; vm_compute; reflexivity.
  - do 2 eexists. split_and!; vm_compute; reflexivity.
Defined.

(** X8. Exit reads.  [read_samples] returns the pair of exit reads, each
    attenuated by [(1 - losses) ** delay].  For a delay of 2 or more
    they are the samples inserted [delay - 2] ticks before the latest;
    for delay 0 or 1 the offset [delay - 2] is negative and wraps
    around the [delay + 5] slots, to the samples inserted
    [2 * delay + 3] ticks before the latest. *)
Theorem tube_exit_reads (delay : Z) (losses : Qc) (ins outs : list Qc) (tb : Tube.t) :
  0 <= delay -> fed_tube delay losses ins outs tb ->
  Tube.read_samples tb
  = Return ((past (reverse outs) (if 2 <=? delay then delay - 2 else 2 * delay + 3)
             * pow_pos (1 - losses) delay)%Qc,
            (past (reverse ins) (if 2 <=? delay then delay - 2 else 2 * delay + 3)
             * pow_pos (1 - losses) delay)%Qc).
Proof.
  intros Hd Hfed.
  destruct (fed_tube_inv delay losses ins outs tb ltac:(lia) Hfed)
    as (Hwf & Hhi & Hho & Hs & Hp).
  destruct Hwf as (Hdel & Hwi & Hwo & Hdi & Hdo & Hni & Hno).
  rewrite py_pow_nonneg in Hp by assumption. injection Hp as Hp.
  set (lag := if 2 <=? delay then delay - 2 else 2 * delay + 3).
  assert (0 <= lag < delay + 5) as Hlag.
  { unfold lag. destruct (Z.leb_spec 2 delay); lia. }
  assert (forall dl h, dl_wf dl -> dl_hist dl h -> DelayLine.n_samp dl = delay + 5 ->
            DelayLine.read_delay (Some (delay - 2)) dl = Return (past h lag)) as Hread.
  { intros dl h Hw Hh Hn. apply read_delay_wf; [assumption|].
    rewrite <- (Hh lag) by lia. do 2 f_equal. unfold lag.
    destruct (Z.leb_spec 2 delay); [reflexivity|].
    replace (DelayLine.ptr dl - (2 * delay + 3))
      with (DelayLine.ptr dl - (delay - 2) + (-1) * DelayLine.n_samp dl) by lia.
    now rewrite Z.mod_add by lia. }
  unfold Tube.read_samples, Tube.read_outgoing, Tube.read_incoming.
  rewrite Hdo, Hdi, (Hread _ _ Hwo Hho Hno), (Hread _ _ Hwi Hhi Hni), <- Hp.
  reflexivity.
Qed.

Lemma tube_exit_reads_witness :
  exists tb, fed_tube 1 (qc 1 10)
               [qc 1 1; qc 2 1; qc 3 1; qc 4 1; qc 5 1; qc 6 1]
               [qc 7 1; qc 8 1; qc 9 1; qc 10 1; qc 11 1; qc 12 1] tb /\
  Tube.read_samples tb
  = Return ((past (reverse [qc 7 1; qc 8 1; qc 9 1; qc 10 1; qc 11 1; qc 12 1])
                  (if 2 <=? 1 then 1 - 2 else 2 * 1 + 3)
             * pow_pos (1 - qc 1 10) 1)%Qc,
            (past (reverse [qc 1 1; qc 2 1; qc 3 1; qc 4 1; qc 5 1; qc 6 1])
                  (if 2 <=? 1 then 1 - 2 else 2 * 1 + 3)
             * pow_pos (1 - qc 1 10) 1)%Qc).
Proof.
  eexists. split; [|apply (tube_exit_reads 1 (qc 1 10)); [lia|]].
  - do 2 eexists. split_and!; vm_compute; reflexivity.
  - do 2 eexists. split_and!; vm_compute; reflexivity.
Defined.

(** ** TubeAssembly: junctions, failed appends, the empty assembly *)

Lemma scaler_nonzero r : r <> 0%Qc -> scaler r <> 0%Qc.
Proof.
  intros Hr E. assert (pow_pos r 2 <> 0%Qc) as Hp by now rewrite pow_pos_2_zero.
  assert ((scaler r * pow_pos r 2)%Qc = 1%Qc) as H1 by (unfold scaler; now field).
  rewrite E, Qcmult_0_l in H1. discriminate.
Qed.

Lemma junction_equal_scalers s :
  s <> 0%Qc -> junction s s = {| m00 := 1%Qc; m01 := 0%Qc; m10 := 0%Qc; m11 := 1%Qc |}.
Proof.
  intros Hs. assert ((s + s)%Qc <> 0%Qc) as Hss.
  { rewrite Qcplus_diag. intros E. apply Qcmult_integral in E as [E|E];
      [discriminate | contradiction]. }
  unfold junction. f_equal; now field.
Qed.

(** X9. A transparent junction.  Between two segments of the same non-zero
    radius the stored matrix is the identity, and [scatter] passes both
    waves through unchanged: the outgoing value goes right, the
    incoming value goes left. *)
Theorem transparent_junction (ta : TubeAssembly.t) (i : nat) (r plout prin : Qc) :
  appended ta ->
  TubeAssembly.radii ta !! i = Some r ->
  TubeAssembly.radii ta !! S i = Some r ->
  r <> 0%Qc ->
  TubeAssembly.scats ta !! i
  = Some {| m00 := 1%Qc; m01 := 0%Qc; m10 := 0%Qc; m11 := 1%Qc |} /\
  TubeAssembly.scatter (Z.of_nat i) plout prin ta = Return (plout, prin).
Proof.
  intros Hap Hl Hr Hnz.
  destruct (appended_inv ta Hap) as (_ & _ & _ & Hj).
  specialize (Hj i r r Hl Hr Hnz Hnz).
  rewrite junction_equal_scalers in Hj by now apply scaler_nonzero.
  split; [exact Hj|].
  rewrite (scatter_ok ta _ i _ plout prin (norm_index_nat _ i) Hj). cbn.
  f_equal. f_equal; ring.
Qed.

Lemma transparent_junction_witness :
  exists ta, appended ta /\
    TubeAssembly.scats ta !! 0%nat
    = Some {| m00 := 1%Qc; m01 := 0%Qc; m10 := 0%Qc; m11 := 1%Qc |} /\
    TubeAssembly.scatter (Z.of_nat 0) (qc 9 10) (qc 1 2) ta = Return (qc 9 10, qc 1 2).
Proof.
  eexists. split; [|apply (transparent_junction _ 0 (qc 3 1))].
  - eapply (appended_step _ 3 (qc 3 1) 0%Qc);
      [eapply (appended_step _ 2 (qc 3 1) 0%Qc); [apply appended_init|]|];
      vm_compute; reflexivity.
  - eapply (appended_step _ 3 (qc 3 1) 0%Qc);
      [eapply (appended_step _ 2 (qc 3 1) 0%Qc); [apply appended_init|]|];
      vm_compute; reflexivity.
  - vm_compute; reflexivity.
  - vm_compute; reflexivity.
  - vm_compute; discriminate.
Defined.

(** X10. The open end.  On every non-empty assembly the last junction
    reflects: [scatter] there returns the incoming value as the radiated
    output and the negated outgoing value as the wave sent back, under
    the index [len(scats) - 1] that [insert_values] uses and under
    [-1]. *)
Theorem open_end_reflects (ta : TubeAssembly.t) (plout prin : Qc) :
  appended ta -> TubeAssembly.tubes ta <> [] ->
  TubeAssembly.scatter (len (TubeAssembly.scats ta) - 1) plout prin ta
  = Return (prin, (- plout)%Qc) /\
  TubeAssembly.scatter (-1) plout prin ta = Return (prin, (- plout)%Qc).
Proof.
  intros Hap Hne.
  destruct (appended_inv ta Hap) as (Hts & _ & Hlast & _).
  assert (TubeAssembly.scats ta <> []) as Hsne.
  { intros E. rewrite E in Hts. destruct (TubeAssembly.tubes ta); [congruence | discriminate]. }
  destruct Hlast as [E|Hlast]; [contradiction|].
  rewrite last_lookup in Hlast.
  split.
  - rewrite (scatter_ok ta _ (pred (length (TubeAssembly.scats ta))) open_end); auto.
    + cbn. f_equal. f_equal; ring.
    + unfold norm_index, len. destruct (TubeAssembly.scats ta); [congruence|].
      cbn [length pred]. destruct (Z.ltb_spec (Z.of_nat (S (length l)) - 1) 0); lia.
  - rewrite (scatter_ok ta _ (pred (length (TubeAssembly.scats ta))) open_end);
      auto using norm_index_last.
    cbn. f_equal. f_equal; ring.
Qed.

Lemma open_end_reflects_witness :
  exists ta, appended ta /\
    TubeAssembly.scatter (len (TubeAssembly.scats ta) - 1) (qc 9 10) (qc 1 2) ta
    = Return (qc 1 2, (- qc 9 10)%Qc) /\
    TubeAssembly.scatter (-1) (qc 9 10) (qc 1 2) ta = Return (qc 1 2, (- qc 9 10)%Qc).
Proof.
  eexists. split; [|apply open_end_reflects].
  - eapply (appended_step _ 3 (qc 2 1) 0%Qc);
      [eapply (appended_step _ 2 (qc 1 1) 0%Qc); [apply appended_init|]|];
      vm_compute; reflexivity.
  - eapply (appended_step _ 3 (qc 2 1) 0%Qc);
      [eapply (appended_step _ 2 (qc 1 1) 0%Qc); [apply appended_init|]|];
      vm_compute; reflexivity.
  - vm_compute; discriminate.
Defined.

(** X11. A failed append is not undone.  When a segment precedes and the new
    radius or the radius before it is zero, [append_tube] raises
    ZeroDivisionError in [connect_tubes] - after the tube, the default
    open-end matrix and the radius were appended.  The assembly is left
    one segment longer, with the previous last slot still holding the
    open-end matrix. *)
Theorem append_tube_zero_radius (ta : TubeAssembly.t) (delay : Z)
    (radius losses rl : Qc) :
  appended ta ->
  -5 <= delay -> (0 <= delay \/ losses <> 1%Qc) ->
  last (TubeAssembly.radii ta) = Some rl ->
  (radius = 0%Qc \/ rl = 0%Qc) ->
  exists tb ta',
    Tube.init delay losses = Return tb /\
    TubeAssembly.append_tube delay radius losses ta = (Raise ZeroDivisionError, ta') /\
    TubeAssembly.tubes ta' = TubeAssembly.tubes ta ++ [tb] /\
    TubeAssembly.scats ta' = TubeAssembly.scats ta ++ [open_end] /\
    TubeAssembly.radii ta' = TubeAssembly.radii ta ++ [radius].
Proof.
  intros Hap Hd Hl Hlast Hz.
  destruct (appended_inv ta Hap) as (Hts & Hsr & _ & _).
  destruct (tube_init_return delay losses Hd Hl) as (tb & Hinit & _).
  exists tb, (ta_push tb radius ta). split; [exact Hinit|].
  split; [|cbn; auto].
  rewrite append_tube_unfold, Hinit.
  rewrite last_lookup in Hlast.
  assert (length (TubeAssembly.radii ta) <> 0%nat) as Hne.
  { intros E. rewrite E in Hlast. destruct (TubeAssembly.radii ta); discriminate. }
  destruct (length (TubeAssembly.radii ta)) as [|i] eqn:HN; [congruence|].
  cbn [pred] in Hlast.
  assert (len (TubeAssembly.tubes (ta_push tb radius ta)) = Z.of_nat (S (S i))) as Hlen.
  { unfold len; cbn. rewrite length_app; cbn. lia. }
  rewrite connect_tubes_neg by lia. rewrite Hlen.
  replace (Z.of_nat (S (S i)) + -1) with (Z.of_nat (S i)) by lia.
  destruct (connect_tubes_cases (ta_push tb radius ta) i rl radius)
    as [(Hnl & Hnr & _) | (_ & E)].
  - cbn. rewrite lookup_app_l by lia. exact Hlast.
  - cbn. replace (S i) with (length (TubeAssembly.radii ta) + 0)%nat by lia.
    now rewrite lookup_app_r, Nat.add_comm, Nat.add_sub by lia.
  - cbn. rewrite length_app; cbn. lia.
  - destruct Hz; contradiction.
  - exact E.
Qed.

Lemma append_tube_zero_radius_witness :
  exists ta, appended ta /\
  exists tb ta',
    Tube.init 3 0%Qc = Return tb /\
    TubeAssembly.append_tube 3 0%Qc 0%Qc ta = (Raise ZeroDivisionError, ta') /\
    TubeAssembly.tubes ta' = TubeAssembly.tubes ta ++ [tb] /\
    TubeAssembly.scats ta' = TubeAssembly.scats ta ++ [open_end] /\
    TubeAssembly.radii ta' = TubeAssembly.radii ta ++ [0%Qc].
Proof.
  eexists. split; [|apply (append_tube_zero_radius _ 3 0%Qc 0%Qc (qc 1 1))].
  - eapply (appended_step _ 2 (qc 1 1) 0%Qc); [apply appended_init|];
      vm_compute; reflexivity.
  - eapply (appended_step _ 2 (qc 1 1) 0%Qc); [apply appended_init|];
      vm_compute; reflexivity.
  - lia.
  - left; lia.
  - vm_compute; reflexivity.
  - left; reflexivity.
Defined.

Lemma set_scats_same ta : TubeAssembly.set_scats (TubeAssembly.scats ta) ta = ta.
Proof. now destruct ta. Qed.

(** X12. Reconnecting changes nothing.  On an assembly built by
    [append_tube], calling [connect_tubes(i + 1)] again for two
    non-zero radii returns and leaves the assembly as it is; so does
    the default call [connect_tubes()] when they are the last two. *)
Theorem connect_tubes_again (ta : TubeAssembly.t) (i : nat) (rl rr : Qc) :
  appended ta ->
  TubeAssembly.radii ta !! i = Some rl ->
  TubeAssembly.radii ta !! S i = Some rr ->
  rl <> 0%Qc -> rr <> 0%Qc ->
  TubeAssembly.connect_tubes (Z.of_nat (S i)) ta = (Return tt, ta) /\
  (length (TubeAssembly.tubes ta) = S (S i) ->
   TubeAssembly.connect_tubes (-1) ta = (Return tt, ta)).
Proof.
  intros Hap Hl Hr Hnl Hnr.
  destruct (appended_inv ta Hap) as (Hts & Hsr & _ & Hj).
  specialize (Hj i rl rr Hl Hr Hnl Hnr).
  assert (TubeAssembly.connect_tubes (Z.of_nat (S i)) ta = (Return tt, ta)) as E.
  { destruct (connect_tubes_cases ta i rl rr Hl Hr)
      as [(_ & _ & E) | ([Hz|Hz] & _)]; [|rewrite E|contradiction|contradiction].
    - now apply lookup_lt_Some in Hj.
    - now rewrite list_insert_id, set_scats_same by exact Hj. }
  split; [exact E|]. intros Hlen.
  rewrite connect_tubes_neg by (unfold len; lia).
  unfold len. rewrite Hlen.
  replace (Z.of_nat (S (S i)) + -1) with (Z.of_nat (S i)) by lia. exact E.
Qed.

Lemma connect_tubes_again_witness :
  exists ta, appended ta /\
    TubeAssembly.connect_tubes (Z.of_nat 1) ta = (Return tt, ta) /\
    TubeAssembly.connect_tubes (-1) ta = (Return tt, ta).
Proof.
  eexists. split.
  - eapply (appended_step _ 3 (qc 2 1) 0%Qc);
      [eapply (appended_step _ 2 (qc 1 1) 0%Qc); [apply appended_init|]|];
      vm_compute; reflexivity.
  - match goal with |- context [TubeAssembly.connect_tubes _ ?t] =>
      assert (appended t) as Hap
    end.
    { eapply (appended_step _ 3 (qc 2 1) 0%Qc);
        [eapply (appended_step _ 2 (qc 1 1) 0%Qc); [apply appended_init|]|];
        vm_compute; reflexivity. }
    destruct (connect_tubes_again _ 0 (qc 1 1) (qc 2 1) Hap) as [H1 H2];
      try (vm_compute; reflexivity); try (vm_compute; discriminate).
    split; [exact H1 | apply H2; vm_compute; reflexivity].
Defined.

(** X13. The empty assembly.  Before any [append_tube], [insert_values]
    raises IndexError and changes nothing,
    [get_incoming_pressure_at_start] raises IndexError,
    [get_tube_at_pos] finds no tube, and [get_sum_at_pos] raises
    TypeError when it unpacks that [None]. *)
Theorem empty_assembly (ta : TubeAssembly.t) (val ret_val : Qc) (index : Z) :
  TubeAssembly.tubes ta = [] ->
  TubeAssembly.insert_values val ret_val ta = (Raise IndexError, ta) /\
  TubeAssembly.get_incoming_pressure_at_start ta = Raise IndexError /\
  TubeAssembly.get_tube_at_pos index ta = None /\
  TubeAssembly.get_sum_at_pos index ta = Raise TypeError.
Proof.
  intros E. destruct ta as [tubes scats radii]. cbn in E. subst tubes.
  split_and!; reflexivity.
Qed.

Lemma empty_assembly_witness :
  TubeAssembly.insert_values (qc 9 10) 0%Qc TubeAssembly.init
  = (Raise IndexError, TubeAssembly.init) /\
  TubeAssembly.get_incoming_pressure_at_start TubeAssembly.init = Raise IndexError /\
  TubeAssembly.get_tube_at_pos 0 TubeAssembly.init = None /\
  TubeAssembly.get_sum_at_pos 0 TubeAssembly.init = Raise TypeError.
Proof. apply (empty_assembly TubeAssembly.init (qc 9 10) 0%Qc 0). reflexivity. Defined.

(** ** TubeAssembly: what one call of [insert_values] does to the tubes *)

(** One round of the loop, with the state it leaves. *)
Lemma propagate_exact ta (i : nat) prev :
  ta_ready ta -> (S i < length (TubeAssembly.tubes ta))%nat ->
  exists prout plin tb,
    TubeAssembly.tubes ta !! i = Some tb /\
    TubeAssembly.propagate (Z.of_nat i) prev ta
    = (Return prout,
       TubeAssembly.set_tubes (<[i := tube_tick plin prev tb]> (TubeAssembly.tubes ta)) ta).
Proof.
  intros Hready Hi. pose proof Hready as (Hne & Hlen & Hlast & Hall).
  destruct (lookup_lt_is_Some_2 (TubeAssembly.tubes ta) i) as [tb Htb]; [lia|].
  destruct (lookup_lt_is_Some_2 (TubeAssembly.tubes ta) (S i)) as [tb' Htb']; [lia|].
  destruct (lookup_lt_is_Some_2 (TubeAssembly.scats ta) i) as [m Hm]; [lia|].
  destruct (Forall_lookup_1 _ _ _ _ Hall Htb) as [Hwi Hwo].
  destruct (Forall_lookup_1 _ _ _ _ Hall Htb') as [Hwi' Hwo'].
  destruct (read_outgoing_total tb Hwo) as [plout Hplout].
  destruct (read_incoming_total tb' Hwi') as [prin Hprin].
  unfold TubeAssembly.propagate.
  erewrite bind_run
    by (eapply (read_tube_ok ta _ i); eauto using norm_index_nat).
  replace (Z.of_nat i + 1) with (Z.of_nat (S i)) by lia.
  erewrite bind_run
    by (eapply (read_tube_ok ta _ (S i)); eauto using norm_index_nat).
  erewrite bind_run
    by (unfold reading; erewrite (scatter_ok ta _ i); eauto using norm_index_nat).
  cbn beta iota.
  rewrite (on_tube_tick ta (Z.of_nat i) i tb) by auto using norm_index_nat.
  eexists _, _, tb. split; [exact Htb | reflexivity].
Qed.

(** The loop over the tubes [a .. a + n - 1]: each of them gets one
    tick, the first with the value carried in; the others are
    untouched. *)
Lemma loop_ticks (n : nat) : forall (a : nat) ta prev,
  ta_ready ta -> (a + n < length (TubeAssembly.tubes ta))%nat ->
  exists prev' ta',
    for_each TubeAssembly.propagate (Z.of_nat <$> seq a n) prev ta = (Return prev', ta') /\
    ta_ready ta' /\
    TubeAssembly.scats ta' = TubeAssembly.scats ta /\
    TubeAssembly.radii ta' = TubeAssembly.radii ta /\
    length (TubeAssembly.tubes ta') = length (TubeAssembly.tubes ta) /\
    (n = 0%nat -> prev' = prev) /\
    (forall i tb, TubeAssembly.tubes ta !! i = Some tb -> (i < a \/ a + n <= i)%nat ->
       TubeAssembly.tubes ta' !! i = Some tb) /\
    (forall i tb, TubeAssembly.tubes ta !! i = Some tb -> (a <= i < a + n)%nat ->
       exists plin pv, TubeAssembly.tubes ta' !! i = Some (tube_tick plin pv tb) /\
                       (i = a -> pv = prev)).
Proof.
  induction n as [|n IH]; intros a ta prev Hready Ha.
  - exists prev, ta. cbn. split_and!; auto. intros i tb _ Hi. lia.
  - destruct (propagate_exact ta a prev Hready ltac:(lia)) as (prout & plin & tba & Htba & E1).
    set (ta1 := TubeAssembly.set_tubes
                  (<[a := tube_tick plin prev tba]> (TubeAssembly.tubes ta)) ta) in *.
    assert (ta_ready ta1) as Hr1 by now apply ta_ready_tick.
    assert (length (TubeAssembly.tubes ta1) = length (TubeAssembly.tubes ta)) as Hlen1.
    { cbn. now rewrite length_insert. }
    destruct (IH (S a) ta1 prout Hr1 ltac:(lia))
      as (prev' & ta' & E & Hr & Hs & Hrad & Hlen & _ & Hout & Hin).
    exists prev', ta'. cbn [seq fmap list_fmap for_each].
    rewrite (bind_run _ _ _ _ _ E1).
    split; [exact E|]. split; [exact Hr|].
    split; [now rewrite Hs|]. split; [now rewrite Hrad|]. split; [congruence|].
    split; [discriminate|]. split.
    + intros i tb Htb Hi. apply Hout; [|lia].
      cbn. rewrite list_lookup_insert_ne by lia. exact Htb.
    + intros i tb Htb Hi. destruct (decide (i = a)) as [->|Hne].
      * exists plin, prev. split; [|reflexivity].
        rewrite Htba in Htb. injection Htb as <-.
        apply Hout; [|lia]. cbn. apply list_lookup_insert_eq.
        now apply lookup_lt_Some in Htba.
      * destruct (Hin i tb) as (plin' & pv & Hl' & _); [|lia|].
        -- cbn. rewrite list_lookup_insert_ne by lia. exact Htb.
        -- exists plin', pv. split; [exact Hl' | intros; lia].
Qed.

(** A call of [insert_values] on an assembly it can run on: it returns
    [ret_val], keeps the junctions and radii, and gives every tube one
    tick; the first tube gets [val] on its outgoing line. *)
Lemma insert_values_ticks ta val ret_val :
  ta_ready ta ->
  exists ta',
    TubeAssembly.insert_values val ret_val ta = (Return ret_val, ta') /\
    ta_ready ta' /\
    TubeAssembly.scats ta' = TubeAssembly.scats ta /\
    TubeAssembly.radii ta' = TubeAssembly.radii ta /\
    length (TubeAssembly.tubes ta') = length (TubeAssembly.tubes ta) /\
    forall i tb, TubeAssembly.tubes ta !! i = Some tb ->
      exists plin pv, TubeAssembly.tubes ta' !! i = Some (tube_tick plin pv tb) /\
                      (i = 0%nat -> pv = val).
Proof.
  intros Hready. pose proof Hready as (Hne0 & Hlen0 & _ & _).
  unfold TubeAssembly.insert_values.
  erewrite bind_run by reflexivity.
  set (n := pred (length (TubeAssembly.tubes ta))).
  assert (np_arange (len (slice_to (TubeAssembly.tubes ta) (-1))) = Z.of_nat <$> seq 0 n) as Hidx.
  { unfold np_arange. do 2 f_equal. unfold slice_to, len. cbn.
    rewrite length_take. unfold n. lia. }
  rewrite Hidx.
  assert (length (TubeAssembly.tubes ta) = S n) as HSn.
  { unfold n. destruct (TubeAssembly.tubes ta); [congruence | reflexivity]. }
  destruct (loop_ticks n 0 ta val Hready ltac:(lia))
    as (prev & ta1 & E & Hr1 & Hs1 & Hrad1 & Hlen1 & Hn0 & Hout & Hin).
  rewrite (bind_run _ _ _ _ _ E).
  pose proof Hr1 as (Hne & Hlen & Hlast & Hall).
  destruct (lookup_lt_is_Some_2 (TubeAssembly.tubes ta) n) as [tbn Htbn]; [lia|].
  pose proof (Hout n tbn Htbn ltac:(lia)) as Htbn1.
  replace n with (pred (length (TubeAssembly.tubes ta1))) in Htbn1 at 1 by (rewrite Hlen1; lia).
  destruct (Forall_lookup_1 _ _ _ _ Hall Htbn1) as [Hwi Hwo].
  destruct (read_outgoing_total tbn Hwo) as [plout Hplout].
  erewrite bind_run
    by (eapply (read_tube_ok ta1 _ _ tbn); eauto using norm_index_last).
  erewrite bind_run by reflexivity.
  assert (TubeAssembly.scats ta1 <> []) as Hsne.
  { intros E'. rewrite E' in Hlen. destruct (TubeAssembly.tubes ta1); [congruence | discriminate]. }
  erewrite bind_run.
  2:{ unfold reading. erewrite (scatter_ok ta1 _ (pred (length (TubeAssembly.scats ta1)))).
      - reflexivity.
      - unfold norm_index, len. destruct (TubeAssembly.scats ta1); [congruence|].
        cbn [length pred]. destruct (Z.ltb_spec (Z.of_nat (S (length l)) - 1) 0); lia.
      - rewrite <- last_lookup. exact Hlast. }
  cbn beta iota.
  rewrite (on_tube_tick ta1 (-1) _ tbn) by auto using norm_index_last.
  eexists. split; [unfold mret, py_ret; f_equal; f_equal; cbn; ring|].
  split; [now apply ta_ready_tick|].
  cbn [TubeAssembly.set_tubes TubeAssembly.scats TubeAssembly.radii TubeAssembly.tubes].
  rewrite length_insert. split_and!; auto.
  intros i tb Htb. rewrite Hlen1, HSn. cbn [pred].
  destruct (decide (i = n)) as [->|Hne'].
  - rewrite Htbn in Htb. injection Htb as <-.
    eexists _, prev. split.
    + apply list_lookup_insert_eq. rewrite Hlen1. lia.
    + intros ->. apply Hn0. reflexivity.
  - assert (i < n)%nat as Hi by (apply lookup_lt_Some in Htb; lia).
    destruct (Hin i tb Htb ltac:(lia)) as (plin' & pv & Hl' & Hpv).
    exists plin', pv. split; [|exact Hpv].
    rewrite list_lookup_insert_ne by lia. exact Hl'.
Qed.

Lemma ticked_tick plin pv tb : ticked 1 tb (tube_tick plin pv tb).
Proof. unfold ticked, tube_tick; cbn. auto. Qed.

Lemma ticked_trans m1 m2 tb1 tb2 tb3 :
  ticked m1 tb1 tb2 -> ticked m2 tb2 tb3 -> ticked (m1 + m2) tb1 tb3.
Proof.
  intros (A1 & A2 & A3 & A4 & A5) (B1 & B2 & B3 & B4 & B5).
  unfold ticked. split_and!; try congruence; lia.
Qed.

Lemma run_ticks (vals : list Qc) ret_val : forall ta,
  ta_ready ta ->
  exists ta',
    run vals ret_val ta = (Return (replicate (length vals) ret_val), ta') /\
    ta_ready ta' /\
    TubeAssembly.scats ta' = TubeAssembly.scats ta /\
    TubeAssembly.radii ta' = TubeAssembly.radii ta /\
    length (TubeAssembly.tubes ta') = length (TubeAssembly.tubes ta) /\
    forall i tb, TubeAssembly.tubes ta !! i = Some tb ->
      exists tb', TubeAssembly.tubes ta' !! i = Some tb' /\ ticked (len vals) tb tb'.
Proof.
  induction vals as [|v vals IH]; intros ta Hready.
  - exists ta. cbn. split_and!; auto. intros i tb Htb. exists tb. split; [exact Htb|].
    unfold ticked, len; cbn. split_and!; auto; lia.
  - destruct (insert_values_ticks ta v ret_val Hready)
      as (ta1 & E1 & Hr1 & Hs1 & Hrad1 & Hlen1 & Ht1).
    destruct (IH ta1 Hr1) as (ta' & E & Hr & Hs & Hrad & Hlen & Ht).
    exists ta'. cbn [run]. rewrite (bind_run _ _ _ _ _ E1), (bind_run _ _ _ _ _ E).
    split; [reflexivity|]. split; [exact Hr|].
    split; [congruence|]. split; [congruence|]. split; [congruence|].
    intros i tb Htb.
    destruct (Ht1 i tb Htb) as (plin & pv & Htb1 & _).
    destruct (Ht i _ Htb1) as (tb' & Htb' & Hticked).
    exists tb'. split; [exact Htb'|].
    replace (len (v :: vals)) with (1 + len vals) by (unfold len; cbn [length]; lia).
    eapply ticked_trans; [apply ticked_tick | exact Hticked].
Qed.

Lemma build_from_tubes (segs : list segment) : forall ta,
  ta_inv ta ->
  Forall (fun r => r <> 0%Qc) (TubeAssembly.radii ta) ->
  Forall (fun s => 1 <= seg_delay s /\ seg_radius s <> 0%Qc) segs ->
  exists ta' new,
    for_each (fun s _ =>
                TubeAssembly.append_tube (seg_delay s) (seg_radius s) (seg_losses s))
             segs tt ta = (Return tt, ta') /\
    TubeAssembly.tubes ta' = TubeAssembly.tubes ta ++ new /\
    TubeAssembly.radii ta' = TubeAssembly.radii ta ++ (seg_radius <$> segs) /\
    Forall2 (fun s tb => Tube.init (seg_delay s) (seg_losses s) = Return tb) segs new.
Proof.
  induction segs as [|s segs IH]; intros ta Hinv Hrad Hsegs.
  - exists ta, []. cbn. rewrite !app_nil_r. split_and!; auto.
  - inversion Hsegs as [|? ? [Hd Hr] Hsegs']; subst.
    destruct (append_tube_ok ta (seg_delay s) (seg_radius s) (seg_losses s) Hinv
                ltac:(lia) ltac:(left; lia))
      as (tb & ta1 & E & Hinit & Htubes & Hradii & _).
    { intros rl Hlast. split; [|assumption].
      rewrite last_lookup in Hlast. apply (Forall_lookup_1 _ _ _ _ Hrad Hlast). }
    destruct (IH ta1) as (ta' & new & E' & Ht' & Hr' & Hnew); auto.
    + eapply append_tube_inv; eauto.
    + rewrite Hradii. apply Forall_app. split; [assumption|]. now constructor.
    + exists ta', (tb :: new). cbn [for_each]. rewrite (bind_run _ _ _ _ _ E).
      split; [exact E'|]. split; [|split].
      * rewrite Ht', Htubes, <- app_assoc. reflexivity.
      * rewrite Hr', Hradii, <- app_assoc. reflexivity.
      * now constructor.
Qed.

(** What [build] makes of valid segments. *)
Lemma build_tubes (segs : list segment) :
  segs <> [] ->
  Forall (fun s => 1 <= seg_delay s /\ seg_radius s <> 0%Qc) segs ->
  exists ta,
    build segs = (Return tt, ta) /\ ta_ready ta /\ appended ta /\
    TubeAssembly.radii ta = seg_radius <$> segs /\
    Forall2 (fun s tb => Tube.init (seg_delay s) (seg_losses s) = Return tb)
            segs (TubeAssembly.tubes ta).
Proof.
  intros Hne Hsegs.
  destruct (build_ready segs Hne Hsegs) as (ta & E & Hready).
  destruct (build_from_tubes segs TubeAssembly.init ta_inv_init ltac:(constructor) Hsegs)
    as (ta' & new & E' & Ht & Hr & Hnew).
  unfold build in E. rewrite E in E'. injection E' as <-.
  exists ta. split; [unfold build; exact E|]. split; [exact Hready|].
  split; [|split; [exact Hr | rewrite Ht; exact Hnew]].
  clear - E. revert E.
  generalize TubeAssembly.init, appended_init. intros ta0 Hap0. revert ta0 Hap0.
  induction segs as [|s segs IH]; intros ta0 Hap0 E.
  - cbn in E. now injection E as <-.
  - cbn [for_each] in E. unfold mbind, py_mbind, py_bind in E.
    destruct (TubeAssembly.append_tube _ _ _ ta0) as [[[]|e] ta1] eqn:E1; [|discriminate].
    apply (IH ta1); [|exact E]. eapply appended_step; eauto.
Qed.

(** ** TubeAssembly: built, then run *)

Lemma tube_init_fresh delay losses tb :
  Tube.init delay losses = Return tb ->
  Tube.delay tb = delay /\ Tube.smpl_prop_mult tb = (1 - losses)%Qc /\
  DelayLine.nticks (Tube.dlin tb) = 0 /\ DelayLine.nticks (Tube.dlout tb) = 0.
Proof.
  intros Hinit. unfold Tube.init, DelayLine.init, np_zeros in Hinit.
  destruct (delay + 5 <? 0); [discriminate|]. cbn in Hinit.
  destruct (py_pow (1 - losses)%Qc delay); [|discriminate].
  cbn in Hinit. injection Hinit as <-. cbn. auto.
Qed.

Lemma read_zero_after_insert sin dl :
  dl_wf dl -> DelayLine.read_delay (Some 0) (dl_insert sin dl) = Return sin.
Proof.
  intros Hwf. pose proof (next_ptr_range dl Hwf) as Hnp.
  apply read_delay_wf; [now apply dl_insert_wf|].
  cbn [dl_insert DelayLine.line DelayLine.ptr DelayLine.n_samp].
  rewrite Z.sub_0_r, Z.mod_small by lia.
  apply list_lookup_insert_eq. destruct Hwf as (_ & Hl & _). unfold len in Hl. lia.
Qed.

(** X14. Every call advances every line once.  On an assembly built from
    segments with delays of at least 1 and non-zero radii, [m] calls of
    [insert_values] all return [ret_val]; they leave the junctions, the
    radii and the constants of every tube as built, and both delay
    lines of every tube have counted exactly [m] ticks. *)
Theorem insert_values_advances_lines (segs : list segment) (vals : list Qc) (ret_val : Qc) :
  segs <> [] ->
  Forall (fun s => 1 <= seg_delay s /\ seg_radius s <> 0%Qc) segs ->
  exists ta0 ta,
    build segs = (Return tt, ta0) /\
    run vals ret_val ta0 = (Return (replicate (length vals) ret_val), ta) /\
    TubeAssembly.scats ta = TubeAssembly.scats ta0 /\
    TubeAssembly.radii ta = seg_radius <$> segs /\
    length (TubeAssembly.tubes ta) = length segs /\
    forall (i : nat) s, segs !! i = Some s ->
      exists tb, TubeAssembly.tubes ta !! i = Some tb /\
        Tube.delay tb = seg_delay s /\
        Tube.smpl_prop_mult tb = (1 - seg_losses s)%Qc /\
        DelayLine.nticks (Tube.dlin tb) = len vals /\
        DelayLine.nticks (Tube.dlout tb) = len vals.
Proof.
  intros Hne Hsegs.
  destruct (build_tubes segs Hne Hsegs) as (ta0 & E0 & Hready & _ & Hrad0 & Hinit).
  destruct (run_ticks vals ret_val ta0 Hready) as (ta & E & _ & Hs & Hrad & Hlen & Ht).
  exists ta0, ta. split; [exact E0|]. split; [exact E|].
  split; [exact Hs|]. split; [congruence|].
  split; [rewrite Hlen; symmetry; eapply Forall2_length; exact Hinit|].
  intros i s Hs'.
  destruct (Forall2_lookup_l _ _ _ _ _ Hinit Hs') as (tb0 & Htb0 & Hi0).
  destruct (tube_init_fresh _ _ _ Hi0) as (Hd0 & Hsm0 & Hni0 & Hno0).
  destruct (Ht i tb0 Htb0) as (tb & Htb & (T1 & T2 & T3 & T4 & T5)).
  exists tb. split; [exact Htb|]. split_and!; try congruence; lia.
Qed.

Lemma insert_values_advances_lines_witness :
  exists ta0 ta,
    build matched_tubes = (Return tt, ta0) /\
    run [qc 1 1; qc 2 1; qc 3 1] (qc 1 2) ta0
    = (Return (replicate (length [qc 1 1; qc 2 1; qc 3 1]) (qc 1 2)), ta) /\
    TubeAssembly.scats ta = TubeAssembly.scats ta0 /\
    TubeAssembly.radii ta = seg_radius <$> matched_tubes /\
    length (TubeAssembly.tubes ta) = length matched_tubes /\
    forall (i : nat) s, matched_tubes !! i = Some s ->
      exists tb, TubeAssembly.tubes ta !! i = Some tb /\
        Tube.delay tb = seg_delay s /\
        Tube.smpl_prop_mult tb = (1 - seg_losses s)%Qc /\
        DelayLine.nticks (Tube.dlin tb) = len [qc 1 1; qc 2 1; qc 3 1] /\
        DelayLine.nticks (Tube.dlout tb) = len [qc 1 1; qc 2 1; qc 3 1].
Proof.
  apply (insert_values_advances_lines matched_tubes [qc 1 1; qc 2 1; qc 3 1] (qc 1 2)).
  - discriminate.
  - repeat constructor; try (cbn; lia); vm_compute; discriminate.
Defined.

(** X15. The input enters the first tube.  After any number of earlier
    calls, [insert_values(val, ret_val)] leaves [val] as the latest
    sample of the first tube's outgoing line: the outgoing read at
    position 0 of that tube returns [val]. *)
Theorem input_enters_first_tube (segs : list segment) (vals : list Qc) (val ret_val : Qc) :
  segs <> [] ->
  Forall (fun s => 1 <= seg_delay s /\ seg_radius s <> 0%Qc) segs ->
  exists ta0 ta ta' tb,
    build segs = (Return tt, ta0) /\
    run vals ret_val ta0 = (Return (replicate (length vals) ret_val), ta) /\
    TubeAssembly.insert_values val ret_val ta = (Return ret_val, ta') /\
    TubeAssembly.tubes ta' !! 0%nat = Some tb /\
    DelayLine.read_delay (Some 0) (Tube.dlout tb) = Return val /\
    Tube.read_outgoing_at_pos 0 tb = Return val.
Proof.
  intros Hne Hsegs.
  destruct (build_tubes segs Hne Hsegs) as (ta0 & E0 & Hready0 & _).
  destruct (run_ticks vals ret_val ta0 Hready0) as (ta & E & Hready & _).
  destruct (insert_values_ticks ta val ret_val Hready) as (ta' & E' & _ & _ & _ & _ & Ht).
  pose proof Hready as (Hne' & _ & _ & Hall).
  destruct (TubeAssembly.tubes ta) as [|tb0 l] eqn:Etubes; [congruence|].
  destruct (Ht 0%nat tb0 eq_refl) as (plin & pv & Htb & Hpv).
  rewrite (Hpv eq_refl) in Htb.
  inversion Hall as [|? ? [Hwi Hwo] _]; subst.
  assert (DelayLine.read_delay (Some 0) (Tube.dlout (tube_tick plin val tb0)) = Return val)
    as Hread.
  { unfold tube_tick; cbn [Tube.dlout Tube.set_dlout Tube.set_dlin].
    now apply read_zero_after_insert. }
  exists ta0, ta, ta', (tube_tick plin val tb0).
  split; [exact E0|]. split; [exact E|]. split; [exact E'|].
  split; [exact Htb|]. split; [exact Hread|].
  unfold Tube.read_outgoing_at_pos. rewrite Hread, py_pow_nonneg by lia.
  unfold pow_pos. change (Z.to_nat 0) with 0%nat.
  cbn [Qcpower mbind outcome_mbind outcome_bind mret outcome_ret].
  f_equal. ring.
Qed.

Lemma input_enters_first_tube_witness :
  exists ta0 ta ta' tb,
    build matched_tubes = (Return tt, ta0) /\
    run [qc 1 1; qc 2 1; qc 3 1] 0%Qc ta0
    = (Return (replicate (length [qc 1 1; qc 2 1; qc 3 1]) 0%Qc), ta) /\
    TubeAssembly.insert_values (qc 9 10) 0%Qc ta = (Return 0%Qc, ta') /\
    TubeAssembly.tubes ta' !! 0%nat = Some tb /\
    DelayLine.read_delay (Some 0) (Tube.dlout tb) = Return (qc 9 10) /\
    Tube.read_outgoing_at_pos 0 tb = Return (qc 9 10).
Proof.
  apply (input_enters_first_tube matched_tubes [qc 1 1; qc 2 1; qc 3 1] (qc 9 10) 0%Qc).
  - discriminate.
  - repeat constructor; try (cbn; lia); vm_compute; discriminate.
Defined.

Lemma total_delay_app l1 l2 : total_delay (l1 ++ l2) = total_delay l1 + total_delay l2.
Proof.
  induction l1 as [|tb l1 IH]; [reflexivity|].
  change ((tb :: l1) ++ l2) with (tb :: (l1 ++ l2)).
  rewrite !total_delay_cons, IH. lia.
Qed.

Lemma cum_end_start l (k : nat) tb :
  l !! k = Some tb -> cum_end l k = cum_start l k + Tube.delay tb.
Proof.
  intros Hk. unfold cum_end, cum_start.
  rewrite (take_S_r _ _ _ Hk), total_delay_app, total_delay_cons.
  change (total_delay []) with 0. lia.
Qed.

Lemma tube_sum_total tb pos :
  dl_wf (Tube.dlin tb) -> dl_wf (Tube.dlout tb) -> 0 <= pos <= Tube.delay tb ->
  exists x, Tube.get_sum_at_pos pos tb = Return x.
Proof.
  intros Hwi Hwo Hpos.
  unfold Tube.get_sum_at_pos, Tube.read_incoming_at_pos, Tube.read_outgoing_at_pos.
  destruct (read_delay_total (Tube.dlin tb) (Tube.delay tb - pos) Hwi) as [a ->].
  destruct (read_delay_total (Tube.dlout tb) pos Hwo) as [b ->].
  rewrite !py_pow_nonneg by lia. eexists. reflexivity.
Qed.

(** X16. Every position of the assembly has a pressure.  On an assembly
    built from valid segments and run for any number of ticks, every
    global index from 0 to the total delay resolves to a tube and a
    local position that lies inside that tube, between 0 and its
    delay, and [get_sum_at_pos] returns the sum that this tube gives
    there. *)
Theorem get_sum_at_pos_in_range (segs : list segment) (vals : list Qc) (ret_val : Qc) :
  segs <> [] ->
  Forall (fun s => 1 <= seg_delay s /\ seg_radius s <> 0%Qc) segs ->
  exists ta0 ta,
    build segs = (Return tt, ta0) /\
    run vals ret_val ta0 = (Return (replicate (length vals) ret_val), ta) /\
    forall index, 0 <= index <= total_delay (TubeAssembly.tubes ta) ->
      exists tb pos x,
        TubeAssembly.get_tube_at_pos index ta = Some (tb, pos) /\
        0 <= pos <= Tube.delay tb /\
        Tube.get_sum_at_pos pos tb = Return x /\
        TubeAssembly.get_sum_at_pos index ta = Return x.
Proof.
  intros Hne Hsegs.
  destruct (build_tubes segs Hne Hsegs) as (ta0 & E0 & Hready0 & _).
  destruct (run_ticks vals ret_val ta0 Hready0) as (ta & E & Hready & _).
  exists ta0, ta. split; [exact E0|]. split; [exact E|].
  intros index Hi. destruct Hready as (Hne' & _ & _ & Hall).
  destruct (get_tube_at_pos_from_first (TubeAssembly.tubes ta) 0 index Hne' ltac:(lia))
    as (k & tb & Hk & Hget & Hend & Hmin).
  rewrite Z.add_0_l in Hget, Hend.
  assert (0 <= index - cum_start (TubeAssembly.tubes ta) k <= Tube.delay tb) as Hpos.
  { rewrite (cum_end_start _ _ _ Hk) in Hend. split; [|lia].
    destruct k as [|k]; [rewrite cum_start_0; lia|].
    specialize (Hmin k ltac:(lia)). rewrite Z.add_0_l in Hmin.
    change (cum_start (TubeAssembly.tubes ta) (S k))
      with (cum_end (TubeAssembly.tubes ta) k). lia. }
  destruct (Forall_lookup_1 _ _ _ _ Hall Hk) as [Hwi Hwo].
  destruct (tube_sum_total tb _ Hwi Hwo Hpos) as [x Hx].
  exists tb, (index - cum_start (TubeAssembly.tubes ta) k), x.
  unfold TubeAssembly.get_sum_at_pos, TubeAssembly.get_tube_at_pos. rewrite Hget.
  split_and!; auto; lia.
Qed.

Lemma get_sum_at_pos_in_range_witness :
  exists ta0 ta,
    build matched_tubes = (Return tt, ta0) /\
    run [qc 1 1; qc 2 1; qc 3 1] 0%Qc ta0
    = (Return (replicate (length [qc 1 1; qc 2 1; qc 3 1]) 0%Qc), ta) /\
    forall index, 0 <= index <= total_delay (TubeAssembly.tubes ta) ->
      exists tb pos x,
        TubeAssembly.get_tube_at_pos index ta = Some (tb, pos) /\
        0 <= pos <= Tube.delay tb /\
        Tube.get_sum_at_pos pos tb = Return x /\
        TubeAssembly.get_sum_at_pos index ta = Return x.
Proof.
  apply (get_sum_at_pos_in_range matched_tubes [qc 1 1; qc 2 1; qc 3 1] 0%Qc).
  - discriminate.
  - repeat constructor; try (cbn; lia); vm_compute; discriminate.
Defined.

(** ** TubeAssembly: the pressure along the whole assembly *)

Lemma sum_distribution_mismatch d tb :
  tube_wf d tb -> 2 <= d -> Tube.get_sum_distribution tb = Raise ValueError.
Proof.
  intros (H1 & H2 & H3 & H4 & H5 & H6 & H7) Hd.
  unfold Tube.get_sum_distribution, np_mul. cbv zeta.
  assert (len (DelayLine.dump_line (Tube.dlout tb)) = d) as Hdump.
  { rewrite <- H5. apply len_dump_line; [apply H3 | lia]. }
  assert (len (np_pow (Tube.smpl_prop_mult tb) (np_arange (Tube.delay tb + 1))) = d + 1) as Hm.
  { unfold np_pow, len. rewrite length_fmap. fold (len (np_arange (Tube.delay tb + 1))).
    rewrite len_np_arange; lia. }
  unfold len in *.
  rewrite (np_broadcast_mismatch Qcmult (DelayLine.dump_line (Tube.dlout tb))) by lia.
  reflexivity.
Qed.

Lemma np_broadcast_one op x (b : list Qc) :
  length b <> 1%nat -> np_broadcast op [x] b = Return (op x <$> b).
Proof.
  intros Hb. unfold np_broadcast.
  destruct (decide (length [x] = length b)) as [E|E]; [cbn in E; congruence | reflexivity].
Qed.

Lemma np_broadcast_same op (a b : list Qc) :
  length a = length b -> np_broadcast op a b = Return (zip_with op a b).
Proof.
  intros E. unfold np_broadcast. destruct (decide (length a = length b)); [reflexivity | contradiction].
Qed.

(** With delay 1 the single dumped entry is broadcast over the two
    multipliers, and a vector of two entries comes back. *)
Lemma sum_distribution_delay_one tb :
  tube_wf 1 tb -> exists v, Tube.get_sum_distribution tb = Return v /\ length v = 2%nat.
Proof.
  intros (H1 & H2 & H3 & H4 & H5 & H6 & H7).
  assert (forall dl, dl_wf dl -> DelayLine.delay dl = 1 -> DelayLine.n_samp dl = 1 + 5 ->
            exists x, DelayLine.dump_line dl = [x]) as Hdump.
  { intros dl Hw Hd Hn.
    assert (len (DelayLine.dump_line dl) = 1) as Hlen.
    { rewrite <- Hd. apply len_dump_line; [apply Hw | lia]. }
    unfold len in Hlen. destruct (DelayLine.dump_line dl) as [|x [|y l]]; cbn in Hlen; try lia.
    eauto. }
  destruct (Hdump _ H3 H5 H7) as [xo Ho]. destruct (Hdump _ H2 H4 H6) as [xi Hi].
  unfold Tube.get_sum_distribution, np_mul, np_add. cbv zeta.
  rewrite Ho, Hi, H1.
  change (np_arange (1 + 1)) with [0; 1]. unfold np_pow. cbn [fmap list_fmap].
  rewrite !np_broadcast_one by (cbn; lia).
  cbn [mbind outcome_mbind outcome_bind fmap list_fmap np_flipud].
  rewrite np_broadcast_same by reflexivity.
  eexists. split; reflexivity.
Qed.

Lemma np_iadd_slice_fits (ps b : list Qc) pos :
  0 <= pos -> pos + len b <= len ps ->
  exists ps', np_iadd_slice ps pos (pos + len b) b = Return ps' /\ length ps' = length ps.
Proof.
  intros Hpos Hfit. unfold np_iadd_slice, slice_bound, len in *.
  destruct (Z.ltb_spec pos 0); [lia|].
  destruct (Z.ltb_spec (pos + Z.of_nat (length b)) 0); [lia|].
  rewrite !Z.min_l by lia.
  replace (Z.to_nat (pos + Z.of_nat (length b)) - Z.to_nat pos)%nat with (length b) by lia.
  destruct (decide (length b = length b)); [|congruence].
  eexists. split; [reflexivity|].
  rewrite !length_app, length_zip_with, !length_take, !length_drop. lia.
Qed.

(** The loop over tubes of delay at least 1, on an array that is long
    enough: it raises at the first tube of delay 2 or more, and runs
    through when every delay is 1. *)
Lemma get_sum_distribution_from_cases (l : list Tube.t) : forall pos ps,
  Forall (fun tb => tube_wf (Tube.delay tb) tb /\ 1 <= Tube.delay tb) l ->
  0 <= pos -> pos + total_delay l + 1 <= len ps ->
  (Exists (fun tb => 2 <= Tube.delay tb) l ->
   TubeAssembly.get_sum_distribution_from pos ps l = Raise ValueError) /\
  (Forall (fun tb => Tube.delay tb = 1) l ->
   exists ps', TubeAssembly.get_sum_distribution_from pos ps l = Return ps' /\
               length ps' = length ps).
Proof.
  induction l as [|tb l IH]; intros pos ps Hl Hpos Hfit.
  - split; [inversion 1 | intros _; exists ps; auto].
  - inversion Hl as [|? ? [Hwf Hd] Hl']; subst.
    rewrite total_delay_cons in Hfit.
    pose proof (total_delay_nonneg l) as Hnn.
    assert (0 <= total_delay l) as Htot.
    { apply Hnn. eapply Forall_impl; [exact Hl'|]. intros x [_ Hx]; cbn; lia. }
    cbn [TubeAssembly.get_sum_distribution_from].
    destruct (Z_le_gt_dec 2 (Tube.delay tb)) as [H2|H1].
    + rewrite (sum_distribution_mismatch _ tb Hwf H2).
      split; [reflexivity|]. intros Hall. inversion Hall; subst; lia.
    + assert (Tube.delay tb = 1) as E1 by lia.
      rewrite E1 in *.
      destruct (sum_distribution_delay_one tb Hwf) as (v & -> & Hv).
      cbn [mbind outcome_mbind outcome_bind].
      destruct (np_iadd_slice_fits ps v pos Hpos) as (ps' & Hadd & Hlen').
      { unfold len in *. lia. }
      replace (pos + 1 + 1) with (pos + len v) by (unfold len; lia).
      rewrite Hadd. cbn [mbind outcome_mbind outcome_bind].
      destruct (IH (pos + 1) ps' Hl' ltac:(lia)) as [IHe IHa].
      { unfold len in *. lia. }
      split.
      * intros Hex. inversion Hex as [? ? Hhd | ? ? Htl]; subst; [lia | now apply IHe].
      * intros Hall. inversion Hall; subst.
        destruct IHa as (ps'' & -> & Hlen''); [assumption|].
        exists ps''. split; [reflexivity | congruence].
Qed.

Lemma run_tube_wf (vals : list Qc) ret_val : forall ta,
  ta_ready ta ->
  Forall (fun tb => tube_wf (Tube.delay tb) tb) (TubeAssembly.tubes ta) ->
  exists ta',
    run vals ret_val ta = (Return (replicate (length vals) ret_val), ta') /\
    Forall (fun tb => tube_wf (Tube.delay tb) tb) (TubeAssembly.tubes ta') /\
    Tube.delay <$> TubeAssembly.tubes ta' = Tube.delay <$> TubeAssembly.tubes ta.
Proof.
  induction vals as [|v vals IH]; intros ta Hready Hwf.
  - exists ta. cbn. auto.
  - destruct (insert_values_ticks ta v ret_val Hready)
      as (ta1 & E1 & Hr1 & _ & _ & Hlen1 & Ht1).
    assert (Forall2 (fun tb tb1 => exists plin pv, tb1 = tube_tick plin pv tb)
                    (TubeAssembly.tubes ta) (TubeAssembly.tubes ta1)) as H12.
    { apply Forall2_same_length_lookup_2; [congruence|].
      intros i tb tb1 Htb Htb1. destruct (Ht1 i tb Htb) as (plin & pv & Htb1' & _).
      rewrite Htb1 in Htb1'. injection Htb1' as ->. eauto. }
    assert (Forall (fun tb => tube_wf (Tube.delay tb) tb) (TubeAssembly.tubes ta1)
            /\ Tube.delay <$> TubeAssembly.tubes ta1 = Tube.delay <$> TubeAssembly.tubes ta)
      as [Hwf1 Hd1].
    { clear - H12 Hwf. induction H12 as [|tb tb1 l l1 (plin & pv & ->) _ IH].
      - split; [constructor | reflexivity].
      - inversion Hwf; subst. destruct IH as [IH1 IH2]; [assumption|].
        split.
        + constructor; [|assumption]. now apply tube_tick_tube_wf.
        + cbn [fmap list_fmap]. f_equal. exact IH2. }
    destruct (IH ta1 Hr1 Hwf1) as (ta' & E & Hwf' & Hd').
    exists ta'. cbn [run]. rewrite (bind_run _ _ _ _ _ E1), (bind_run _ _ _ _ _ E).
    split; [reflexivity|]. split; [exact Hwf'|]. congruence.
Qed.

(** X17. The pressure vector of the whole assembly.  On an assembly built
    from segments with delays of at least 1 and non-zero radii, after
    any number of ticks, [get_sum_distribution] raises ValueError as
    soon as one segment has a delay of 2 or more (the vector of that
    tube cannot be formed); it returns a vector, of one entry more
    than there are segments, only when every delay is 1. *)
Theorem assembly_sum_distribution (segs : list segment) (vals : list Qc) (ret_val : Qc) :
  segs <> [] ->
  Forall (fun s => 1 <= seg_delay s /\ seg_radius s <> 0%Qc) segs ->
  exists ta0 ta,
    build segs = (Return tt, ta0) /\
    run vals ret_val ta0 = (Return (replicate (length vals) ret_val), ta) /\
    (Exists (fun s => 2 <= seg_delay s) segs ->
     TubeAssembly.get_sum_distribution ta = Raise ValueError) /\
    (Forall (fun s => seg_delay s = 1) segs ->
     exists ps, TubeAssembly.get_sum_distribution ta = Return ps /\
                len ps = len segs + 1).
Proof.
  intros Hne Hsegs.
  destruct (build_tubes segs Hne Hsegs) as (ta0 & E0 & Hready0 & _ & _ & Hinit).
  assert (Forall (fun tb => tube_wf (Tube.delay tb) tb) (TubeAssembly.tubes ta0)
          /\ Tube.delay <$> TubeAssembly.tubes ta0 = seg_delay <$> segs) as [Hwf0 Hd0].
  { clear - Hinit Hsegs. induction Hinit as [|s tb segs l Hi _ IH].
    - split; [constructor | reflexivity].
    - inversion Hsegs as [|? ? [Hd _] Hsegs']; subst.
      destruct IH as [IH1 IH2]; [assumption|].
      destruct (tube_init_wf (seg_delay s) (seg_losses s) ltac:(lia) ltac:(left; lia))
        as (tb' & Hi' & Hwf & _).
      rewrite Hi in Hi'. injection Hi' as <-.
      pose proof Hwf as (Hdel & _).
      split; [constructor; [now rewrite Hdel | assumption]|].
      cbn [fmap list_fmap]. now rewrite Hdel, IH2. }
  destruct (run_tube_wf vals ret_val ta0 Hready0 Hwf0) as (ta & E & Hwf & Hd).
  rewrite Hd0 in Hd.
  exists ta0, ta. split; [exact E0|]. split; [exact E|].
  assert (Forall (fun tb => 1 <= Tube.delay tb) (TubeAssembly.tubes ta)) as Hpos.
  { apply (Forall_fmap Tube.delay (fun d => 1 <= d)). rewrite Hd.
    apply Forall_fmap. eapply Forall_impl; [exact Hsegs|]. intros s [H _]. exact H. }
  assert (0 <= total_delay (TubeAssembly.tubes ta)) as Htot.
  { apply total_delay_nonneg. eapply Forall_impl; [exact Hpos|]. intros; cbn in *; lia. }
  unfold TubeAssembly.get_sum_distribution.
  fold (total_delay (TubeAssembly.tubes ta)).
  unfold np_zeros. destruct (Z.ltb_spec (total_delay (TubeAssembly.tubes ta) + 1) 0); [lia|].
  cbn [mbind outcome_mbind outcome_bind].
  destruct (get_sum_distribution_from_cases (TubeAssembly.tubes ta) 0
              (replicate (Z.to_nat (total_delay (TubeAssembly.tubes ta) + 1)) 0%Qc))
    as [Hraise Hret].
  { apply Forall_and. split; assumption. }
  { lia. }
  { unfold len. rewrite length_replicate. lia. }
  split.
  - intros Hex. apply Hraise.
    apply (Exists_fmap Tube.delay (fun d => 2 <= d)). rewrite Hd. now apply Exists_fmap.
  - intros Hall. destruct Hret as (ps & Hps & Hlen).
    { apply (Forall_fmap Tube.delay (fun d => d = 1)). rewrite Hd. now apply Forall_fmap. }
    exists ps. split; [exact Hps|].
    unfold len. rewrite Hlen, length_replicate.
    assert (total_delay (TubeAssembly.tubes ta) = Z.of_nat (length segs)) as ->.
    { assert (Forall (fun tb => Tube.delay tb = 1) (TubeAssembly.tubes ta)) as H1.
      { apply (Forall_fmap Tube.delay (fun d => d = 1)). rewrite Hd. now apply Forall_fmap. }
      rewrite <- (length_fmap seg_delay), <- Hd, length_fmap.
      clear - H1. induction H1 as [|tb l E _ IH]; [reflexivity|].
      rewrite total_delay_cons, IH, E. cbn [length]. lia. }
    lia.
Qed.

Lemma assembly_sum_distribution_witness :
  exists ta0 ta,
    build matched_tubes = (Return tt, ta0) /\
    run [qc 1 1; qc 2 1] 0%Qc ta0
    = (Return (replicate (length [qc 1 1; qc 2 1]) 0%Qc), ta) /\
    (Exists (fun s => 2 <= seg_delay s) matched_tubes ->
     TubeAssembly.get_sum_distribution ta = Raise ValueError) /\
    (Forall (fun s => seg_delay s = 1) matched_tubes ->
     exists ps, TubeAssembly.get_sum_distribution ta = Return ps /\
                len ps = len matched_tubes + 1).
Proof.
  apply (assembly_sum_distribution matched_tubes [qc 1 1; qc 2 1] 0%Qc).
  - discriminate.
  - repeat constructor; try (cbn; lia); vm_compute; discriminate.
Defined.

(** ** A single tube: the echo of the input *)

Lemma echo_att_init d losses tb :
  0 <= d -> Tube.init d losses = Return tb ->
  echo_att d (pow_pos (1 - losses) d) tb [] [].
Proof.
  intros Hd Hinit.
  destruct (tube_init_wf d losses ltac:(lia) ltac:(auto)) as (tb0 & E & Hwf & Hi & Ho & Hs & Hp).
  rewrite E in Hinit. injection Hinit as <-.
  rewrite py_pow_nonneg in Hp by assumption. injection Hp as Hp.
  unfold echo_att. split_and!; auto.
  - now rewrite Hs.
  - intros k Hk. unfold past.
    destruct (Z.to_nat k), (Z.to_nat (k + d - 1)); cbn; ring.
Qed.

Lemma echo_att_step d a tb radius h_in h_out val ret_val :
  2 <= d -> echo_att d a tb h_in h_out ->
  exists tb' plin,
    TubeAssembly.insert_values val ret_val (single tb radius)
    = (Return ret_val, single tb' radius) /\
    echo_att d a tb' (plin :: h_in) (val :: h_out).
Proof.
  intros Hd (Hwf & Hi & Ho & Hp & Hs & Hrel).
  pose proof Hwf as (Hdel & Hwi & Hwo & Hdi & Hdo & Hni & Hno).
  assert (Tube.read_outgoing tb = Return (past h_out (d - 2) * a)%Qc) as Hread.
  { unfold Tube.read_outgoing. rewrite Hdo, Hp.
    rewrite (read_delay_hist _ h_out) by (auto; lia). reflexivity. }
  rewrite (insert_values_single tb radius val ret_val _ Hwi Hwo Hread).
  eexists _, _. split.
  - f_equal. f_equal. ring.
  - unfold echo_att. split; [now apply tube_tick_tube_wf|].
    unfold tube_tick; cbn [Tube.dlin Tube.dlout Tube.set_dlin Tube.set_dlout
                             Tube.prop_mult Tube.smpl_prop_mult].
    split_and!; auto.
    + now apply dl_hist_insert.
    + now apply dl_hist_insert.
    + intros k Hk. rewrite (past_cons val) by lia.
      destruct (Z.eq_dec k 0) as [->|Hk0].
      * unfold past at 1. change (Z.to_nat 0) with 0%nat. cbn [nth].
        replace (0 + d - 1 - 1) with (d - 2) by lia. ring.
      * rewrite past_cons by lia. rewrite Hrel by lia. do 3 f_equal. lia.
Qed.

Lemma echo_att_run d a radius ret_val (vals : list Qc) : forall tb h_in h_out,
  2 <= d -> echo_att d a tb h_in h_out ->
  exists tb' h_in',
    run vals ret_val (single tb radius)
    = (Return (replicate (length vals) ret_val), single tb' radius) /\
    echo_att d a tb' h_in' (reverse vals ++ h_out).
Proof.
  induction vals as [|v vals IH]; intros tb h_in h_out Hd Hinv.
  - exists tb, h_in. cbn. auto.
  - destruct (echo_att_step d a tb radius h_in h_out v ret_val Hd Hinv)
      as (tb1 & plin & E1 & Hinv1).
    destruct (IH tb1 (plin :: h_in) (v :: h_out) Hd Hinv1) as (tb' & h_in' & E & Hinv').
    exists tb', h_in'. cbn [run]. rewrite (bind_run _ _ _ _ _ E1), (bind_run _ _ _ _ _ E).
    split; [reflexivity|]. now rewrite reverse_cons, <- app_assoc.
Qed.

Lemma echo_att_reading d a tb radius h_in h_out :
  2 <= d -> echo_att d a tb h_in h_out ->
  TubeAssembly.get_incoming_pressure_at_start (single tb radius)
  = Return (- (past h_out (2 * d - 1) * a) * a)%Qc.
Proof.
  intros Hd (Hwf & Hi & Ho & Hp & Hs & Hrel).
  destruct Hwf as (Hdel & Hwi & Hwo & Hdi & Hdo & Hni & Hno).
  unfold TubeAssembly.get_incoming_pressure_at_start. cbn [single TubeAssembly.tubes].
  change (getitem [tb] 0) with (Return tb). cbn [mbind outcome_mbind outcome_bind].
  unfold Tube.read_incoming_at_pos. rewrite Hdel, Z.sub_0_r.
  rewrite (read_delay_hist _ h_in) by (auto; lia).
  rewrite py_pow_nonneg by lia. cbn [mbind outcome_mbind outcome_bind mret outcome_ret].
  rewrite Hs, Hrel by lia.
  replace (d + d - 1) with (2 * d - 1) by lia. reflexivity.
Qed.

(** X18. The echo of a single tube.  On one tube of delay 2 or more, with
    any radius, loss rate and [ret_val], after the inputs [vals] the
    incoming pressure at the start is the input given [2 * delay - 1]
    calls before the latest one, negated and attenuated twice by the
    full-traversal multiplier [(1 - losses) ** delay] - once on the way
    out, once on the way back; it is 0 while fewer than [2 * delay]
    inputs were given.  [ret_val] has no influence on it. *)
Theorem single_tube_echo (delay : Z) (radius losses ret_val : Qc) (vals : list Qc) :
  2 <= delay ->
  exists ta0 ta,
    build [Segment delay radius losses] = (Return tt, ta0) /\
    run vals ret_val ta0 = (Return (replicate (length vals) ret_val), ta) /\
    (forall v, reverse vals !! Z.to_nat (2 * delay - 1) = Some v ->
       TubeAssembly.get_incoming_pressure_at_start ta
       = Return (- (v * pow_pos (1 - losses) delay) * pow_pos (1 - losses) delay)%Qc) /\
    (len vals < 2 * delay ->
     TubeAssembly.get_incoming_pressure_at_start ta = Return 0%Qc).
Proof.
  intros Hd.
  destruct (tube_init_wf delay losses ltac:(lia) ltac:(left; lia)) as (tb & Hinit & _).
  pose proof (echo_att_init delay losses tb ltac:(lia) Hinit) as Hinv.
  destruct (echo_att_run delay _ radius ret_val vals tb [] [] Hd Hinv)
    as (tb' & h_in' & Hrun & Hinv').
  rewrite app_nil_r in Hinv'.
  exists (single tb radius), (single tb' radius).
  split; [now apply build_single|]. split; [exact Hrun|].
  rewrite (echo_att_reading delay _ tb' radius h_in' _ Hd Hinv').
  split.
  - intros v Hv. do 4 f_equal. unfold past.
    now apply nth_lookup_Some with (d := 0%Qc) in Hv.
  - intros Hlen. f_equal. unfold past.
    rewrite nth_overflow by (rewrite length_reverse; unfold len in Hlen; lia). ring.
Qed.

Lemma single_tube_echo_witness :
  exists ta0 ta,
    build [Segment 2 (qc 1 1) (qc 1 10)] = (Return tt, ta0) /\
    run [qc 1 1; qc 2 1; qc 3 1; qc 4 1; qc 5 1] (qc 1 2) ta0
    = (Return (replicate (length [qc 1 1; qc 2 1; qc 3 1; qc 4 1; qc 5 1]) (qc 1 2)), ta) /\
    (forall v, reverse [qc 1 1; qc 2 1; qc 3 1; qc 4 1; qc 5 1] !! Z.to_nat (2 * 2 - 1) = Some v ->
       TubeAssembly.get_incoming_pressure_at_start ta
       = Return (- (v * pow_pos (1 - qc 1 10) 2) * pow_pos (1 - qc 1 10) 2)%Qc) /\
    (len [qc 1 1; qc 2 1; qc 3 1; qc 4 1; qc 5 1] < 2 * 2 ->
     TubeAssembly.get_incoming_pressure_at_start ta = Return 0%Qc).
Proof.
  apply (single_tube_echo 2 (qc 1 1) (qc 1 10) (qc 1 2)
           [qc 1 1; qc 2 1; qc 3 1; qc 4 1; qc 5 1]). lia.
Defined.

(** ** Two tubes behind a transparent junction *)

Lemma propagate_pair tb0 tb1 m r0 r1 val plout0 prin :
  dl_wf (Tube.dlin tb0) -> dl_wf (Tube.dlout tb0) ->
  Tube.read_outgoing tb0 = Return plout0 ->
  Tube.read_incoming tb1 = Return prin ->
  TubeAssembly.propagate 0 val (pair_assembly tb0 tb1 m r0 r1)
  = (Return (prin * m01 m + plout0 * m00 m)%Qc,
     pair_assembly (tube_tick (prin * m11 m + plout0 * m10 m)%Qc val tb0) tb1 m r0 r1).
Proof.
  intros Hwi0 Hwo0 Hr0 Hri1. unfold TubeAssembly.propagate.
  erewrite bind_run
    by (eapply (read_tube_ok (pair_assembly tb0 tb1 m r0 r1) 0 0 tb0); eauto).
  erewrite bind_run
    by (eapply (read_tube_ok (pair_assembly tb0 tb1 m r0 r1) (0 + 1) 1 tb1); eauto).
  erewrite bind_run by reflexivity.
  cbn beta iota.
  rewrite (on_tube_tick (pair_assembly tb0 tb1 m r0 r1) 0 0 tb0) by auto.
  reflexivity.
Qed.

Lemma insert_values_pair tb0 tb1 m r0 r1 val ret_val plout0 prin plout1 :
  dl_wf (Tube.dlin tb0) -> dl_wf (Tube.dlout tb0) ->
  dl_wf (Tube.dlin tb1) -> dl_wf (Tube.dlout tb1) ->
  Tube.read_outgoing tb0 = Return plout0 ->
  Tube.read_incoming tb1 = Return prin ->
  Tube.read_outgoing tb1 = Return plout1 ->
  TubeAssembly.insert_values val ret_val (pair_assembly tb0 tb1 m r0 r1)
  = (Return (ret_val * 1 + plout1 * 0)%Qc,
     pair_assembly
       (tube_tick (prin * m11 m + plout0 * m10 m)%Qc val tb0)
       (tube_tick (ret_val * 0 + plout1 * - 1)%Qc (prin * m01 m + plout0 * m00 m)%Qc tb1)
       m r0 r1).
Proof.
  intros Hwi0 Hwo0 Hwi1 Hwo1 Hr0 Hri1 Hr1.
  unfold TubeAssembly.insert_values.
  erewrite bind_run by reflexivity.
  change (np_arange (len (slice_to (TubeAssembly.tubes (pair_assembly tb0 tb1 m r0 r1)) (-1))))
    with [0].
  cbn [for_each].
  erewrite bind_run.
  2:{ erewrite bind_run by (apply propagate_pair; eauto). reflexivity. }
  set (ta1 := pair_assembly (tube_tick (prin * m11 m + plout0 * m10 m)%Qc val tb0) tb1 m r0 r1).
  erewrite bind_run by (eapply (read_tube_ok ta1 (-1) 1 tb1); eauto).
  erewrite bind_run by reflexivity.
  erewrite bind_run by reflexivity.
  cbn beta iota.
  rewrite (on_tube_tick ta1 (-1) 1 tb1) by auto.
  reflexivity.
Qed.

Lemma echo_pair_step d0 d1 a0 a1 tb0 tb1 r0 r1 h0i h0o h1i h1o val ret_val :
  2 <= d0 -> 2 <= d1 ->
  echo_pair d0 d1 a0 a1 tb0 tb1 h0i h0o h1i h1o ->
  exists tb0' tb1' x0 x1 y1,
    TubeAssembly.insert_values val ret_val (pair_assembly tb0 tb1 transparent r0 r1)
    = (Return ret_val, pair_assembly tb0' tb1' transparent r0 r1) /\
    echo_pair d0 d1 a0 a1 tb0' tb1' (x0 :: h0i) (val :: h0o) (x1 :: h1i) (y1 :: h1o).
Proof.
  intros Hd0 Hd1 (Hwf0 & Hwf1 & H0i & H0o & H1i & H1o & Hp0 & Hp1 & Hs0 & R1 & R2 & R3).
  pose proof Hwf0 as (Hdel0 & Hwi0 & Hwo0 & Hdi0 & Hdo0 & Hni0 & Hno0).
  pose proof Hwf1 as (Hdel1 & Hwi1 & Hwo1 & Hdi1 & Hdo1 & Hni1 & Hno1).
  assert (Tube.read_outgoing tb0 = Return (past h0o (d0 - 2) * a0)%Qc) as Hr0.
  { unfold Tube.read_outgoing. rewrite Hdo0, Hp0.
    rewrite (read_delay_hist _ h0o) by (auto; lia). reflexivity. }
  assert (Tube.read_incoming tb1 = Return (past h1i (d1 - 2) * a1)%Qc) as Hri1.
  { unfold Tube.read_incoming. rewrite Hdi1, Hp1.
    rewrite (read_delay_hist _ h1i) by (auto; lia). reflexivity. }
  assert (Tube.read_outgoing tb1 = Return (past h1o (d1 - 2) * a1)%Qc) as Hr1.
  { unfold Tube.read_outgoing. rewrite Hdo1, Hp1.
    rewrite (read_delay_hist _ h1o) by (auto; lia). reflexivity. }
  rewrite (insert_values_pair tb0 tb1 transparent r0 r1 val ret_val _ _ _
             Hwi0 Hwo0 Hwi1 Hwo1 Hr0 Hri1 Hr1).
  eexists _, _, _, _, _. split.
  - f_equal. f_equal. ring.
  - unfold echo_pair.
    split; [now apply tube_tick_tube_wf|]. split; [now apply tube_tick_tube_wf|].
    unfold tube_tick; cbn [Tube.dlin Tube.dlout Tube.set_dlin Tube.set_dlout
                             Tube.prop_mult Tube.smpl_prop_mult
                             transparent m00 m01 m10 m11].
    split; [now apply dl_hist_insert|]. split; [now apply dl_hist_insert|].
    split; [now apply dl_hist_insert|]. split; [now apply dl_hist_insert|].
    split; [assumption|]. split; [assumption|]. split; [assumption|].
    split; [|split].
    + intros k Hk. rewrite (past_cons val) by lia.
      destruct (Z.eq_dec k 0) as [->|Hk0].
      * unfold past at 1. change (Z.to_nat 0) with 0%nat. cbn [nth].
        replace (0 + d0 - 1 - 1) with (d0 - 2) by lia. ring.
      * rewrite past_cons by lia. rewrite R1 by lia. do 2 f_equal. lia.
    + intros k Hk. rewrite (past_cons (_ * 0 + _ * 1)%Qc) by lia.
      destruct (Z.eq_dec k 0) as [->|Hk0].
      * unfold past at 1. change (Z.to_nat 0) with 0%nat. cbn [nth].
        replace (0 + d1 - 1 - 1) with (d1 - 2) by lia. ring.
      * rewrite past_cons by lia. rewrite R2 by lia. do 3 f_equal. lia.
    + intros k Hk. rewrite (past_cons (_ * 0 + _ * - 1)%Qc) by lia.
      destruct (Z.eq_dec k 0) as [->|Hk0].
      * unfold past at 1. change (Z.to_nat 0) with 0%nat. cbn [nth].
        replace (0 + d1 - 1 - 1) with (d1 - 2) by lia. ring.
      * rewrite past_cons by lia. rewrite R3 by lia. do 2 f_equal. lia.
Qed.

Lemma build_pair d0 d1 r l0 l1 tb0 tb1 :
  r <> 0%Qc ->
  Tube.init d0 l0 = Return tb0 -> Tube.init d1 l1 = Return tb1 ->
  build [Segment d0 r l0; Segment d1 r l1]
  = (Return tt, pair_assembly tb0 tb1 transparent r r).
Proof.
  intros Hr Hi0 Hi1. unfold build.
  cbn [for_each seg_delay seg_radius seg_losses].
  erewrite bind_run.
  2:{ rewrite append_tube_unfold, Hi0. reflexivity. }
  erewrite bind_run; [reflexivity|].
  rewrite append_tube_unfold, Hi1.
  set (ta1 := ta_push tb1 r (ta_push tb0 r TubeAssembly.init)).
  rewrite (connect_tubes_neg (-1) ta1) by (subst ta1; vm_compute; congruence).
  change (len (TubeAssembly.tubes ta1) + -1) with (Z.of_nat 1).
  destruct (connect_tubes_cases ta1 0 r r eq_refl eq_refl ltac:(cbn; lia))
    as [(_ & _ & E) | ([Hz|Hz] & _)]; [|contradiction|contradiction].
  rewrite E. unfold ta1, ta_push, pair_assembly, TubeAssembly.set_scats; cbn.
  now rewrite junction_equal_scalers by now apply scaler_nonzero.
Qed.

Lemma echo_pair_init d0 d1 l0 l1 tb0 tb1 :
  0 <= d0 -> 0 <= d1 ->
  Tube.init d0 l0 = Return tb0 -> Tube.init d1 l1 = Return tb1 ->
  echo_pair d0 d1 (pow_pos (1 - l0) d0) (pow_pos (1 - l1) d1) tb0 tb1 [] [] [] [].
Proof.
  intros Hd0 Hd1 Hi0 Hi1.
  destruct (tube_init_wf d0 l0 ltac:(lia) ltac:(auto)) as (t0 & E0 & Hwf0 & H0i & H0o & Hs0 & Hp0).
  destruct (tube_init_wf d1 l1 ltac:(lia) ltac:(auto)) as (t1 & E1 & Hwf1 & H1i & H1o & Hs1 & Hp1).
  rewrite E0 in Hi0. injection Hi0 as <-. rewrite E1 in Hi1. injection Hi1 as <-.
  rewrite py_pow_nonneg in Hp0, Hp1 by assumption.
  injection Hp0 as Hp0. injection Hp1 as Hp1.
  assert (forall k j a, past [] k = (past [] j * a)%Qc) as Hz.
  { intros k j a. unfold past. destruct (Z.to_nat k), (Z.to_nat j); cbn; ring. }
  assert (forall k j a, past [] k = (- (past [] j * a))%Qc) as Hz'.
  { intros k j a. unfold past. destruct (Z.to_nat k), (Z.to_nat j); cbn; ring. }
  unfold echo_pair. split_and!; auto. now rewrite Hs0.
Qed.

Lemma echo_pair_run d0 d1 a0 a1 r0 r1 ret_val (vals : list Qc) :
  forall tb0 tb1 h0i h0o h1i h1o,
  2 <= d0 -> 2 <= d1 ->
  echo_pair d0 d1 a0 a1 tb0 tb1 h0i h0o h1i h1o ->
  exists tb0' tb1' h0i' h1i' h1o',
    run vals ret_val (pair_assembly tb0 tb1 transparent r0 r1)
    = (Return (replicate (length vals) ret_val), pair_assembly tb0' tb1' transparent r0 r1) /\
    echo_pair d0 d1 a0 a1 tb0' tb1' h0i' (reverse vals ++ h0o) h1i' h1o'.
Proof.
  induction vals as [|v vals IH]; intros tb0 tb1 h0i h0o h1i h1o Hd0 Hd1 Hinv.
  - exists tb0, tb1, h0i, h1i, h1o. cbn. auto.
  - destruct (echo_pair_step d0 d1 a0 a1 tb0 tb1 r0 r1 h0i h0o h1i h1o v ret_val Hd0 Hd1 Hinv)
      as (t0 & t1 & x0 & x1 & y1 & E1 & Hinv1).
    destruct (IH t0 t1 _ _ _ _ Hd0 Hd1 Hinv1) as (tb0' & tb1' & h0i' & h1i' & h1o' & E & Hinv').
    exists tb0', tb1', h0i', h1i', h1o'. cbn [run].
    rewrite (bind_run _ _ _ _ _ E1), (bind_run _ _ _ _ _ E).
    split; [reflexivity|]. now rewrite reverse_cons, <- app_assoc.
Qed.

Lemma echo_pair_reading d0 d1 a0 a1 tb0 tb1 r0 r1 h0i h0o h1i h1o :
  2 <= d0 -> 2 <= d1 ->
  echo_pair d0 d1 a0 a1 tb0 tb1 h0i h0o h1i h1o ->
  TubeAssembly.get_incoming_pressure_at_start (pair_assembly tb0 tb1 transparent r0 r1)
  = Return (- (past h0o (2 * (d0 + d1) - 3) * a0 * a1) * a1 * a0)%Qc.
Proof.
  intros Hd0 Hd1 (Hwf0 & Hwf1 & H0i & H0o & H1i & H1o & Hp0 & Hp1 & Hs0 & R1 & R2 & R3).
  destruct Hwf0 as (Hdel0 & Hwi0 & Hwo0 & Hdi0 & Hdo0 & Hni0 & Hno0).
  unfold TubeAssembly.get_incoming_pressure_at_start.
  cbn [pair_assembly TubeAssembly.tubes].
  change (getitem [tb0; tb1] 0) with (Return tb0). cbn [mbind outcome_mbind outcome_bind].
  unfold Tube.read_incoming_at_pos. rewrite Hdel0, Z.sub_0_r.
  rewrite (read_delay_hist _ h0i) by (auto; lia).
  rewrite py_pow_nonneg by lia. cbn [mbind outcome_mbind outcome_bind mret outcome_ret].
  rewrite Hs0, R3, R2, R1 by lia.
  replace (d0 + d1 - 1 + d1 - 1 + d0 - 1) with (2 * (d0 + d1) - 3) by lia.
  apply f_equal. ring.
Qed.

(** X19. The echo of two tubes of equal radius.  Behind the transparent
    junction of two tubes of delays [d0], [d1] of 2 or more, with any
    loss rates and [ret_val], the incoming pressure at the start after
    the inputs [vals] is the input given [2 * (d0 + d1) - 3] calls
    before the latest one, negated and attenuated by the full-traversal
    multipliers of both tubes, each of them twice.  An impulse is thus
    back after [2 * (d0 + d1) - 2] calls: the junction makes the round
    trip two samples shorter than twice the total delay. *)
Theorem two_tube_echo (d0 d1 : Z) (radius l0 l1 ret_val : Qc) (vals : list Qc) :
  2 <= d0 -> 2 <= d1 -> radius <> 0%Qc ->
  exists ta0 ta,
    build [Segment d0 radius l0; Segment d1 radius l1] = (Return tt, ta0) /\
    run vals ret_val ta0 = (Return (replicate (length vals) ret_val), ta) /\
    (forall v, reverse vals !! Z.to_nat (2 * (d0 + d1) - 3) = Some v ->
       TubeAssembly.get_incoming_pressure_at_start ta
       = Return (- (v * pow_pos (1 - l0) d0 * pow_pos (1 - l1) d1)
                 * pow_pos (1 - l1) d1 * pow_pos (1 - l0) d0)%Qc) /\
    (len vals < 2 * (d0 + d1) - 2 ->
     TubeAssembly.get_incoming_pressure_at_start ta = Return 0%Qc).
Proof.
  intros Hd0 Hd1 Hr.
  destruct (tube_init_wf d0 l0 ltac:(lia) ltac:(left; lia)) as (tb0 & Hi0 & _).
  destruct (tube_init_wf d1 l1 ltac:(lia) ltac:(left; lia)) as (tb1 & Hi1 & _).
  pose proof (echo_pair_init d0 d1 l0 l1 tb0 tb1 ltac:(lia) ltac:(lia) Hi0 Hi1) as Hinv.
  destruct (echo_pair_run d0 d1 _ _ radius radius ret_val vals tb0 tb1 [] [] [] []
              Hd0 Hd1 Hinv)
    as (tb0' & tb1' & h0i' & h1i' & h1o' & Hrun & Hinv').
  rewrite app_nil_r in Hinv'.
  exists (pair_assembly tb0 tb1 transparent radius radius),
         (pair_assembly tb0' tb1' transparent radius radius).
  split; [now apply build_pair|]. split; [exact Hrun|].
  rewrite (echo_pair_reading d0 d1 _ _ tb0' tb1' radius radius _ _ _ _ Hd0 Hd1 Hinv').
  split.
  - intros v Hv. unfold past.
    apply nth_lookup_Some with (d := 0%Qc) in Hv. now rewrite Hv.
  - intros Hlen. f_equal. unfold past.
    rewrite nth_overflow by (rewrite length_reverse; unfold len in Hlen; lia). ring.
Qed.

Lemma two_tube_echo_witness :
  exists ta0 ta,
    build [Segment 2 (qc 3 1) (qc 1 2); Segment 3 (qc 3 1) (qc 1 3)] = (Return tt, ta0) /\
    run (impulse (qc 9 10) 8) 0%Qc ta0
    = (Return (replicate (length (impulse (qc 9 10) 8)) 0%Qc), ta) /\
    (forall v, reverse (impulse (qc 9 10) 8) !! Z.to_nat (2 * (2 + 3) - 3) = Some v ->
       TubeAssembly.get_incoming_pressure_at_start ta
       = Return (- (v * pow_pos (1 - qc 1 2) 2 * pow_pos (1 - qc 1 3) 3)
                 * pow_pos (1 - qc 1 3) 3 * pow_pos (1 - qc 1 2) 2)%Qc) /\
    (len (impulse (qc 9 10) 8) < 2 * (2 + 3) - 2 ->
     TubeAssembly.get_incoming_pressure_at_start ta = Return 0%Qc).
Proof.
  apply (two_tube_echo 2 3 (qc 3 1) (qc 1 2) (qc 1 3) 0%Qc (impulse (qc 9 10) 8)).
  - lia.
  - lia.
  - vm_compute; discriminate.
Defined.
